(** * The hand-written Transformer of session_9/transformer_architectur.ipynb

    A shallow embedding of [PositionalEncoding], [MultiHeadAttention],
    [FeedForward], [EncoderLayer], [DecoderLayer] and [Transformer], together
    with the part of the torch tensor library these classes call.

    Conventions of the embedding.
    - A float tensor holds values of [fval]: a real number, one of the two
      infinities, or NaN.  Arithmetic on finite values is exact real
      arithmetic (no rounding, no overflow, no signed zero); the special
      values follow the IEEE rules torch uses.
    - A tensor is a shape together with an index function; an index is read
      only inside the shape.
    - Sizes ([d_model], [num_heads], [max_seq_length], ...) are natural
      numbers.
    - Operations that raise in Python return [Raise e].
    - [nn.Dropout] draws from the global random generator; the generator is
      threaded through the forward passes as an explicit state. *)

From Stdlib Require Import List Arith Lia ZArith Bool Reals Lra.
From Stdlib Require String Ascii Permutation.
Import ListNotations.
Import String.StringSyntax.
Delimit Scope string_scope with string.

Set Implicit Arguments.

(* ================================================================= *)
(** ** Exceptions *)

Inductive error : Type :=
| AssertionError
| ZeroDivisionError
| RuntimeError
| IndexError
| ValueError.

Inductive result (A : Type) : Type :=
| Ok (a : A)
| Raise (e : error).

Arguments Ok {A} a.
Arguments Raise {A} e.

Definition rbind {A B : Type} (m : result A) (k : A -> result B) : result B :=
  match m with
  | Ok a => k a
  | Raise e => Raise e
  end.

Declare Scope result_scope.
Delimit Scope result_scope with result.
Notation "x <- m ;; k" := (rbind m (fun x => k))
  (at level 61, m at next level, right associativity) : result_scope.

(* ================================================================= *)
(** ** Float values *)

Inductive fval : Type :=
| Fin (r : R)
| PInf
| NInf
| NaN.

Definition finite (v : fval) : Prop :=
  match v with Fin _ => True | _ => False end.

Definition fneg (v : fval) : fval :=
  match v with
  | Fin r => Fin (- r)
  | PInf => NInf
  | NInf => PInf
  | NaN => NaN
  end.

(** [r * v] for an infinite [v]: NaN when [r] is zero, otherwise the sign
    rule. *)
Definition scale_inf (r : R) (v : fval) : fval :=
  if Req_dec_T r 0 then NaN
  else if Rlt_dec 0 r then v else fneg v.

Definition fadd (a b : fval) : fval :=
  match a, b with
  | NaN, _ | _, NaN => NaN
  | Fin x, Fin y => Fin (x + y)
  | PInf, NInf | NInf, PInf => NaN
  | PInf, _ | _, PInf => PInf
  | NInf, _ | _, NInf => NInf
  end.

Definition fsub (a b : fval) : fval := fadd a (fneg b).

Definition fmul (a b : fval) : fval :=
  match a, b with
  | NaN, _ | _, NaN => NaN
  | Fin x, Fin y => Fin (x * y)
  | Fin x, v => scale_inf x v
  | v, Fin y => scale_inf y v
  | PInf, PInf | NInf, NInf => PInf
  | PInf, NInf | NInf, PInf => NInf
  end.

Definition fdiv (a b : fval) : fval :=
  match a, b with
  | NaN, _ | _, NaN => NaN
  | Fin x, Fin y => if Req_dec_T y 0 then scale_inf x PInf else Fin (x / y)
  | Fin _, _ => Fin 0
  | v, Fin y => if Rlt_dec y 0 then fneg v else v
  | _, _ => NaN
  end.

Definition fexp (a : fval) : fval :=
  match a with
  | Fin x => Fin (exp x)
  | PInf => PInf
  | NInf => Fin 0
  | NaN => NaN
  end.

Definition fsin (a : fval) : fval :=
  match a with Fin x => Fin (sin x) | _ => NaN end.

Definition fcos (a : fval) : fval :=
  match a with Fin x => Fin (cos x) | _ => NaN end.

Definition fsqrt (a : fval) : fval :=
  match a with
  | Fin x => if Rlt_dec x 0 then NaN else Fin (sqrt x)
  | PInf => PInf
  | _ => NaN
  end.

(** torch's [max] propagates NaN. *)
Definition fmax (a b : fval) : fval :=
  match a, b with
  | NaN, _ | _, NaN => NaN
  | PInf, _ | _, PInf => PInf
  | NInf, v | v, NInf => v
  | Fin x, Fin y => Fin (Rmax x y)
  end.

Definition frelu (a : fval) : fval :=
  match a with
  | Fin x => Fin (Rmax 0 x)
  | PInf => PInf
  | NInf => Fin 0
  | NaN => NaN
  end.

(** [tensor.bool()]: every value other than zero is true. *)
Definition to_bool (a : fval) : bool :=
  match a with
  | Fin x => if Req_dec_T x 0 then false else true
  | _ => true
  end.

(** Sum and maximum of [f 0 .. f (n-1)]. *)
Fixpoint fsum (n : nat) (f : nat -> fval) : fval :=
  match n with
  | O => Fin 0
  | S n' => fadd (fsum n' f) (f n')
  end.

Fixpoint fmaxn (n : nat) (f : nat -> fval) : fval :=
  match n with
  | O => NInf
  | S n' => fmax (fmaxn n' f) (f n')
  end.

Fixpoint rsum (n : nat) (g : nat -> R) : R :=
  match n with
  | O => 0%R
  | S n' => (rsum n' g + g n')%R
  end.

(* ================================================================= *)
(** ** Tensors *)

Record tensor (A : Type) : Type := mkT {
  shape : list nat;
  at_ : list nat -> A
}.

Arguments mkT {A} shape at_.

(** [idx] is a valid index of a tensor of shape [s]. *)
Definition in_range (s idx : list nat) : Prop := Forall2 lt idx s.

Definition rank {A : Type} (x : tensor A) : nat := length (shape x).

Definition tmap {A B : Type} (f : A -> B) (x : tensor A) : tensor B :=
  mkT (shape x) (fun idx => f (at_ x idx)).

Definition full {A : Type} (s : list nat) (v : A) : tensor A :=
  mkT s (fun _ => v).

Definition zeros (s : list nat) : tensor fval := full s (Fin 0).
Definition ones (s : list nat) : tensor fval := full s (Fin 1).

(** [x.size(k)] *)
Definition size {A : Type} (x : tensor A) (k : nat) : result nat :=
  match nth_error (shape x) k with
  | Some n => Ok n
  | None => Raise IndexError
  end.

(** [x.unsqueeze(k)] *)
Definition unsqueeze {A : Type} (k : nat) (x : tensor A) : result (tensor A) :=
  if k <=? rank x then
    Ok (mkT (firstn k (shape x) ++ 1 :: skipn k (shape x))
            (fun idx => at_ x (firstn k idx ++ skipn (S k) idx)))
  else Raise IndexError.

(** *** Broadcasting *)

Fixpoint zip_with {A B C : Type} (f : A -> B -> C) (l : list A) (m : list B)
  : list C :=
  match l, m with
  | a :: l', b :: m' => f a b :: zip_with f l' m'
  | _, _ => []
  end.

(** Broadcast of two shapes, both given last dimension first. *)
Fixpoint bshape_rev (s t : list nat) : option (list nat) :=
  match s, t with
  | [], _ => Some t
  | _, [] => Some s
  | a :: s', b :: t' =>
      match bshape_rev s' t' with
      | None => None
      | Some r =>
          if a =? b then Some (a :: r)
          else if a =? 1 then Some (b :: r)
          else if b =? 1 then Some (a :: r)
          else None
      end
  end.

Definition broadcast_shapes (s t : list nat) : option (list nat) :=
  option_map (@rev nat) (bshape_rev (rev s) (rev t)).

(** [s] can be expanded to [t]: dimensions are aligned from the right, and a
    dimension of [s] either equals the one of [t] or is 1. *)
Fixpoint expand_rev (s t : list nat) : bool :=
  match s, t with
  | [], _ => true
  | _ :: _, [] => false
  | a :: s', b :: t' => ((a =? b) || (a =? 1)) && expand_rev s' t'
  end.

Definition expandable (s t : list nat) : bool := expand_rev (rev s) (rev t).

(** The index of the operand of shape [s] that a result index [idx] reads:
    leading result dimensions are dropped, dimensions of size 1 read 0. *)
Definition bidx (s idx : list nat) : list nat :=
  zip_with (fun d i => if d =? 1 then 0 else i) s
           (skipn (length idx - length s) idx).

Definition expand {A : Type} (x : tensor A) (t : list nat) : tensor A :=
  mkT t (fun idx => at_ x (bidx (shape x) idx)).

(** An elementwise binary operation with broadcasting. *)
Definition tzip {A B C : Type} (f : A -> B -> C) (x : tensor A) (y : tensor B)
  : result (tensor C) :=
  match broadcast_shapes (shape x) (shape y) with
  | Some s =>
      Ok (mkT s (fun idx => f (at_ x (bidx (shape x) idx))
                              (at_ y (bidx (shape y) idx))))
  | None => Raise RuntimeError
  end.

Definition tadd := tzip fadd.
Definition tmul := tzip fmul.
Definition tand := tzip andb.

(** *** Index helpers for the last dimensions *)

(** The last two components [(i, j)] of an index. *)
Definition last2 (idx : list nat) : nat * nat :=
  match rev idx with
  | j :: i :: _ => (i, j)
  | _ => (0, 0)
  end.

(** The index without its last two components. *)
Definition batch_of (idx : list nat) : list nat :=
  firstn (length idx - 2) idx.

(** The index without its last component, and that component. *)
Definition init_of (idx : list nat) : list nat :=
  firstn (length idx - 1) idx.

Definition last_of (idx : list nat) : nat := last idx 0.

(** [torch.triu(x, diagonal)]: entries below the [diagonal]-th diagonal of
    the last two dimensions are set to zero. *)
Definition triu (diagonal : nat) (x : tensor fval) : tensor fval :=
  mkT (shape x)
      (fun idx => let '(i, j) := last2 idx in
                  if i + diagonal <=? j then at_ x idx else Fin 0).

(** [torch.arange(0, stop, step)] as floats; [step] is positive. *)
Definition arange (stop step : nat) : tensor fval :=
  mkT [(stop + step - 1) / step]
      (fun idx => Fin (INR (hd 0 idx * step))).

(** [x[:, :n]] *)
Definition slice_dim1 {A : Type} (n : nat) (x : tensor A) : tensor A :=
  mkT (match shape x with
       | a :: d :: s => a :: Nat.min n d :: s
       | s => s
       end)
      (at_ x).

(** Number of columns selected by [start::step] out of [d]. *)
Definition slice_count (start step d : nat) : nat :=
  (d - start + step - 1) / step.

(** torch drops the leading dimensions of size 1 of the assigned value
    before it expands it to the shape of the slice. *)
Fixpoint strip_ones (s : list nat) : list nat :=
  match s with
  | 1 :: s' => strip_ones s'
  | _ => s
  end.

(** [x[:, start::step] = v] on a matrix [x]. *)
Definition setitem_cols (start step : nat) (x v : tensor fval)
  : result (tensor fval) :=
  match shape x with
  | [rows; cols] =>
      let dst := [rows; slice_count start step cols] in
      let src := strip_ones (shape v) in
      if expandable src dst then
        let v' := expand (mkT src (fun idx =>
                    at_ v (repeat 0 (length (shape v) - length src) ++ idx)))
                    dst in
        Ok (mkT (shape x)
                (fun idx =>
                   match idx with
                   | [p; c] =>
                       if (start <=? c) && ((c - start) mod step =? 0)
                       then at_ v' [p; (c - start) / step]
                       else at_ x idx
                   | _ => at_ x idx
                   end))
      else Raise RuntimeError
  | _ => Raise IndexError
  end.

(* ================================================================= *)
(** ** PositionalEncoding *)

(** Python's [a / n] for a float [a] and an int [n]. *)
Definition py_truediv (a : R) (n : nat) : result R :=
  if n =? 0 then Raise ZeroDivisionError else Ok (a / INR n)%R.

Module PositionalEncoding.

Record t : Type := mk { pe : tensor fval }.

Open Scope result_scope.

(** The body of [__init__] up to the two slice assignments: the local
    [pe] before the batch dimension is added. *)
Definition build_table (d_model max_seq_length : nat)
  : result (tensor fval) :=
  let pe := zeros [max_seq_length; d_model] in
  position <- unsqueeze 1 (arange max_seq_length 1) ;;
  c <- py_truediv (- ln 10000) d_model ;;
  let div_term :=
    tmap fexp (tmap (fun v => fmul v (Fin c)) (arange d_model 2)) in
  a <- tmul position div_term ;;
  pe <- setitem_cols 0 2 pe (tmap fsin a) ;;
  a <- tmul position div_term ;;
  pe <- setitem_cols 1 2 pe (tmap fcos a) ;;
  Ok pe.

Definition init (d_model max_seq_length : nat) : result t :=
  pe <- build_table d_model max_seq_length ;;
  pe <- unsqueeze 0 pe ;;
  Ok (mk pe).

Definition forward (self : t) (x : tensor fval) : result (tensor fval) :=
  n <- size x 1 ;;
  tadd x (slice_dim1 n (pe self)).

End PositionalEncoding.

(* ================================================================= *)
(** ** More of the tensor library *)

(** Python's [a % n] on non-negative ints. *)
Definition py_mod (a n : nat) : result nat :=
  if n =? 0 then Raise ZeroDivisionError else Ok (a mod n).

(** A dimension given the Python way: a negative one counts from the end. *)
Definition norm_dim (r : nat) (d : Z) : result nat :=
  if (0 <=? d)%Z && (d <? Z.of_nat r)%Z then Ok (Z.to_nat d)
  else if (d <? 0)%Z && (- Z.of_nat r <=? d)%Z then Ok (Z.to_nat (Z.of_nat r + d))
  else Raise IndexError.

(** The list [l] with the components at [i] and [j] exchanged. *)
Definition swap (i j : nat) (l : list nat) : list nat :=
  map (fun k => nth (if k =? i then j else if k =? j then i else k) l 0)
      (seq 0 (length l)).

(** [x.transpose(d0, d1)] *)
Definition transpose {A : Type} (d0 d1 : Z) (x : tensor A) : result (tensor A) :=
  (i <- norm_dim (rank x) d0 ;;
   j <- norm_dim (rank x) d1 ;;
   Ok (mkT (swap i j (shape x)) (fun idx => at_ x (swap i j idx))))%result.

Definition prod (s : list nat) : nat := fold_right Nat.mul 1 s.

(** Row-major position of an index, and back. *)
Fixpoint ravel (s idx : list nat) : nat :=
  match s, idx with
  | _ :: s', i :: idx' => i * prod s' + ravel s' idx'
  | _, _ => 0
  end.

Fixpoint unravel (s : list nat) (n : nat) : list nat :=
  match s with
  | [] => []
  | _ :: s' => n / prod s' :: unravel s' (n mod prod s')
  end.

(** The sizes asked of [view]; [None] is Python's [-1]. *)
Definition known (t : list (option nat)) : nat :=
  prod (map (fun o => match o with Some d => d | None => 1 end) t).

Definition holes (t : list (option nat)) : nat :=
  length (filter (fun o => match o with Some _ => false | None => true end) t).

(** [x.view(t)] on a contiguous tensor. *)
Definition view {A : Type} (t : list (option nat)) (x : tensor A)
  : result (tensor A) :=
  let numel := prod (shape x) in
  let k := known t in
  match holes t with
  | 0 =>
      if k =? numel then
        Ok (mkT (map (fun o => match o with Some d => d | None => 1 end) t)
                (fun idx => at_ x (unravel (shape x)
                   (ravel (map (fun o => match o with Some d => d | None => 1 end) t) idx))))
      else Raise RuntimeError
  | 1 =>
      if (k =? 0) || negb (numel mod k =? 0) then Raise RuntimeError
      else
        let s := map (fun o => match o with Some d => d | None => numel / k end) t in
        Ok (mkT s (fun idx => at_ x (unravel (shape x) (ravel s idx))))
  | _ => Raise RuntimeError
  end.

(** [torch.matmul] on operands of rank at least 2 (the only ones the classes
    below pass): the last two dimensions are multiplied as matrices, the
    leading ones are broadcast. *)
Definition matmul (x y : tensor fval) : result (tensor fval) :=
  match rev (shape x), rev (shape y) with
  | k :: m :: bx, n :: k' :: by_ =>
      if k =? k' then
        match bshape_rev bx by_ with
        | Some b =>
            Ok (mkT (rev b ++ [m; n])
                    (fun idx =>
                       let '(i, j) := last2 idx in
                       let bi := batch_of idx in
                       fsum k (fun c =>
                         fmul (at_ x (bidx (rev bx) bi ++ [i; c]))
                              (at_ y (bidx (rev by_) bi ++ [c; j])))))
        | None => Raise RuntimeError
        end
      else Raise RuntimeError
  | _, _ => Raise RuntimeError
  end.

(** Softmax of the row [row 0 .. row (n-1)] at position [j]: the maximum of
    the row is subtracted before the exponential, as torch does. *)
Definition softmax_row (n : nat) (row : nat -> fval) (j : nat) : fval :=
  let m := fmaxn n row in
  fdiv (fexp (fsub (row j) m))
       (fsum n (fun j' => fexp (fsub (row j') m))).

(** [torch.softmax(x, dim=-1)] *)
Definition softmax (x : tensor fval) : tensor fval :=
  mkT (shape x)
      (fun idx =>
         softmax_row (last (shape x) 0)
                     (fun j => at_ x (init_of idx ++ [j]))
                     (last_of idx)).

(** [x.masked_fill(mask, value)], out of place: both operands are broadcast. *)
Definition masked_fill (x : tensor fval) (mask : tensor bool) (value : fval)
  : result (tensor fval) :=
  tzip (fun v (m : bool) => if m then value else v) x mask.

(** [mask == 0] on a boolean tensor. *)
Definition eq0 (mask : tensor bool) : tensor bool := tmap negb mask.

(** [x != 0] on an integer tensor. *)
Definition ne0 (x : tensor Z) : tensor bool :=
  tmap (fun v => negb (v =? 0)%Z) x.

(** All the valid indices of a shape. *)
Fixpoint all_idx (s : list nat) : list (list nat) :=
  match s with
  | [] => [[]]
  | d :: s' => flat_map (fun i => map (cons i) (all_idx s')) (seq 0 d)
  end.

(* ================================================================= *)
(** ** Computations that draw random numbers

    The state is the generator: the stream of Bernoulli samples it will
    produce, one tensor of samples per draw. *)

Definition rng : Type := nat -> list nat -> bool.

Definition M (A : Type) : Type := rng -> result (A * rng).

Definition ret {A : Type} (a : A) : M A := fun g => Ok (a, g).

Definition mbind {A B : Type} (m : M A) (k : A -> M B) : M B :=
  fun g => match m g with
           | Ok (a, g') => k a g'
           | Raise e => Raise e
           end.

Definition lift {A : Type} (r : result A) : M A :=
  fun g => match r with Ok a => Ok (a, g) | Raise e => Raise e end.

(** [torch.bernoulli]: the next tensor of samples. *)
Definition draw : M (list nat -> bool) :=
  fun g => Ok (g 0, fun n => g (S n)).

Declare Scope M_scope.
Delimit Scope M_scope with M.
Notation "x <- m ;; k" := (mbind m (fun x => k))
  (at level 61, m at next level, right associativity) : M_scope.
Notation "' p <- m ;; k" := (mbind m (fun p => k))
  (at level 61, p pattern, m at next level, right associativity) : M_scope.

(* ================================================================= *)
(** ** torch.nn modules used by the notebook *)

Module Dropout.

Record t : Type := mk { p : R; training : bool }.

Definition init (p : R) : result t :=
  if Rlt_dec p 0 then Raise ValueError
  else if Rlt_dec 1 p then Raise ValueError
  else Ok (mk p true).

(** In training mode a sample is drawn for every element: a kept element
    is scaled by [1 / (1 - p)], a dropped one is multiplied by zero.  In
    evaluation mode the input is returned. *)
Definition forward (self : t) (x : tensor fval) : M (tensor fval) :=
  if training self then
    (keep <- draw ;;
     ret (mkT (shape x)
              (fun idx => fmul (at_ x idx)
                 (Fin (if keep idx then 1 / (1 - p self) else 0)))))%M
  else ret x.

(** The generator after one call of [forward]. *)
Definition next (self : t) (g : rng) : rng :=
  if training self then fun n => g (S n) else g.

End Dropout.

Module Linear.

Record t : Type := mk {
  in_features : nat;
  out_features : nat;
  weight : nat -> nat -> R;   (* [out_features, in_features] *)
  bias : nat -> R
}.

(** Output feature [o] of [row @ weight.T + bias]. *)
Definition apply_row (self : t) (row : nat -> fval) (o : nat) : fval :=
  fadd (fsum (in_features self)
             (fun k => fmul (row k) (Fin (weight self o k))))
       (Fin (bias self o)).

(** [x @ weight.T + bias] on the last dimension. *)
Definition forward (self : t) (x : tensor fval) : result (tensor fval) :=
  match rev (shape x) with
  | d :: s =>
      if d =? in_features self then
        Ok (mkT (rev s ++ [out_features self])
                (fun idx =>
                   apply_row self (fun k => at_ x (init_of idx ++ [k]))
                             (last_of idx)))
      else Raise RuntimeError
  | [] => Raise RuntimeError
  end.

End Linear.

Module LayerNorm.

Record t : Type := mk {
  normalized_shape : nat;
  eps : R;
  weight : nat -> R;
  bias : nat -> R
}.

(** [nn.LayerNorm(d_model)]: unit weight, zero bias, [eps = 1e-5]. *)
Definition init (d_model : nat) : t :=
  mk d_model (1 / 100000) (fun _ => 1%R) (fun _ => 0%R).

(** Feature [c] of the normalised row; the mean and the (biased) variance
    are taken over the [d] entries of the row. *)
Definition apply_row (self : t) (d : nat) (row : nat -> fval) (c : nat)
  : fval :=
  let n := Fin (INR d) in
  let mean := fdiv (fsum d row) n in
  let var :=
    fdiv (fsum d (fun k => fmul (fsub (row k) mean) (fsub (row k) mean))) n in
  fadd (fmul (fdiv (fsub (row c) mean)
                   (fsqrt (fadd var (Fin (eps self)))))
             (Fin (weight self c)))
       (Fin (bias self c)).

Definition forward (self : t) (x : tensor fval) : result (tensor fval) :=
  match rev (shape x) with
  | d :: _ =>
      if d =? normalized_shape self then
        Ok (mkT (shape x)
                (fun idx =>
                   apply_row self d (fun k => at_ x (init_of idx ++ [k]))
                             (last_of idx)))
      else Raise RuntimeError
  | [] => Raise RuntimeError
  end.

End LayerNorm.

Module Embedding.

Record t : Type := mk {
  num_embeddings : nat;
  embedding_dim : nat;
  weight : nat -> nat -> R    (* [num_embeddings, embedding_dim] *)
}.

Definition valid (self : t) (v : Z) : bool :=
  (0 <=? v)%Z && (v <? Z.of_nat (num_embeddings self))%Z.

Definition forward (self : t) (x : tensor Z) : result (tensor fval) :=
  if forallb (fun idx => valid self (at_ x idx)) (all_idx (shape x)) then
    Ok (mkT (shape x ++ [embedding_dim self])
            (fun idx => Fin (weight self (Z.to_nat (at_ x (init_of idx)))
                                         (last_of idx))))
  else Raise IndexError.

End Embedding.

(* ================================================================= *)
(** ** MultiHeadAttention *)

(** The values a freshly built [nn.Linear] starts from. *)
Record init_values : Type := mk_init {
  init_weight : nat -> nat -> R;
  init_bias : nat -> R
}.

Definition new_linear (n_in n_out : nat) (v : init_values) : Linear.t :=
  Linear.mk n_in n_out (init_weight v) (init_bias v).

Module MultiHeadAttention.

Record t : Type := mk {
  d_model : nat;
  num_heads : nat;
  d_k : nat;
  W_q : Linear.t;
  W_k : Linear.t;
  W_v : Linear.t;
  W_o : Linear.t;
  dropout : Dropout.t
}.

Definition init (d_model num_heads : nat) (dropout : R)
           (vq vk vv vo : init_values) : result t :=
  (m <- py_mod d_model num_heads ;;
   if m =? 0 then
     drop <- Dropout.init dropout ;;
     Ok (mk d_model num_heads (d_model / num_heads)
            (new_linear d_model d_model vq)
            (new_linear d_model d_model vk)
            (new_linear d_model d_model vv)
            (new_linear d_model d_model vo)
            drop)
   else Raise AssertionError)%result.

(** The local [scores] after the optional [masked_fill]. *)
Definition scores (self : t) (Q K : tensor fval) (mask : option (tensor bool))
  : result (tensor fval) :=
  (kt <- transpose (-2) (-1) K ;;
   s <- matmul Q kt ;;
   let s := tmap (fun v => fdiv v (Fin (sqrt (INR (d_k self))))) s in
   match mask with
   | Some m => masked_fill s (eq0 m) NInf
   | None => Ok s
   end)%result.

(** The local [attention_weights] before dropout. *)
Definition attention_weights (self : t) (Q K : tensor fval)
           (mask : option (tensor bool)) : result (tensor fval) :=
  (s <- scores self Q K mask ;; Ok (softmax s))%result.

Definition scaled_dot_product_attention (self : t) (Q K V : tensor fval)
           (mask : option (tensor bool)) : M (tensor fval) :=
  (w <- lift (attention_weights self Q K mask) ;;
   w <- Dropout.forward (dropout self) w ;;
   lift (matmul w V))%M.

(** [W(x).view(batch_size, -1, num_heads, d_k).transpose(1, 2)] *)
Definition split_heads (self : t) (W : Linear.t) (batch_size : nat)
           (x : tensor fval) : result (tensor fval) :=
  (y <- Linear.forward W x ;;
   y <- view [Some batch_size; None; Some (num_heads self); Some (d_k self)] y ;;
   transpose 1 2 y)%result.

Definition forward (self : t) (query key value : tensor fval)
           (mask : option (tensor bool)) : M (tensor fval) :=
  (batch_size <- lift (size query 0) ;;
   Q <- lift (split_heads self (W_q self) batch_size query) ;;
   K <- lift (split_heads self (W_k self) batch_size key) ;;
   V <- lift (split_heads self (W_v self) batch_size value) ;;
   x <- scaled_dot_product_attention self Q K V mask ;;
   x <- lift (transpose 1 2 x) ;;
   x <- lift (view [Some batch_size; None; Some (d_model self)] x) ;;
   lift (Linear.forward (W_o self) x))%M.

End MultiHeadAttention.

(* ================================================================= *)
(** ** FeedForward *)

Module FeedForward.

Record t : Type := mk {
  linear1 : Linear.t;
  linear2 : Linear.t;
  dropout : Dropout.t
}.

Definition init (d_model d_ff : nat) (dropout : R) (v1 v2 : init_values)
  : result t :=
  (drop <- Dropout.init dropout ;;
   Ok (mk (new_linear d_model d_ff v1) (new_linear d_ff d_model v2) drop))%result.

Definition forward (self : t) (x : tensor fval) : M (tensor fval) :=
  (h <- lift (Linear.forward (linear1 self) x) ;;
   h <- Dropout.forward (dropout self) (tmap frelu h) ;;
   lift (Linear.forward (linear2 self) h))%M.

End FeedForward.

(* ================================================================= *)
(** ** EncoderLayer *)

Module EncoderLayer.

Record t : Type := mk {
  self_attention : MultiHeadAttention.t;
  feed_forward : FeedForward.t;
  norm1 : LayerNorm.t;
  norm2 : LayerNorm.t;
  dropout : Dropout.t
}.

(** [vals k] is what the [k]-th linear map of the layer starts from. *)
Definition init (d_model num_heads d_ff : nat) (dropout : R)
           (vals : nat -> init_values) : result t :=
  (attn <- MultiHeadAttention.init d_model num_heads dropout
             (vals 0) (vals 1) (vals 2) (vals 3) ;;
   ff <- FeedForward.init d_model d_ff dropout (vals 4) (vals 5) ;;
   drop <- Dropout.init dropout ;;
   Ok (mk attn ff (LayerNorm.init d_model) (LayerNorm.init d_model) drop))%result.

Definition forward (self : t) (x : tensor fval) (mask : option (tensor bool))
  : M (tensor fval) :=
  (attn_output <- MultiHeadAttention.forward (self_attention self) x x x mask ;;
   d <- Dropout.forward (dropout self) attn_output ;;
   r <- lift (tadd x d) ;;
   x <- lift (LayerNorm.forward (norm1 self) r) ;;
   ff_output <- FeedForward.forward (feed_forward self) x ;;
   d <- Dropout.forward (dropout self) ff_output ;;
   r <- lift (tadd x d) ;;
   lift (LayerNorm.forward (norm2 self) r))%M.

End EncoderLayer.

(* ================================================================= *)
(** ** DecoderLayer *)

Module DecoderLayer.

Record t : Type := mk {
  self_attention : MultiHeadAttention.t;
  cross_attention : MultiHeadAttention.t;
  feed_forward : FeedForward.t;
  norm1 : LayerNorm.t;
  norm2 : LayerNorm.t;
  norm3 : LayerNorm.t;
  dropout : Dropout.t
}.

Definition init (d_model num_heads d_ff : nat) (dropout : R)
           (vals : nat -> init_values) : result t :=
  (attn <- MultiHeadAttention.init d_model num_heads dropout
             (vals 0) (vals 1) (vals 2) (vals 3) ;;
   cross <- MultiHeadAttention.init d_model num_heads dropout
             (vals 4) (vals 5) (vals 6) (vals 7) ;;
   ff <- FeedForward.init d_model d_ff dropout (vals 8) (vals 9) ;;
   drop <- Dropout.init dropout ;;
   Ok (mk attn cross ff (LayerNorm.init d_model) (LayerNorm.init d_model)
          (LayerNorm.init d_model) drop))%result.

Definition forward (self : t) (x enc_output : tensor fval)
           (tgt_mask src_mask : option (tensor bool)) : M (tensor fval) :=
  (self_attn_output <-
     MultiHeadAttention.forward (self_attention self) x x x tgt_mask ;;
   d <- Dropout.forward (dropout self) self_attn_output ;;
   r <- lift (tadd x d) ;;
   x <- lift (LayerNorm.forward (norm1 self) r) ;;
   cross_attn_output <-
     MultiHeadAttention.forward (cross_attention self) x enc_output enc_output
                                src_mask ;;
   d <- Dropout.forward (dropout self) cross_attn_output ;;
   r <- lift (tadd x d) ;;
   x <- lift (LayerNorm.forward (norm2 self) r) ;;
   ff_output <- FeedForward.forward (feed_forward self) x ;;
   d <- Dropout.forward (dropout self) ff_output ;;
   r <- lift (tadd x d) ;;
   lift (LayerNorm.forward (norm3 self) r))%M.

End DecoderLayer.

(* ================================================================= *)
(** ** Transformer *)

Module Transformer.

Record t : Type := mk {
  encoder_embedding : Embedding.t;
  decoder_embedding : Embedding.t;
  positional_encoding : PositionalEncoding.t;
  encoder_layers : list EncoderLayer.t;
  decoder_layers : list DecoderLayer.t;
  final_layer : Linear.t;
  dropout : Dropout.t
}.

(** [[f(n) for n in range(count)]], stopping at the first exception. *)
Fixpoint build_list {A : Type} (f : nat -> result A) (start count : nat)
  : result (list A) :=
  match count with
  | O => Ok []
  | S count' =>
      (a <- f start ;;
       rest <- build_list f (S start) count' ;;
       Ok (a :: rest))%result
  end.

(** The values the parameters start from: the two embedding tables, the
    linear maps of the encoder and decoder layers, the final layer. *)
Record init_params : Type := mk_params {
  src_table : nat -> nat -> R;
  tgt_table : nat -> nat -> R;
  enc_vals : nat -> nat -> init_values;
  dec_vals : nat -> nat -> init_values;
  final_vals : init_values
}.

Definition init (src_vocab_size tgt_vocab_size d_model num_heads num_layers
                 d_ff max_seq_length : nat) (dropout : R)
           (v : init_params) : result t :=
  (pe <- PositionalEncoding.init d_model max_seq_length ;;
   enc <- build_list (fun n => EncoderLayer.init d_model num_heads d_ff dropout
                                 (enc_vals v n)) 0 num_layers ;;
   dec <- build_list (fun n => DecoderLayer.init d_model num_heads d_ff dropout
                                 (dec_vals v n)) 0 num_layers ;;
   drop <- Dropout.init dropout ;;
   Ok (mk (Embedding.mk src_vocab_size d_model (src_table v))
          (Embedding.mk tgt_vocab_size d_model (tgt_table v))
          pe enc dec
          (new_linear d_model tgt_vocab_size (final_vals v))
          drop))%result.

(** The local [nopeak_mask] of [create_mask]. *)
Definition nopeak_mask (seq_length : nat) : tensor bool :=
  tmap to_bool
       (tmap (fun v => fsub (Fin 1) v)
             (triu 1 (ones [1; seq_length; seq_length]))).

Definition create_mask (src tgt : tensor Z)
  : result (tensor bool * tensor bool) :=
  (src_mask <- unsqueeze 1 (ne0 src) ;;
   src_mask <- unsqueeze 2 src_mask ;;
   tgt_mask <- unsqueeze 1 (ne0 tgt) ;;
   tgt_mask <- unsqueeze 2 tgt_mask ;;
   seq_length <- size tgt 1 ;;
   tgt_mask <- tand tgt_mask (nopeak_mask seq_length) ;;
   Ok (src_mask, tgt_mask))%result.

(** The loop over [self.encoder_layers]. *)
Fixpoint run_encoder (layers : list EncoderLayer.t) (enc_output : tensor fval)
         (src_mask : tensor bool) : M (tensor fval) :=
  match layers with
  | [] => ret enc_output
  | enc_layer :: rest =>
      (enc_output <- EncoderLayer.forward enc_layer enc_output (Some src_mask) ;;
       run_encoder rest enc_output src_mask)%M
  end.

(** The loop over [self.decoder_layers]. *)
Fixpoint run_decoder (layers : list DecoderLayer.t)
         (dec_output enc_output : tensor fval)
         (tgt_mask src_mask : tensor bool) : M (tensor fval) :=
  match layers with
  | [] => ret dec_output
  | dec_layer :: rest =>
      (dec_output <- DecoderLayer.forward dec_layer dec_output enc_output
                       (Some tgt_mask) (Some src_mask) ;;
       run_decoder rest dec_output enc_output tgt_mask src_mask)%M
  end.

(** The block of [forward] under the comment [# Encoder]. *)
Definition encode (self : t) (src : tensor Z) (src_mask : tensor bool)
  : M (tensor fval) :=
  (e <- lift (Embedding.forward (encoder_embedding self) src) ;;
   e <- lift (PositionalEncoding.forward (positional_encoding self) e) ;;
   src_embedded <- Dropout.forward (dropout self) e ;;
   run_encoder (encoder_layers self) src_embedded src_mask)%M.

(** The block of [forward] under the comment [# Decoder]. *)
Definition decode (self : t) (tgt : tensor Z) (enc_output : tensor fval)
           (tgt_mask src_mask : tensor bool) : M (tensor fval) :=
  (e <- lift (Embedding.forward (decoder_embedding self) tgt) ;;
   e <- lift (PositionalEncoding.forward (positional_encoding self) e) ;;
   tgt_embedded <- Dropout.forward (dropout self) e ;;
   run_decoder (decoder_layers self) tgt_embedded enc_output tgt_mask src_mask)%M.

Definition forward (self : t) (src tgt : tensor Z) : M (tensor fval) :=
  ('(src_mask, tgt_mask) <- lift (create_mask src tgt) ;;
   enc_output <- encode self src src_mask ;;
   dec_output <- decode self tgt enc_output tgt_mask src_mask ;;
   lift (Linear.forward (final_layer self) dec_output))%M.

End Transformer.

(* ================================================================= *)
(** ** Vocabulary of the specification *)

(** Every entry of [x] inside its shape is a finite number. *)
Definition finite_tensor (x : tensor fval) : Prop :=
  forall idx, in_range (shape x) idx -> finite (at_ x idx).

(** [mask] can be broadcast to the shape [s]. *)
Definition broadcastable_to (mask : option (tensor bool)) (s : list nat) : Prop :=
  match mask with
  | Some m => expandable (shape m) s = true
  | None => True
  end.

(** Key [j] is unmasked for the query row [(b, h, i)]: the broadcast mask is
    not 0 there.  Without a mask every key is. *)
Definition visible (mask : option (tensor bool)) (b h i j : nat) : bool :=
  match mask with
  | Some m => at_ m (bidx (shape m) [b; h; i; j])
  | None => true
  end.

Definition has_valid_key (mask : option (tensor bool)) (k_len b h i : nat)
  : Prop :=
  exists j, j < k_len /\ visible mask b h i j = true.

(** [scores = Q.K^T / sqrt(d_k)], set to minus infinity where the mask is 0. *)
Definition spec_score (d_k : nat) (Q K : tensor fval)
           (mask : option (tensor bool)) (b h i j : nat) : fval :=
  if visible mask b h i j then
    fdiv (fsum d_k (fun c => fmul (at_ Q [b; h; i; c]) (at_ K [b; h; j; c])))
         (Fin (sqrt (INR d_k)))
  else NInf.

(** The softmax of the textbooks: [exp(x_j) / sum_j' exp(x_j')]. *)
Definition textbook_softmax (n : nat) (row : nat -> fval) (j : nat) : fval :=
  fdiv (fexp (row j)) (fsum n (fun j' => fexp (row j'))).

(** What dropout does to the weight at [idx] when the generator is [g]. *)
Definition spec_dropout (drop : Dropout.t) (g : rng) (idx : list nat)
           (w : fval) : fval :=
  if Dropout.training drop then
    fmul w (Fin (if g 0 idx then 1 / (1 - Dropout.p drop) else 0))
  else w.

(** [softmax(scores)], through dropout, times [V]. *)
Definition spec_attention (d_k k_len : nat) (drop : Dropout.t) (g : rng)
           (Q K V : tensor fval) (mask : option (tensor bool))
           (b h i c : nat) : fval :=
  fsum k_len (fun j =>
    fmul (spec_dropout drop g [b; h; i; j]
            (softmax_row k_len (spec_score d_k Q K mask b h i) j))
         (at_ V [b; h; j; c])).

(** A score is a finite number or minus infinity. *)
Definition score_like (v : fval) : Prop :=
  match v with Fin _ | NInf => True | _ => False end.

(** The exponential of a score shifted by [m], as a real number. *)
Definition shifted_exp (m : R) (v : fval) : R :=
  match v with Fin x => exp (x + - m) | _ => 0%R end.


(** *** What the constructors establish

    Training changes the weights, never the sizes below. *)

Definition linear_sizes (n_in n_out : nat) (l : Linear.t) : Prop :=
  Linear.in_features l = n_in /\ Linear.out_features l = n_out.

Definition norm_sizes (d_model : nat) (n : LayerNorm.t) : Prop :=
  LayerNorm.normalized_shape n = d_model /\ (0 < LayerNorm.eps n)%R.

Definition attention_sizes (d_model : nat) (a : MultiHeadAttention.t) : Prop :=
  MultiHeadAttention.d_model a = d_model /\
  MultiHeadAttention.num_heads a <> 0 /\
  d_model = MultiHeadAttention.num_heads a * MultiHeadAttention.d_k a /\
  linear_sizes d_model d_model (MultiHeadAttention.W_q a) /\
  linear_sizes d_model d_model (MultiHeadAttention.W_k a) /\
  linear_sizes d_model d_model (MultiHeadAttention.W_v a) /\
  linear_sizes d_model d_model (MultiHeadAttention.W_o a).

Definition feed_forward_sizes (d_model : nat) (f : FeedForward.t) : Prop :=
  exists d_ff, linear_sizes d_model d_ff (FeedForward.linear1 f) /\
               linear_sizes d_ff d_model (FeedForward.linear2 f).

Definition encoder_layer_sizes (d_model : nat) (l : EncoderLayer.t) : Prop :=
  attention_sizes d_model (EncoderLayer.self_attention l) /\
  feed_forward_sizes d_model (EncoderLayer.feed_forward l) /\
  norm_sizes d_model (EncoderLayer.norm1 l) /\
  norm_sizes d_model (EncoderLayer.norm2 l).

(** The encoder side of a [Transformer] built with [d_model] and
    [max_seq_length]. *)
Definition encoder_sizes (d_model max_seq_length : nat) (m : Transformer.t)
  : Prop :=
  Embedding.embedding_dim (Transformer.encoder_embedding m) = d_model /\
  PositionalEncoding.init d_model max_seq_length
    = Ok (Transformer.positional_encoding m) /\
  Forall (encoder_layer_sizes d_model) (Transformer.encoder_layers m).

(** The source batches [src] and [src'] hold the same tokens up to the true
    length [len b] of every row [b]. *)
Definition same_real_tokens (batch : nat) (len : nat -> nat)
           (src src' : tensor Z) : Prop :=
  forall b j, b < batch -> j < len b -> at_ src [b; j] = at_ src' [b; j].

(** [mask] marks exactly the positions beyond the true length as
    unattendable. *)
Definition masks_padding (batch seq_len : nat) (len : nat -> nat)
           (mask : tensor bool) : Prop :=
  shape mask = [batch; 1; 1; seq_len] /\
  forall b j, b < batch -> j < seq_len ->
    at_ mask [b; 0; 0; j] = (j <? len b).

(** Every token of [src] is an index of the embedding table. *)
Definition tokens_in_vocabulary (e : Embedding.t) (src : tensor Z) : Prop :=
  forall idx, in_range (shape src) idx -> Embedding.valid e (at_ src idx) = true.

(** The outputs [x] and [x'] are the same at the real positions. *)
Definition same_at_real_positions (batch d_model : nat) (len : nat -> nat)
           (x x' : tensor fval) : Prop :=
  forall b i c, b < batch -> i < len b -> c < d_model ->
    at_ x [b; i; c] = at_ x' [b; i; c].

(** Every row of [x] that belongs to a sequence with at least one real
    token holds finite numbers only. *)
Definition finite_rows (batch seq_len d_model : nat) (len : nat -> nat)
           (x : tensor fval) : Prop :=
  forall b i c, b < batch -> 0 < len b -> i < seq_len -> c < d_model ->
    finite (at_ x [b; i; c]).

(** The invariant between the activations of the two runs. *)
Definition related (batch seq_len d_model : nat) (len : nat -> nat)
           (x x' : tensor fval) : Prop :=
  shape x = [batch; seq_len; d_model] /\
  shape x' = [batch; seq_len; d_model] /\
  same_at_real_positions batch d_model len x x' /\
  finite_rows batch seq_len d_model len x /\
  finite_rows batch seq_len d_model len x'.

(** [FeedForward.forward] works on every position by itself. *)
Definition feed_forward_row (f : FeedForward.t) (g : rng) (b i : nat)
           (row : nat -> fval) (c : nat) : fval :=
  Linear.apply_row (FeedForward.linear2 f)
    (fun k => spec_dropout (FeedForward.dropout f) g [b; i; k]
                (frelu (Linear.apply_row (FeedForward.linear1 f) row k))) c.

(** [norm(x + dropout(s))], the tail of each of the two blocks. *)
Definition residual_row (drop : Dropout.t) (N : LayerNorm.t) (g : rng)
           (d b i : nat) (row srow : nat -> fval) (c : nat) : fval :=
  LayerNorm.apply_row N d
    (fun k => fadd (row k) (spec_dropout drop g [b; i; k] (srow k))) c.

(** The angle the code computes for position [p] and frequency index [q]. *)
Definition angle (d p q : nat) : R :=
  (INR (p * 1) * exp (INR (q * 2) * (- ln 10000 / INR d)))%R.

(* ================================================================= *)
(** ** Small instances used in examples *)

Definition zero_init : init_values := mk_init (fun _ _ => 0%R) (fun _ => 0%R).

Definition eval_dropout : Dropout.t := Dropout.mk (1 / 10) false.

(** One head of width one, in evaluation mode. *)
Definition unit_attention : MultiHeadAttention.t :=
  MultiHeadAttention.mk 1 1 1
    (new_linear 1 1 zero_init) (new_linear 1 1 zero_init)
    (new_linear 1 1 zero_init) (new_linear 1 1 zero_init)
    eval_dropout.

(** A batch of one sequence of two tokens. *)
Definition tokens2 (a b : Z) : tensor Z :=
  mkT [1; 2] (fun idx => match idx with
                         | [_; 0] => a
                         | _ => b
                         end).

(** A generator that keeps every element. *)
Definition keep_all : rng := fun _ _ => true.

Definition zero_params : Transformer.init_params :=
  Transformer.mk_params (fun _ _ => 0%R) (fun _ _ => 0%R)
                        (fun _ _ => zero_init) (fun _ _ => zero_init) zero_init.

(** The padding mask of one sequence of two positions whose true length
    is 1. *)
Definition first_only : tensor bool :=
  mkT [1; 1; 1; 2] (fun idx => match idx with
                               | [_; _; _; 0] => true
                               | _ => false
                               end).

(* ================================================================= *)
(** * The rest of the notebook

    [SimplePositionalEncoding], [TranslationDataset], the batch of
    [train_model] and the vocabularies, the dataset and the model of
    [train], with the vocabulary in which their properties are stated. *)

(* ================================================================= *)
(** ** The two halves of the attention weights

    [scaled_dot_product_attention] first computes the scores from [Q] and
    [K], then masks and normalises them.  The second half is a function of
    the scores alone, whatever arithmetic produced them: an entry of the
    scores may be an infinity or NaN, as an overflow of the product
    [Q.K^T] leaves in the code. *)

(** [torch.matmul(Q, K.transpose(-2, -1)) / math.sqrt(self.d_k)] *)
Definition raw_scores (self : MultiHeadAttention.t) (Q K : tensor fval)
  : result (tensor fval) :=
  (kt <- transpose (-2) (-1) K ;;
   s <- matmul Q kt ;;
   Ok (tmap (fun v => fdiv v (Fin (sqrt (INR (MultiHeadAttention.d_k self))))) s))%result.

(** [scores.masked_fill(mask == 0, float("-inf"))] when there is a mask,
    then [torch.softmax(scores, dim=-1)]. *)
Definition weights_of_scores (scores : tensor fval)
           (mask : option (tensor bool)) : result (tensor fval) :=
  (s <- match mask with
        | Some m => masked_fill scores (eq0 m) NInf
        | None => Ok scores
        end ;;
   Ok (softmax s))%result.

(** The score of key [j] for the query row [(b, h, i)] after the
    [masked_fill]. *)
Definition masked_score (scores : tensor fval) (mask : option (tensor bool))
           (b h i j : nat) : fval :=
  if visible mask b h i j then at_ scores [b; h; i; j] else NInf.

(** The scores of the query row [(b, h, i)] at the keys it may attend to are
    finite numbers: neither NaN nor an infinity. *)
Definition finite_valid_scores (scores : tensor fval)
           (mask : option (tensor bool)) (k_len b h i : nat) : Prop :=
  forall j, j < k_len -> visible mask b h i j = true ->
    finite (at_ scores [b; h; i; j]).

(* ================================================================= *)
(** ** SimplePositionalEncoding *)

(** [x[:n]] *)
Definition slice_dim0 {A : Type} (n : nat) (x : tensor A) : tensor A :=
  mkT (match shape x with
       | d :: s => Nat.min n d :: s
       | s => s
       end)
      (at_ x).

Module SimplePositionalEncoding.

Record t : Type := mk { positional_embedding : tensor fval }.

(** [vals] is the sample [torch.randn] returns. *)
Definition init (d_model max_seq_length : nat) (vals : nat -> nat -> R) : t :=
  mk (mkT [max_seq_length; d_model]
          (fun idx => match idx with
                      | [p; c] => Fin (vals p c)
                      | _ => Fin 0
                      end)).

Definition forward (self : t) (x : tensor fval) : result (tensor fval) :=
  (n <- size x 1 ;;
   tadd x (slice_dim0 n (positional_embedding self)))%result.

End SimplePositionalEncoding.

(* ================================================================= *)
(** ** Sizes of the decoder side *)

Definition decoder_layer_sizes (d_model : nat) (l : DecoderLayer.t) : Prop :=
  attention_sizes d_model (DecoderLayer.self_attention l) /\
  attention_sizes d_model (DecoderLayer.cross_attention l) /\
  feed_forward_sizes d_model (DecoderLayer.feed_forward l) /\
  norm_sizes d_model (DecoderLayer.norm1 l) /\
  norm_sizes d_model (DecoderLayer.norm2 l) /\
  norm_sizes d_model (DecoderLayer.norm3 l).

(** A [Transformer] built with [d_model], [max_seq_length] and
    [tgt_vocab_size]. *)
Definition transformer_sizes (d_model max_seq_length tgt_vocab_size : nat)
           (m : Transformer.t) : Prop :=
  encoder_sizes d_model max_seq_length m /\
  Embedding.embedding_dim (Transformer.decoder_embedding m) = d_model /\
  Forall (decoder_layer_sizes d_model) (Transformer.decoder_layers m) /\
  linear_sizes d_model tgt_vocab_size (Transformer.final_layer m).

(** ** The masks of the decoder *)

(** The source mask lets every sequence attend to at least one position. *)
Definition attendable (batch seq_len : nat) (mask : tensor bool) : Prop :=
  shape mask = [batch; 1; 1; seq_len] /\
  forall b, b < batch -> exists j, j < seq_len /\ at_ mask [b; 0; 0; j] = true.

(** The target masks [mask] and [mask'] of two runs: every position may
    attend to the first one, and a position before [len b] may attend to the
    same positions in both runs, all of them before [len b]. *)
Definition causal_pair (batch seq_len : nat) (len : nat -> nat)
           (mask mask' : tensor bool) : Prop :=
  shape mask = [batch; 1; seq_len; seq_len] /\
  shape mask' = [batch; 1; seq_len; seq_len] /\
  (forall b i, b < batch -> i < seq_len ->
     at_ mask [b; 0; i; 0] = true /\ at_ mask' [b; 0; i; 0] = true) /\
  (forall b i j, b < batch -> i < len b -> j < seq_len ->
     at_ mask [b; 0; i; j] = at_ mask' [b; 0; i; j]) /\
  (forall b i j, b < batch -> i < len b -> j < seq_len ->
     at_ mask [b; 0; i; j] = true -> j < len b).

(** Every sequence of the batch [x] holds a token that is not padding. *)
Definition has_real_token (batch seq_len : nat) (x : tensor Z) : Prop :=
  forall b, b < batch -> exists j, j < seq_len /\ at_ x [b; j] <> 0%Z.

(** Every sequence of the batch [x] starts with a token that is not
    padding. *)
Definition starts_with_token (batch : nat) (x : tensor Z) : Prop :=
  forall b, b < batch -> at_ x [b; 0] <> 0%Z.

(** ** More small instances *)

(** A feed-forward block of width one with two hidden units, in evaluation
    mode. *)
Definition unit_feed_forward : FeedForward.t :=
  FeedForward.mk (new_linear 1 2 zero_init) (new_linear 2 1 zero_init)
                 eval_dropout.

(** One sequence of two positions of width one, holding [a] and [b]. *)
Definition rows2 (a b : R) : tensor fval :=
  mkT [1; 2; 1] (fun idx => match idx with
                            | [_; 0; _] => Fin a
                            | _ => Fin b
                            end).

(* ================================================================= *)
(** ** Data loading and preprocessing *)

(** [l[idx]] on a Python list: a negative index counts from the end. *)
Definition py_nth {A : Type} (l : list A) (idx : Z) : option A :=
  let n := Z.of_nat (length l) in
  if (0 <=? idx)%Z && (idx <? n)%Z then nth_error l (Z.to_nat idx)
  else if (idx <? 0)%Z && (- n <=? idx)%Z then nth_error l (Z.to_nat (n + idx))
  else None.

(** [torch.tensor(l)] on a list of integers that fit 64 bits. *)
Definition tensor_of_list (l : list Z) : tensor Z :=
  mkT [length l] (fun idx => match idx with
                             | [i] => nth i l 0%Z
                             | _ => 0%Z
                             end).

(** A [dict] from words to indices, in insertion order; a key occurs once. *)
Definition vocabulary : Type := list (String.string * Z).

(** [vocab.get(token)] *)
Fixpoint get (vocab : vocabulary) (token : String.string) : option Z :=
  match vocab with
  | [] => None
  | (k, v) :: rest => if String.eqb k token then Some v else get rest token
  end.

(** [vocab[key] = value] *)
Fixpoint set (vocab : vocabulary) (key : String.string) (value : Z)
  : vocabulary :=
  match vocab with
  | [] => [(key, value)]
  | (k, v) :: rest =>
      if String.eqb k key then (k, value) :: rest
      else (k, v) :: set rest key value
  end.

(** Every index of the dictionary fits the 64-bit integers of
    [torch.tensor]; on an index that does not, [torch.tensor] raises. *)
Definition fits_int64 (vocab : vocabulary) : Prop :=
  Forall (fun kv => (- 2 ^ 63 <= snd kv < 2 ^ 63)%Z) vocab.

Module TranslationDataset.

Inductive exception : Type :=
| KeyError (key : String.string)
| IndexError.

Inductive outcome (A : Type) : Type :=
| Return (a : A)
| Raises (e : exception).

Arguments Return {A} a.
Arguments Raises {A} e.

Record t : Type := mk {
  data : list (String.string * String.string);
  src_vocab : vocabulary;
  tgt_vocab : vocabulary;
  max_length : nat
}.

Definition len (self : t) : nat := length (data self).

(** [[vocab[token] for token in tokens]]: the first token that is not a key
    raises. *)
Fixpoint indices (vocab : vocabulary) (tokens : list String.string)
  : outcome (list Z) :=
  match tokens with
  | [] => Return []
  | token :: rest =>
      match get vocab token with
      | None => Raises (KeyError token)
      | Some v =>
          match indices vocab rest with
          | Return l => Return (v :: l)
          | Raises e => Raises e
          end
      end
  end.

(** [l + [0] * (max_length - len(l))] *)
Definition pad (max_length : nat) (l : list Z) : list Z :=
  l ++ repeat 0%Z (max_length - length l).

(** The dictionary [{"src": ..., "tgt": ...}] an item is. *)
Record item : Type := mk_item { src : tensor Z; tgt : tensor Z }.

(** [split] is [str.split]. *)
Definition getitem (split : String.string -> list String.string)
           (self : t) (idx : Z) : outcome item :=
  match py_nth (data self) idx with
  | None => Raises IndexError
  | Some (src_text, tgt_text) =>
      match indices (src_vocab self) (split src_text) with
      | Raises e => Raises e
      | Return src_indices =>
          let src_indices := firstn (max_length self) src_indices in
          match indices (tgt_vocab self) (split tgt_text) with
          | Raises e => Raises e
          | Return tgt_indices =>
              let tgt_indices := firstn (max_length self) tgt_indices in
              let src_indices := pad (max_length self) src_indices in
              let tgt_indices := pad (max_length self) tgt_indices in
              Return (mk_item (tensor_of_list src_indices)
                              (tensor_of_list tgt_indices))
          end
      end
  end.

End TranslationDataset.

(** [str.split()] on a text whose white space is ASCII: the words between
    runs of white space. *)
Definition is_space (c : Ascii.ascii) : bool :=
  let n := Ascii.nat_of_ascii c in
  (n =? 32) || ((9 <=? n) && (n <=? 13)) || ((28 <=? n) && (n <=? 31)).

Fixpoint split_from (word : String.string) (s : String.string)
  : list String.string :=
  match s with
  | String.EmptyString =>
      match word with
      | String.EmptyString => []
      | _ => [word]
      end
  | String.String c s' =>
      if is_space c then
        match word with
        | String.EmptyString => split_from String.EmptyString s'
        | _ => word :: split_from String.EmptyString s'
        end
      else split_from (String.append word (String.String c String.EmptyString)) s'
  end.

Definition split_ascii (s : String.string) : list String.string :=
  split_from String.EmptyString s.

(** The data and the vocabularies of the cell that follows the class. *)
Definition example_dataset : TranslationDataset.t :=
  TranslationDataset.mk
    [("hello world", "hallo welt");
     ("goodbye", "auf wiedersehen");
     ("how are you?", "wie geht es dir?")]%string
    [("hello", 10); ("world", 1); ("goodbye", 2); ("how", 3); ("are", 4);
     ("you?", 5)]%string%Z
    [("hallo", 10); ("welt", 1); ("auf", 2); ("wiedersehen", 3); ("wie", 4);
     ("geht", 5)]%string%Z
    100.

(* ================================================================= *)
(** ** The vocabularies, the dataset and the model of [train] *)

(** [collections.Counter]: the words with their counts, in the order of
    their first occurrence. *)
Module Counter.

Definition t : Type := list (String.string * nat).

(** One more occurrence of [word]. *)
Fixpoint add (c : t) (word : String.string) : t :=
  match c with
  | [] => [(word, 1)]
  | (k, n) :: rest =>
      if String.eqb k word then (k, S n) :: rest else (k, n) :: add rest word
  end.

(** [c.update(words)] *)
Definition update (c : t) (words : list String.string) : t :=
  fold_left add words c.

(** [x] goes before the first entry that does not count more. *)
Fixpoint insert (x : String.string * nat) (l : t) : t :=
  match l with
  | [] => [x]
  | y :: rest => if snd x <? snd y then y :: insert x rest else x :: y :: rest
  end.

(** [c.most_common()]: by decreasing count, words of equal count in the
    order of their first occurrence. *)
Definition most_common (c : t) : t := fold_right insert [] c.

End Counter.

Module Train.

(** The loop over [train_iter] that fills the two counters. *)
Fixpoint count (split : String.string -> list String.string)
         (train_iter : list (String.string * String.string))
         (src_vocab tgt_vocab : Counter.t) : Counter.t * Counter.t :=
  match train_iter with
  | [] => (src_vocab, tgt_vocab)
  | (src, tgt) :: rest =>
      count split rest (Counter.update src_vocab (split src))
                       (Counter.update tgt_vocab (split tgt))
  end.

(** [{word: idx + 1 for idx, (word, _) in enumerate(l)}], from [idx] on. *)
Fixpoint number (idx : nat) (l : Counter.t) : vocabulary :=
  match l with
  | [] => []
  | (word, _) :: rest => (word, (Z.of_nat idx + 1)%Z) :: number (S idx) rest
  end.

(** The dictionary made of a counter, with the entry of the padding. *)
Definition vocabulary_of (c : Counter.t) : vocabulary :=
  set (number 0 (Counter.most_common c)) "<pad>"%string 0%Z.

Definition vocabularies (split : String.string -> list String.string)
           (train_iter : list (String.string * String.string))
  : vocabulary * vocabulary :=
  let '(src_vocab, tgt_vocab) := count split train_iter [] [] in
  (vocabulary_of src_vocab, vocabulary_of tgt_vocab).

Definition dataset (split : String.string -> list String.string)
           (train_iter : list (String.string * String.string))
  : TranslationDataset.t :=
  let '(src_vocab, tgt_vocab) := vocabularies split train_iter in
  TranslationDataset.mk train_iter src_vocab tgt_vocab 100.

(** [Transformer(src_vocab_size=len(src_vocab), ..., d_ff=2048)] *)
Definition model (split : String.string -> list String.string)
           (train_iter : list (String.string * String.string))
           (v : Transformer.init_params) : result Transformer.t :=
  let '(src_vocab, tgt_vocab) := vocabularies split train_iter in
  Transformer.init (length src_vocab) (length tgt_vocab) 512 8 6 2048 5000
                   (1 / 10) v.

End Train.

(** The word [w] occurs in a source text, or in a target text, of the
    corpus. *)
Definition source_word (split : String.string -> list String.string)
           (train_iter : list (String.string * String.string))
           (w : String.string) : Prop :=
  exists s t, In (s, t) train_iter /\ In w (split s).

Definition target_word (split : String.string -> list String.string)
           (train_iter : list (String.string * String.string))
           (w : String.string) : Prop :=
  exists s t, In (s, t) train_iter /\ In w (split t).

(** The dictionary [v] numbers the words [word]: the padding has the index
    0, every word is a key, the other keys are words and have positive
    indices, two keys never share an index, and, unless the padding is
    itself a word, every index is below [len(v)]. *)
Definition numbers_words (v : vocabulary) (word : String.string -> Prop)
  : Prop :=
  get v "<pad>"%string = Some 0%Z /\
  (forall w, word w -> exists z, get v w = Some z) /\
  (forall w z, get v w = Some z -> w <> "<pad>"%string ->
     word w /\ (1 <= z)%Z) /\
  (forall w w' z, get v w = Some z -> get v w' = Some z -> w = w') /\
  (~ word "<pad>"%string ->
   forall w z, get v w = Some z -> (0 <= z < Z.of_nat (length v))%Z).

(* ================================================================= *)
(** ** The batch of [train_model] *)

(** [x[:, :-1]] *)
Definition drop_last_dim1 {A : Type} (x : tensor A) : result (tensor A) :=
  match shape x with
  | a :: d :: s => Ok (mkT (a :: (d - 1) :: s) (at_ x))
  | _ => Raise IndexError
  end.

(** [x[:, 1:]] *)
Definition drop_first_dim1 {A : Type} (x : tensor A) : result (tensor A) :=
  match shape x with
  | a :: d :: s =>
      Ok (mkT (a :: (d - 1) :: s)
              (fun idx => match idx with
                          | b :: i :: rest => at_ x (b :: S i :: rest)
                          | _ => at_ x idx
                          end))
  | _ => Raise IndexError
  end.

(** The body of the loop of [train_model] from [tgt_input = tgt[:, :-1]] to
    the two [view]s: what one batch gives to [criterion]. *)
Definition criterion_inputs (model : Transformer.t) (src tgt : tensor Z)
  : M (tensor fval * tensor Z) :=
  (tgt_input <- lift (drop_last_dim1 tgt) ;;
   tgt_output <- lift (drop_first_dim1 tgt) ;;
   output <- Transformer.forward model src tgt_input ;;
   k <- lift (norm_dim (rank output) (-1)) ;;
   n <- lift (size output k) ;;
   output <- lift (view [None; Some n] output) ;;
   tgt_output <- lift (view [None] tgt_output) ;;
   ret (output, tgt_output))%M.

(** [torch.stack(rows)], which the default collate function of [DataLoader]
    applies to the tensors of the items of a batch. *)
Definition stack (rows : list (tensor Z)) : result (tensor Z) :=
  match rows with
  | [] => Raise RuntimeError
  | r :: rest =>
      if forallb (fun r' => if list_eq_dec Nat.eq_dec (shape r') (shape r)
                            then true else false) rest
      then Ok (mkT (length rows :: shape r)
                   (fun idx => match idx with
                               | b :: idx' => at_ (nth b rows r) idx'
                               | [] => 0%Z
                               end))
      else Raise RuntimeError
  end.

(** The batch [DataLoader] makes of a list of items. *)
Definition collate (items : list TranslationDataset.item)
  : result TranslationDataset.item :=
  (src <- stack (map TranslationDataset.src items) ;;
   tgt <- stack (map TranslationDataset.tgt items) ;;
   Ok (TranslationDataset.mk_item src tgt))%result.

(** The item [it] is what [forward] needs of a row of a batch: one hundred
    indices of the two vocabularies, the first of which is a word. *)
Definition ready (model : Transformer.t) (it : TranslationDataset.item)
  : Prop :=
  shape (TranslationDataset.src it) = [100] /\
  shape (TranslationDataset.tgt it) = [100] /\
  (forall j, j < 100 ->
     Embedding.valid (Transformer.encoder_embedding model)
                     (at_ (TranslationDataset.src it) [j]) = true /\
     Embedding.valid (Transformer.decoder_embedding model)
                     (at_ (TranslationDataset.tgt it) [j]) = true) /\
  at_ (TranslationDataset.src it) [0] <> 0%Z /\
  at_ (TranslationDataset.tgt it) [0] <> 0%Z.

(** Parameters that differ from one feature to the next, so that what the
    model computes depends on its input. *)
Definition ramp_init : init_values :=
  mk_init (fun o k => INR (o + 2 * k)) (fun o => INR o).

Definition ramp_params : Transformer.init_params :=
  Transformer.mk_params (fun tok c => INR (tok + c))
                        (fun tok c => INR (tok * (c + 1)))
                        (fun _ _ => ramp_init) (fun _ _ => ramp_init) ramp_init.

(** The model has the sizes of the model [train] builds for the corpus.
    An optimizer step changes the weights, never the sizes. *)
Definition sized_as_trained (split : String.string -> list String.string)
           (train_iter : list (String.string * String.string))
           (model : Transformer.t) : Prop :=
  transformer_sizes 512 5000
    (length (snd (Train.vocabularies split train_iter))) model /\
  Embedding.num_embeddings (Transformer.encoder_embedding model)
    = length (fst (Train.vocabularies split train_iter)) /\
  Embedding.num_embeddings (Transformer.decoder_embedding model)
    = length (snd (Train.vocabularies split train_iter)).

(* ================================================================= *)
(** * Properties *)

Unset Implicit Arguments.

(** ** Tactics and basic facts *)

Ltac eqb_cases :=
  repeat match goal with
         | |- context [Nat.eqb ?a ?b] => destruct (Nat.eqb_spec a b)
         | |- context [Nat.leb ?a ?b] => destruct (Nat.leb_spec a b)
         | |- context [Nat.ltb ?a ?b] => destruct (Nat.ltb_spec a b)
         end.

Lemma in_range_length s idx : in_range s idx -> length idx = length s.
Proof. unfold in_range. induction 1; simpl; congruence. Qed.

(** A valid index is its own broadcast index. *)
Lemma bidx_in_range s idx : in_range s idx -> bidx s idx = idx.
Proof.
  intros H. unfold bidx. rewrite (in_range_length _ _ H), Nat.sub_diag. simpl.
  induction H as [|i d idx s Hlt H IH]; simpl; [reflexivity|].
  rewrite IH. destruct (Nat.eqb_spec d 1); [f_equal; lia | reflexivity].
Qed.

(** ** Slice assignment *)

Lemma slice_count_even d : slice_count 0 2 d = (d + 1) / 2.
Proof. unfold slice_count. f_equal. lia. Qed.

Lemma slice_count_odd d : slice_count 1 2 d = d / 2.
Proof.
  unfold slice_count. destruct d as [|d]; [reflexivity|].
  f_equal. lia.
Qed.

Lemma arange_count_2 d : (d + 2 - 1) / 2 = (d + 1) / 2.
Proof. f_equal. lia. Qed.

(** Assigning a value of shape [[rows; n]] to a slice of [k] columns works
    when [n = k] or [n = 1]; the result is then as expected. *)
Lemma setitem_cols_ok start step (x v : tensor fval) rows cols n :
  shape x = [rows; cols] ->
  shape v = [rows; n] ->
  n = slice_count start step cols \/ n = 1 ->
  exists r, setitem_cols start step x v = Ok r /\
    shape r = [rows; cols] /\
    forall p c, p < rows -> c < cols ->
      at_ r [p; c] =
        if (start <=? c) && ((c - start) mod step =? 0)
        then at_ v [p; if n =? 1 then 0 else (c - start) / step]
        else at_ x [p; c].
Proof.
  intros Hx Hv Hn. unfold setitem_cols. rewrite Hx, Hv.
  assert (Hexp : expandable (strip_ones [rows; n])
                            [rows; slice_count start step cols] = true).
  { unfold expandable. simpl.
    destruct rows as [|[|rows]]; destruct n as [|[|n]]; simpl;
      rewrite ?Nat.eqb_refl, ?orb_true_r; simpl; try reflexivity;
      destruct Hn as [Hn|Hn]; try discriminate; try (rewrite <- Hn);
      simpl; rewrite ?Nat.eqb_refl, ?orb_true_r; reflexivity. }
  rewrite Hexp. eexists. split; [reflexivity|]. split; [reflexivity|].
  intros p c Hp Hc. cbn [at_].
  destruct ((start <=? c) && ((c - start) mod step =? 0)); [|reflexivity].
  unfold expand. cbn [at_ shape]. f_equal.
  destruct rows as [|[|rows]]; destruct n as [|[|n]]; simpl;
    try lia; try reflexivity;
    repeat match goal with
           | |- context [match ?k with 0 => _ | S _ => _ end] => destruct k
           end; try reflexivity; try (f_equal; lia).
Qed.

Lemma setitem_cols_raise start step (x v : tensor fval) rows cols n :
  shape x = [rows; cols] ->
  shape v = [rows; n] ->
  n <> slice_count start step cols -> n <> 1 ->
  setitem_cols start step x v = Raise RuntimeError.
Proof.
  intros Hx Hv Hk H1. unfold setitem_cols. rewrite Hx, Hv.
  assert (Hexp : expandable (strip_ones [rows; n])
                            [rows; slice_count start step cols] = false).
  { unfold expandable. revert Hk. generalize (slice_count start step cols).
    intros k Hk.
    destruct rows as [|[|rows]]; destruct n as [|[|n]];
      cbn [strip_ones rev app expand_rev]; try lia;
      repeat match goal with
             | |- context [Nat.eqb ?a ?b] => destruct (Nat.eqb_spec a b)
             end; simpl; try reflexivity; try lia. }
  rewrite Hexp. reflexivity.
Qed.

(** ** Broadcasting a column against a row *)

Lemma tzip_col_row {A B C : Type} (f : A -> B -> C) (x : tensor A)
      (y : tensor B) L n :
  shape x = [L; 1] -> shape y = [n] ->
  exists z, tzip f x y = Ok z /\ shape z = [L; n] /\
    forall p q, p < L -> q < n ->
      at_ z [p; q] = f (at_ x [p; 0]) (at_ y [q]).
Proof.
  intros Hx Hy. unfold tzip, broadcast_shapes. rewrite Hx, Hy.
  cbn [rev app bshape_rev]. rewrite Nat.eqb_refl.
  assert (Hs : (if 1 =? n then Some [1; L] else Some [n; L]) = Some [n; L]).
  { destruct (Nat.eqb_spec 1 n); congruence. }
  rewrite Hs. cbn [option_map rev app]. eexists. split; [reflexivity|]. split; [reflexivity|].
  intros p q Hp Hq. cbn [at_]. unfold bidx. simpl.
  f_equal; f_equal; eqb_cases; f_equal; lia.
Qed.

(** ** The table of [PositionalEncoding] *)

Lemma position_times_div_term d L :
  d <> 0 ->
  exists pos a,
    unsqueeze 1 (arange L 1) = Ok pos /\
    tmul pos (tmap fexp (tmap (fun v => fmul v (Fin (- ln 10000 / INR d)))
                              (arange d 2))) = Ok a /\
    shape a = [L; (d + 1) / 2] /\
    forall p q, p < L -> q < (d + 1) / 2 ->
      at_ a [p; q] = Fin (angle d p q).
Proof.
  intros Hd.
  set (pos := mkT [L; 1] (fun idx : list nat =>
                at_ (arange L 1) (firstn 1 idx ++ skipn 2 idx))).
  assert (Hpos : unsqueeze 1 (arange L 1) = Ok pos).
  { unfold unsqueeze, rank, arange, pos. cbn [shape length Nat.leb].
    cbn [firstn skipn app]. rewrite Nat.add_sub, Nat.div_1_r. reflexivity. }
  assert (Hy : shape (tmap fexp (tmap (fun v => fmul v (Fin (- ln 10000 / INR d)))
                                      (arange d 2))) = [(d + 1) / 2]).
  { unfold tmap, arange. cbn [shape]. rewrite arange_count_2. reflexivity. }
  destruct (tzip_col_row fmul pos _ L _ eq_refl Hy)
    as (a & Ha & Hsa & Hva).
  exists pos, a. repeat split; assumption.
Qed.

Lemma select_even c : (0 <=? c) && ((c - 0) mod 2 =? 0) = Nat.even c.
Proof.
  rewrite Nat.sub_0_r. cbn [Nat.leb andb].
  destruct (Nat.even c) eqn:E.
  - apply Nat.even_spec in E. destruct E as [k ->].
    apply Nat.eqb_eq. rewrite Nat.mul_comm. apply Nat.Div0.mod_mul.
  - apply Nat.eqb_neq. intros H. apply Nat.Div0.mod_divides in H.
    destruct H as [k ->].
    assert (Nat.even (2 * k) = true) by (apply Nat.even_spec; exists k; reflexivity).
    congruence.
Qed.

Lemma select_odd c : (1 <=? c) && ((c - 1) mod 2 =? 0) = Nat.odd c.
Proof.
  destruct c as [|c]; [reflexivity|].
  replace (S c - 1) with (c - 0) by lia.
  change (1 <=? S c) with (0 <=? c). rewrite select_even.
  rewrite Nat.odd_succ. reflexivity.
Qed.

Lemma half_lt c d : Nat.even d = true -> c < d -> c / 2 < (d + 1) / 2.
Proof.
  intros E Hc. apply Nat.even_spec in E. destruct E as [k ->].
  replace ((2 * k + 1) / 2) with k.
  - apply Nat.Div0.div_lt_upper_bound. lia.
  - apply Nat.div_unique with 1; lia.
Qed.

Lemma even_half d : Nat.even d = true -> (d + 1) / 2 = d / 2.
Proof.
  intros E. apply Nat.even_spec in E. destruct E as [k ->].
  rewrite (Nat.mul_comm 2 k), Nat.div_mul by lia.
  symmetry. apply Nat.div_unique with 1; lia.
Qed.

Lemma odd_half c : Nat.odd c = true -> (c - 1) / 2 = c / 2.
Proof.
  intros O. apply Nat.odd_spec in O. destruct O as [k ->].
  replace (2 * k + 1 - 1) with (k * 2) by lia. rewrite Nat.div_mul by lia.
  apply Nat.div_unique with 1; lia.
Qed.

(** What the constructor leaves in the local [pe]. *)
Lemma build_table_ok d L :
  d = 1 \/ (Nat.even d = true /\ d <> 0) ->
  exists t, PositionalEncoding.build_table d L = Ok t /\
    shape t = [L; d] /\
    forall p c, p < L -> c < d ->
      at_ t [p; c] = if Nat.even c then Fin (sin (angle d p (c / 2)))
                     else Fin (cos (angle d p (c / 2))).
Proof.
  intros Hd.
  assert (Hd0 : d <> 0) by (destruct Hd as [->|[_ ?]]; [discriminate|assumption]).
  unfold PositionalEncoding.build_table.
  destruct (position_times_div_term d L Hd0) as (pos & a & Hpos & Ha & Hsa & Hva).
  rewrite Hpos. cbn [rbind]. unfold py_truediv.
  destruct (Nat.eqb_spec d 0) as [?|_]; [contradiction|]. cbn [rbind].
  rewrite Ha. cbn [rbind].
  destruct (setitem_cols_ok 0 2 (zeros [L; d]) (tmap fsin a) L d ((d + 1) / 2))
    as (r1 & Hr1 & Hs1 & Hv1);
    [reflexivity | exact Hsa | left; symmetry; apply slice_count_even |].
  rewrite Hr1. cbn [rbind].
  destruct (setitem_cols_ok 1 2 r1 (tmap fcos a) L d ((d + 1) / 2))
    as (r2 & Hr2 & Hs2 & Hv2); [exact Hs1 | exact Hsa | |].
  { rewrite slice_count_odd. destruct Hd as [->|[E _]]; [right; reflexivity|].
    left. apply even_half, E. }
  rewrite Hr2. cbn [rbind]. exists r2. split; [reflexivity|]. split; [exact Hs2|].
  intros p c Hp Hc. rewrite (Hv2 p c Hp Hc), select_odd, (Hv1 p c Hp Hc), select_even.
  rewrite <- Nat.negb_even.
  assert (Hq : c / 2 < (d + 1) / 2).
  { destruct Hd as [->|[E _]]; [|apply half_lt; assumption].
    replace c with 0 by lia. simpl. lia. }
  assert (Hidx : forall q, q = c / 2 ->
            (if (d + 1) / 2 =? 1 then 0 else q) = c / 2).
  { intros q ->. destruct (Nat.eqb_spec ((d + 1) / 2) 1); lia. }
  destruct (Nat.even c) eqn:E; cbn [negb]; unfold tmap; cbn [at_].
  - rewrite Hidx by (rewrite Nat.sub_0_r; reflexivity).
    rewrite (Hva p (c / 2) Hp Hq). reflexivity.
  - rewrite Hidx by (apply odd_half; rewrite <- Nat.negb_even, E; reflexivity).
    rewrite (Hva p (c / 2) Hp Hq). reflexivity.
Qed.

Lemma build_table_zero L :
  PositionalEncoding.build_table 0 L = Raise ZeroDivisionError.
Proof. reflexivity. Qed.

Lemma build_table_odd d L :
  Nat.odd d = true -> 3 <= d ->
  PositionalEncoding.build_table d L = Raise RuntimeError.
Proof.
  intros O Hd.
  assert (Hd0 : d <> 0) by lia.
  unfold PositionalEncoding.build_table.
  destruct (position_times_div_term d L Hd0) as (pos & a & Hpos & Ha & Hsa & Hva).
  rewrite Hpos. cbn [rbind]. unfold py_truediv.
  destruct (Nat.eqb_spec d 0) as [?|_]; [contradiction|]. cbn [rbind].
  rewrite Ha. cbn [rbind].
  destruct (setitem_cols_ok 0 2 (zeros [L; d]) (tmap fsin a) L d ((d + 1) / 2))
    as (r1 & Hr1 & Hs1 & Hv1);
    [reflexivity | exact Hsa | left; symmetry; apply slice_count_even |].
  rewrite Hr1. cbn [rbind].
  apply Nat.odd_spec in O. destruct O as [k Hk].
  assert (H1 : (d + 1) / 2 = k + 1).
  { subst d. replace (2 * k + 1 + 1) with ((k + 1) * 2) by lia.
    apply Nat.div_mul. lia. }
  assert (H2 : d / 2 = k).
  { subst d. symmetry. apply Nat.div_unique with 1; lia. }
  rewrite (setitem_cols_raise 1 2 r1 (tmap fcos a) L d ((d + 1) / 2));
    [reflexivity | exact Hs1 | exact Hsa | rewrite slice_count_odd; lia | lia].
Qed.

Lemma init_table d L self :
  PositionalEncoding.init d L = Ok self ->
  exists t, PositionalEncoding.build_table d L = Ok t /\
    shape t = [L; d] /\
    shape (PositionalEncoding.pe self) = [1; L; d] /\
    (forall s c, at_ (PositionalEncoding.pe self) [0; s; c] = at_ t [s; c]) /\
    (forall p c, p < L -> c < d ->
       at_ t [p; c] = if Nat.even c then Fin (sin (angle d p (c / 2)))
                      else Fin (cos (angle d p (c / 2)))).
Proof.
  unfold PositionalEncoding.init. intros H.
  assert (Hd : d = 1 \/ (Nat.even d = true /\ d <> 0)).
  { destruct (Nat.eq_dec d 0) as [->|Hd0].
    - rewrite build_table_zero in H. discriminate.
    - destruct (Nat.even d) eqn:E; [right; split; [reflexivity|assumption]|].
      destruct (Nat.eq_dec d 1) as [->|Hd1]; [left; reflexivity|].
      assert (d <> 2) by (intros ->; discriminate).
      rewrite build_table_odd in H; [discriminate| |lia].
      rewrite <- Nat.negb_even, E. reflexivity. }
  destruct (build_table_ok d L Hd) as (t & Ht & Hs & Hv).
  rewrite Ht in H. cbn [rbind] in H. unfold unsqueeze, rank in H.
  rewrite Hs in H. cbn in H. inversion H; subst self; clear H.
  exists t. cbn [PositionalEncoding.pe shape at_].
  split; [exact Ht|]. split; [exact Hs|]. split; [reflexivity|].
  split; [reflexivity|exact Hv].
Qed.

Lemma bshape_rev_batch B S d m :
  bshape_rev [d; S; B] [d; m; 1] =
    if (S =? m) || (S =? 1) || (m =? 1)
    then Some [d; if S =? 1 then m else S; B] else None.
Proof.
  cbn [bshape_rev].
  repeat match goal with
         | |- context [Nat.eqb ?a ?b] => destruct (Nat.eqb_spec a b)
         end; subst; cbn [orb]; try reflexivity; congruence.
Qed.

Lemma tadd_batch (x y : tensor fval) B S d m :
  shape x = [B; S; d] -> shape y = [1; m; d] ->
  tadd x y =
    if (S =? m) || (S =? 1) || (m =? 1) then
      Ok (mkT [B; if S =? 1 then m else S; d]
              (fun idx => fadd (at_ x (bidx [B; S; d] idx))
                               (at_ y (bidx [1; m; d] idx))))
    else Raise RuntimeError.
Proof.
  intros Hx Hy. unfold tadd, tzip, broadcast_shapes. rewrite Hx, Hy.
  cbn [rev app]. rewrite bshape_rev_batch.
  destruct ((S =? m) || (S =? 1) || (m =? 1)); reflexivity.
Qed.

(** ** Properties of PositionalEncoding *)

(** C3 (amended).  For every [max_seq_length] and every [d_model] that is 1
    or even and positive, the constructor succeeds, the table it builds has
    shape [[max_seq_length, d_model]], the registered buffer is that table
    under one more leading dimension, and for every position [pos]
    [PE[pos, 2i] = sin(pos / 10000^(2i/d_model))] and
    [PE[pos, 2i+1] = cos(pos / 10000^(2i/d_model))]. *)
Theorem positional_encoding_table (d_model max_seq_length : nat) :
  d_model = 1 \/ (Nat.even d_model = true /\ d_model <> 0) ->
  exists table self,
    PositionalEncoding.build_table d_model max_seq_length = Ok table /\
    PositionalEncoding.init d_model max_seq_length = Ok self /\
    shape table = [max_seq_length; d_model] /\
    shape (PositionalEncoding.pe self) = [1; max_seq_length; d_model] /\
    (forall pos c, at_ (PositionalEncoding.pe self) [0; pos; c]
                   = at_ table [pos; c]) /\
    forall pos i, pos < max_seq_length ->
      (2 * i < d_model ->
       at_ table [pos; 2 * i] =
         Fin (sin (INR pos / Rpower 10000 (INR (2 * i) / INR d_model)))) /\
      (2 * i + 1 < d_model ->
       at_ table [pos; 2 * i + 1] =
         Fin (cos (INR pos / Rpower 10000 (INR (2 * i) / INR d_model)))).
Proof.
  intros Hd.
  assert (Hd0 : d_model <> 0)
    by (destruct Hd as [->|[_ ?]]; [discriminate|assumption]).
  destruct (build_table_ok d_model max_seq_length Hd) as (t & Ht & Hs & Hv).
  exists t. eexists. split; [exact Ht|].
  split; [unfold PositionalEncoding.init; rewrite Ht; cbn [rbind];
          unfold unsqueeze, rank; rewrite Hs; reflexivity|].
  split; [exact Hs|]. split; [reflexivity|]. split; [reflexivity|].
  assert (Hang : forall pos i,
    angle d_model pos i = (INR pos / Rpower 10000 (INR (2 * i) / INR d_model))%R).
  { intros pos i. unfold angle, Rpower. rewrite Nat.mul_1_r, (Nat.mul_comm i 2).
    unfold Rdiv at 2. rewrite <- exp_Ropp. unfold Rdiv. f_equal. f_equal.
    field. apply not_0_INR. exact Hd0. }
  intros pos i Hpos. split; intros Hi.
  - rewrite (Hv pos (2 * i) Hpos Hi).
    replace (Nat.even (2 * i)) with true
      by (symmetry; apply Nat.even_spec; exists i; reflexivity).
    rewrite (Nat.mul_comm 2 i), Nat.div_mul by lia. rewrite Hang.
    rewrite (Nat.mul_comm i 2). reflexivity.
  - rewrite (Hv pos (2 * i + 1) Hpos Hi).
    replace (Nat.even (2 * i + 1)) with false.
    + replace ((2 * i + 1) / 2) with i
        by (apply Nat.div_unique with 1; lia).
      rewrite Hang. reflexivity.
    + symmetry. rewrite <- Nat.negb_odd.
      replace (Nat.odd (2 * i + 1)) with true; [reflexivity|].
      symmetry. apply Nat.odd_spec. exists i. reflexivity.
Qed.

Lemma positional_encoding_table_witness :
  exists table self,
    PositionalEncoding.build_table 4 6 = Ok table /\
    PositionalEncoding.init 4 6 = Ok self /\
    shape table = [6; 4] /\
    at_ table [5; 3] = Fin (cos (INR 5 / Rpower 10000 (INR 2 / INR 4))).
Proof.
  destruct (positional_encoding_table 4 6) as (t & self & H1 & H2 & H3 & _ & _ & H6).
  - right. split; [reflexivity | discriminate].
  - exists t, self. repeat split; try assumption.
    destruct (H6 5 1) as [_ Hc]; [lia|]. apply Hc. lia.
Defined.

(** Counterexample to C3 as the specification states it: for
    [d_model = 3] the constructor raises and no table is built. *)
Lemma positional_encoding_table_counterexample :
  ~ exists table, PositionalEncoding.build_table 3 5 = Ok table.
Proof.
  intros [t Ht]. rewrite build_table_odd in Ht; [discriminate|reflexivity|lia].
Qed.

(** C10 (amended).  For every odd [d_model >= 3] the constructor raises a
    shape error (a RuntimeError): the cosine tensor has
    [ceil(d_model/2)] columns, at least 2, and the slice has
    [floor(d_model/2)]. *)
Theorem positional_encoding_odd_raises (d_model max_seq_length : nat) :
  Nat.odd d_model = true -> 3 <= d_model ->
  PositionalEncoding.init d_model max_seq_length = Raise RuntimeError.
Proof.
  intros O Hd. unfold PositionalEncoding.init.
  rewrite build_table_odd by assumption. reflexivity.
Qed.

Lemma positional_encoding_odd_raises_witness :
  Nat.odd 5 = true /\ 3 <= 5 /\
  PositionalEncoding.init 5 10 = Raise RuntimeError.
Proof.
  split; [reflexivity|]. split; [lia|].
  apply positional_encoding_odd_raises; [reflexivity | lia].
Defined.

(** Counterexample to C10 as first stated: at [d_model = 1] the one column
    of the cosine tensor is broadcast to the empty slice, and the
    constructor returns. *)
Lemma positional_encoding_odd_counterexample :
  Nat.odd 1 = true /\ 1 <= 1 /\
  exists self, PositionalEncoding.init 1 5 = Ok self /\
               shape (PositionalEncoding.pe self) = [1; 5; 1].
Proof.
  split; [reflexivity|]. split; [lia|].
  destruct (build_table_ok 1 5) as (t & Ht & Hs & _); [left; reflexivity|].
  eexists. split.
  - unfold PositionalEncoding.init. rewrite Ht. cbn [rbind].
    unfold unsqueeze, rank. rewrite Hs. reflexivity.
  - reflexivity.
Qed.

(** What [forward] does on a batch of sequences, by the lengths involved. *)
Lemma positional_encoding_forward_cases d L self (x : tensor fval) B S :
  PositionalEncoding.init d L = Ok self ->
  shape x = [B; S; d] ->
  PositionalEncoding.forward self x =
    if (S =? Nat.min S L) || (S =? 1) || (Nat.min S L =? 1) then
      Ok (mkT [B; if S =? 1 then Nat.min S L else S; d]
              (fun idx => fadd (at_ x (bidx [B; S; d] idx))
                               (at_ (PositionalEncoding.pe self)
                                    (bidx [1; Nat.min S L; d] idx))))
    else Raise RuntimeError.
Proof.
  intros Hi Hx. destruct (init_table _ _ _ Hi) as (t & _ & _ & Hs & _).
  unfold PositionalEncoding.forward, size. rewrite Hx. cbn [nth_error rbind].
  rewrite (tadd_batch x (slice_dim1 S (PositionalEncoding.pe self))
                      B S d (Nat.min S L) Hx).
  - reflexivity.
  - unfold slice_dim1. rewrite Hs. reflexivity.
Qed.

Lemma positional_encoding_init_ok d L :
  d = 1 \/ (Nat.even d = true /\ d <> 0) ->
  exists self, PositionalEncoding.init d L = Ok self.
Proof.
  intros Hd. destruct (build_table_ok d L Hd) as (t & Ht & Hs & _).
  unfold PositionalEncoding.init. rewrite Ht. cbn [rbind].
  unfold unsqueeze, rank. rewrite Hs. eexists; reflexivity.
Qed.

(** An input that fits the table gets the table added, row by row. *)
Lemma positional_encoding_forward_fits d L self (x : tensor fval) B S :
  PositionalEncoding.init d L = Ok self ->
  shape x = [B; S; d] -> S <= L ->
  exists r, PositionalEncoding.forward self x = Ok r /\
    shape r = [B; S; d] /\
    forall b s c, b < B -> s < S -> c < d ->
      at_ r [b; s; c] =
        fadd (at_ x [b; s; c]) (at_ (PositionalEncoding.pe self) [0; s; c]).
Proof.
  intros Hi Hx Hle. rewrite (positional_encoding_forward_cases _ _ _ _ _ _ Hi Hx).
  rewrite Nat.min_l by assumption. rewrite Nat.eqb_refl.
  cbn [orb]. eexists. split; [reflexivity|]. split.
  - cbn [shape]. destruct (Nat.eqb_spec S 1); congruence.
  - intros b s c Hb Hs Hc. cbn [at_]. unfold bidx. cbn.
    f_equal; f_equal; eqb_cases; repeat f_equal; lia.
Qed.

(** C9 (amended).  For an instance built with [max_seq_length] and an input
    of shape [[batch, seq_len, d_model]]: if [seq_len <= max_seq_length],
    [forward] returns [x + PE[:seq_len]] broadcast over the batch; if
    [seq_len > max_seq_length], [max_seq_length <> 1] and [seq_len <> 1],
    [forward] raises (the addition cannot broadcast the two shapes). *)
Theorem positional_encoding_forward (d_model max_seq_length : nat)
        (self : PositionalEncoding.t) (x : tensor fval) (batch seq_len : nat) :
  PositionalEncoding.init d_model max_seq_length = Ok self ->
  shape x = [batch; seq_len; d_model] ->
  (seq_len <= max_seq_length ->
   exists r, PositionalEncoding.forward self x = Ok r /\
     shape r = [batch; seq_len; d_model] /\
     forall b s c, b < batch -> s < seq_len -> c < d_model ->
       at_ r [b; s; c] =
         fadd (at_ x [b; s; c]) (at_ (PositionalEncoding.pe self) [0; s; c])) /\
  (max_seq_length < seq_len -> max_seq_length <> 1 -> seq_len <> 1 ->
   PositionalEncoding.forward self x = Raise RuntimeError).
Proof.
  intros Hi Hx. split.
  - intros Hle. exact (positional_encoding_forward_fits _ _ _ _ _ _ Hi Hx Hle).
  - intros Hlt H1 HS.
    rewrite (positional_encoding_forward_cases _ _ _ _ _ _ Hi Hx).
    rewrite Nat.min_r by lia.
    destruct (Nat.eqb_spec seq_len max_seq_length); [lia|].
    destruct (Nat.eqb_spec seq_len 1); [lia|].
    destruct (Nat.eqb_spec max_seq_length 1); [lia|]. reflexivity.
Qed.

Lemma positional_encoding_forward_witness :
  exists self,
    PositionalEncoding.init 2 3 = Ok self /\
    (exists r, PositionalEncoding.forward self (zeros [1; 3; 2]) = Ok r /\
               shape r = [1; 3; 2]) /\
    PositionalEncoding.forward self (zeros [1; 4; 2]) = Raise RuntimeError.
Proof.
  destruct (positional_encoding_init_ok 2 3) as (self & Hi);
    [right; split; [reflexivity | discriminate]|].
  exists self. split; [exact Hi|]. split.
  - destruct (positional_encoding_forward 2 3 self (zeros [1; 3; 2]) 1 3 Hi eq_refl)
      as [H _].
    destruct (H (le_n 3)) as (r & Hr & Hs & _). exists r. split; assumption.
  - destruct (positional_encoding_forward 2 3 self (zeros [1; 4; 2]) 1 4 Hi eq_refl)
      as [_ H].
    apply H; lia.
Defined.

(** Counterexample to C9 as the specification states it: with
    [max_seq_length = 1] an input of two positions is accepted, the single
    row of the table being broadcast to both positions. *)
Lemma positional_encoding_forward_counterexample :
  exists self r,
    PositionalEncoding.init 2 1 = Ok self /\
    shape (zeros [1; 2; 2]) = [1; 2; 2] /\ 1 < 2 /\
    PositionalEncoding.forward self (zeros [1; 2; 2]) = Ok r /\
    shape r = [1; 2; 2].
Proof.
  destruct (build_table_ok 2 1) as (t & Ht & Hs & _);
    [right; split; [reflexivity | discriminate]|].
  assert (Hi : PositionalEncoding.init 2 1
               = Ok (PositionalEncoding.mk
                       (mkT [1; 1; 2] (fun idx => at_ t (firstn 0 idx ++ skipn 1 idx))))).
  { unfold PositionalEncoding.init. rewrite Ht. cbn [rbind].
    unfold unsqueeze, rank. rewrite Hs. reflexivity. }
  eexists. eexists. split; [exact Hi|]. split; [reflexivity|]. split; [lia|].
  rewrite (positional_encoding_forward_cases 2 1 _ (zeros [1; 2; 2]) 1 2 Hi eq_refl).
  split; reflexivity.
Qed.

(** ** MultiHeadAttention.__init__ *)

Lemma dropout_init_ok p :
  (0 <= p <= 1)%R -> Dropout.init p = Ok (Dropout.mk p true).
Proof.
  intros [H0 H1]. unfold Dropout.init.
  destruct (Rlt_dec p 0); [lra|]. destruct (Rlt_dec 1 p); [lra|]. reflexivity.
Qed.

(** C8 (amended).  For a dropout probability in [[0, 1]], constructing
    [MultiHeadAttention] raises if and only if the test
    [d_model % num_heads == 0] of the constructor does not hold, that is,
    for [num_heads <> 0], if and only if [num_heads] does not divide
    [d_model] (for [num_heads = 0] the test itself raises).  The exception
    is the constructor's own result, so no instance exists on which
    [forward] could be called. *)
Theorem multi_head_attention_init_raises_iff
        (d_model num_heads : nat) (dropout : R) (vq vk vv vo : init_values) :
  (0 <= dropout <= 1)%R ->
  ((exists e, MultiHeadAttention.init d_model num_heads dropout vq vk vv vo
              = Raise e)
   <-> py_mod d_model num_heads <> Ok 0) /\
  (num_heads <> 0 ->
   ((exists e, MultiHeadAttention.init d_model num_heads dropout vq vk vv vo
               = Raise e)
    <-> ~ Nat.divide num_heads d_model)).
Proof.
  intros Hp.
  assert (Hiff : (exists e, MultiHeadAttention.init d_model num_heads dropout
                              vq vk vv vo = Raise e)
                 <-> py_mod d_model num_heads <> Ok 0).
  { unfold MultiHeadAttention.init, py_mod.
    destruct (Nat.eqb_spec num_heads 0) as [Hh|Hh]; cbn [rbind].
    - split; [discriminate | intros _; eexists; reflexivity].
    - destruct (Nat.eqb_spec (d_model mod num_heads) 0) as [Hm|Hm].
      + rewrite (dropout_init_ok _ Hp). cbn [rbind]. rewrite Hm. split.
        * intros [e He]. discriminate.
        * intros H. contradiction H. reflexivity.
      + split; [intros _ H; inversion H; contradiction
               | intros _; eexists; reflexivity]. }
  split; [exact Hiff|]. intros Hh. rewrite Hiff. unfold py_mod.
  destruct (Nat.eqb_spec num_heads 0) as [?|_]; [contradiction|].
  split.
  - intros Hne [k Hk]. apply Hne. f_equal. subst d_model.
    apply Nat.Div0.mod_mul.
  - intros Hnd E. inversion E as [Hm]. apply Hnd.
    apply Nat.Div0.mod_divides in Hm. destruct Hm as [c Hc].
    exists c. rewrite Hc. apply Nat.mul_comm.
Qed.

Lemma multi_head_attention_init_raises_iff_witness :
  (0 <= 1 / 10 <= 1)%R /\
  (exists e, MultiHeadAttention.init 512 7 (1 / 10)
               zero_init zero_init zero_init zero_init = Raise e) /\
  ~ (exists e, MultiHeadAttention.init 512 8 (1 / 10)
                 zero_init zero_init zero_init zero_init = Raise e).
Proof.
  assert (H : (0 <= 1 / 10 <= 1)%R) by lra.
  split; [exact H|]. split.
  - destruct (multi_head_attention_init_raises_iff 512 7 (1 / 10)
                zero_init zero_init zero_init zero_init H) as [[_ Hr] _].
    apply Hr. intros E. vm_compute in E. discriminate.
  - destruct (multi_head_attention_init_raises_iff 512 8 (1 / 10)
                zero_init zero_init zero_init zero_init H) as [[Hr _] _].
    intros He. apply (Hr He). reflexivity.
Defined.

(** With the dropout probability 1.5 the constructor raises although
    [num_heads = 2] divides [d_model = 8]: the [ValueError] of
    [nn.Dropout]. *)
Lemma multi_head_attention_init_counterexample :
  MultiHeadAttention.init 8 2 (3 / 2) zero_init zero_init zero_init zero_init
    = Raise ValueError /\
  Nat.divide 2 8 /\
  ~ ((exists e, MultiHeadAttention.init 8 2 (3 / 2)
                  zero_init zero_init zero_init zero_init = Raise e)
     <-> ~ Nat.divide 2 8).
Proof.
  assert (Hr : MultiHeadAttention.init 8 2 (3 / 2)
                 zero_init zero_init zero_init zero_init = Raise ValueError).
  { unfold MultiHeadAttention.init, py_mod. cbn [Nat.eqb rbind].
    change (8 mod 2) with 0. cbn [Nat.eqb]. unfold Dropout.init.
    destruct (Rlt_dec (3 / 2) 0); [lra|].
    destruct (Rlt_dec 1 (3 / 2)); [reflexivity | lra]. }
  assert (Hd : Nat.divide 2 8) by (exists 4; reflexivity).
  split; [exact Hr|]. split; [exact Hd|].
  intros [Hraise _]. apply Hraise; [|exact Hd].
  exists ValueError. exact Hr.
Qed.


(** ** Transformer.create_mask *)

Lemma to_bool_one_minus_one : to_bool (fsub (Fin 1) (Fin 1)) = false.
Proof.
  cbn. match goal with
       | |- context [Req_dec_T ?a ?b] => destruct (Req_dec_T a b) as [_|H]
       end; [reflexivity|].
  exfalso. apply H. lra.
Qed.

Lemma to_bool_one_minus_zero : to_bool (fsub (Fin 1) (Fin 0)) = true.
Proof.
  cbn. match goal with
       | |- context [Req_dec_T ?a ?b] => destruct (Req_dec_T a b) as [H|_]
       end; [|reflexivity].
  exfalso. lra.
Qed.

(** The causal mask: key [j] is visible from query [i] when [j <= i]. *)
Lemma nopeak_mask_at T a i j :
  at_ (Transformer.nopeak_mask T) [a; i; j] = (j <=? i).
Proof.
  unfold Transformer.nopeak_mask, tmap, triu, ones, full. cbn [at_ last2 rev app].
  destruct (Nat.leb_spec (i + 1) j); destruct (Nat.leb_spec j i); try lia.
  - apply to_bool_one_minus_one.
  - apply to_bool_one_minus_zero.
Qed.

Lemma bshape_rev_tgt B T :
  bshape_rev [T; 1; 1; B] [T; T; 1] = Some [T; T; 1; B].
Proof.
  cbn [bshape_rev].
  repeat match goal with
         | |- context [Nat.eqb ?a ?b] => destruct (Nat.eqb_spec a b)
         end; subst; try reflexivity; congruence.
Qed.

Lemma create_mask_spec (src tgt : tensor Z) Bs S Bt T :
  shape src = [Bs; S] -> shape tgt = [Bt; T] ->
  exists src_mask tgt_mask,
    Transformer.create_mask src tgt = Ok (src_mask, tgt_mask) /\
    shape src_mask = [Bs; 1; 1; S] /\
    shape tgt_mask = [Bt; 1; T; T] /\
    (forall b j, at_ src_mask [b; 0; 0; j] = negb (at_ src [b; j] =? 0)%Z) /\
    (forall b i j, b < Bt -> i < T -> j < T ->
       at_ tgt_mask [b; 0; i; j] = negb (at_ tgt [b; j] =? 0)%Z && (j <=? i)).
Proof.
  intros Hs Ht. unfold Transformer.create_mask.
  unfold unsqueeze, rank, ne0, tmap. cbn [shape]. rewrite Hs, Ht.
  cbn [length Nat.leb rbind firstn skipn app shape].
  unfold size. rewrite Ht. cbn [nth_error rbind].
  unfold tand, tzip, broadcast_shapes.
  replace (shape (Transformer.nopeak_mask T)) with [1; T; T] by reflexivity.
  cbn [shape rev app]. rewrite bshape_rev_tgt. cbn [option_map rev app rbind].
  eexists. eexists. split; [reflexivity|].
  split; [reflexivity|]. split; [reflexivity|]. split.
  - intros b j. reflexivity.
  - intros b i j Hb Hi Hj. cbn [at_]. unfold bidx.
    cbn [length Nat.sub skipn zip_with].
    replace (if T =? 1 then 0 else i) with i by (eqb_cases; lia).
    replace (if T =? 1 then 0 else j) with j by (eqb_cases; lia).
    replace (if Bt =? 1 then 0 else b) with b by (eqb_cases; lia).
    cbn [Nat.eqb firstn skipn app]. rewrite nopeak_mask_at. reflexivity.
Qed.

(** C2.  On integer tensors [src] of shape [[batch, src_len]] and [tgt] of
    shape [[batch, tgt_len]], [create_mask] returns [src_mask] with
    [src_mask[b,0,0,j]] true iff [src[b,j] != 0], and [tgt_mask] with
    [tgt_mask[b,0,i,j]] the conjunction of [tgt[b,j] != 0] and [j <= i]. *)
Theorem create_mask_correct (src tgt : tensor Z) (batch src_len tgt_len : nat) :
  shape src = [batch; src_len] ->
  shape tgt = [batch; tgt_len] ->
  exists src_mask tgt_mask,
    Transformer.create_mask src tgt = Ok (src_mask, tgt_mask) /\
    shape src_mask = [batch; 1; 1; src_len] /\
    shape tgt_mask = [batch; 1; tgt_len; tgt_len] /\
    (forall b j, b < batch -> j < src_len ->
       (at_ src_mask [b; 0; 0; j] = true <-> at_ src [b; j] <> 0%Z)) /\
    (forall b i j, b < batch -> i < tgt_len -> j < tgt_len ->
       (at_ tgt_mask [b; 0; i; j] = true <->
        at_ tgt [b; j] <> 0%Z /\ j <= i)).
Proof.
  intros Hs Ht.
  destruct (create_mask_spec src tgt _ _ _ _ Hs Ht)
    as (sm & tm & Hc & Hss & Hst & Hsv & Htv).
  exists sm, tm. split; [exact Hc|]. split; [exact Hss|]. split; [exact Hst|].
  split.
  - intros b j Hb Hj. rewrite Hsv.
    destruct (Z.eqb_spec (at_ src [b; j]) 0) as [E|E]; cbn [negb]; split.
    + discriminate.
    + intros Hz. contradiction.
    + intros _. exact E.
    + reflexivity.
  - intros b i j Hb Hi Hj. rewrite (Htv b i j Hb Hi Hj).
    destruct (Z.eqb_spec (at_ tgt [b; j]) 0) as [E|E];
      destruct (Nat.leb_spec j i) as [Hle|Hgt]; cbn [negb andb]; split;
      try discriminate; try reflexivity; try tauto;
      intros [_ Hle']; lia.
Qed.

Lemma create_mask_correct_witness :
  exists src_mask tgt_mask,
    Transformer.create_mask (tokens2 1 0) (tokens2 3 0) = Ok (src_mask, tgt_mask) /\
    shape src_mask = [1; 1; 1; 2] /\
    shape tgt_mask = [1; 1; 2; 2] /\
    at_ src_mask [0; 0; 0; 0] = true /\
    (at_ tgt_mask [0; 0; 0; 1] = true <-> 0%Z <> 0%Z /\ 1 <= 0).
Proof.
  destruct (create_mask_correct (tokens2 1 0) (tokens2 3 0) 1 2 2 eq_refl eq_refl)
    as (sm & tm & Hc & Hss & Hst & Hsv & Htv).
  exists sm, tm. split; [exact Hc|]. split; [exact Hss|]. split; [exact Hst|].
  split.
  - apply (Hsv 0 0); [lia | lia | discriminate].
  - apply (Htv 0 0 1); lia.
Defined.

(** ** Sums of float values *)

Lemma finite_Fin v : finite v -> exists r, v = Fin r.
Proof. destruct v; simpl; intros H; try contradiction. eexists; reflexivity. Qed.

Lemma fsum_ext n f g :
  (forall j, j < n -> f j = g j) -> fsum n f = fsum n g.
Proof.
  induction n as [|n IH]; intros H; simpl; [reflexivity|].
  rewrite IH, H by (intros; try apply H; lia). reflexivity.
Qed.

Lemma fsum_Fin n g : fsum n (fun j => Fin (g j)) = Fin (rsum n g).
Proof. induction n as [|n IH]; simpl; [reflexivity|]. rewrite IH. reflexivity. Qed.

Lemma fsum_Fin_ext n f g :
  (forall j, j < n -> f j = Fin (g j)) -> fsum n f = Fin (rsum n g).
Proof. intros H. rewrite <- fsum_Fin. apply fsum_ext, H. Qed.

Lemma fsum_finite n f :
  (forall j, j < n -> finite (f j)) -> finite (fsum n f).
Proof.
  induction n as [|n IH]; intros H; simpl; [exact I|].
  assert (H1 : finite (fsum n f)) by (apply IH; intros; apply H; lia).
  assert (H2 : finite (f n)) by (apply H; lia).
  destruct (fsum n f), (f n); simpl in *; tauto.
Qed.

Lemma rsum_nonneg n g :
  (forall j, j < n -> (0 <= g j)%R) -> (0 <= rsum n g)%R.
Proof.
  induction n as [|n IH]; intros H; simpl; [lra|].
  assert (0 <= rsum n g)%R by (apply IH; intros; apply H; lia).
  assert (0 <= g n)%R by (apply H; lia). lra.
Qed.

Lemma rsum_pos n g j0 :
  (forall j, j < n -> (0 <= g j)%R) -> j0 < n -> (0 < g j0)%R ->
  (0 < rsum n g)%R.
Proof.
  induction n as [|n IH]; intros H Hj Hp; [lia|]. simpl.
  assert (H0 : (0 <= rsum n g)%R) by (apply rsum_nonneg; intros; apply H; lia).
  assert (Hn : (0 <= g n)%R) by (apply H; lia).
  destruct (Nat.eq_dec j0 n) as [->|Hne]; [lra|].
  assert (0 < rsum n g)%R by (apply IH; [intros; apply H; lia | lia | exact Hp]).
  lra.
Qed.

Lemma rsum_scale n g c : rsum n (fun j => g j * c)%R = (rsum n g * c)%R.
Proof. induction n as [|n IH]; simpl; [lra|]. rewrite IH. lra. Qed.

(** ** Softmax of a row of scores *)

Lemma fmaxn_score_like n row :
  (forall j, j < n -> score_like (row j)) -> score_like (fmaxn n row).
Proof.
  induction n as [|n IH]; intros H; simpl; [exact I|].
  assert (H1 : score_like (fmaxn n row)) by (apply IH; intros; apply H; lia).
  assert (H2 : score_like (row n)) by (apply H; lia).
  destruct (fmaxn n row), (row n); simpl in *; tauto.
Qed.

Lemma fmaxn_finite n row j0 :
  (forall j, j < n -> score_like (row j)) -> j0 < n -> finite (row j0) ->
  finite (fmaxn n row).
Proof.
  induction n as [|n IH]; intros H Hj Hf; [lia|]. simpl.
  assert (H1 : score_like (fmaxn n row))
    by (apply fmaxn_score_like; intros; apply H; lia).
  assert (H2 : score_like (row n)) by (apply H; lia).
  destruct (Nat.eq_dec j0 n) as [->|Hne].
  - destruct (fmaxn n row), (row n); simpl in *; tauto.
  - assert (finite (fmaxn n row))
      by (apply IH; [intros; apply H; lia | lia | exact Hf]).
    destruct (fmaxn n row), (row n); simpl in *; tauto.
Qed.

Lemma fmaxn_all_ninf n row :
  (forall j, j < n -> row j = NInf) -> fmaxn n row = NInf.
Proof.
  induction n as [|n IH]; intros H; simpl; [reflexivity|].
  rewrite IH, H by (intros; try apply H; lia). reflexivity.
Qed.

Lemma shifted_exp_correct m v :
  score_like v -> fexp (fsub v (Fin m)) = Fin (shifted_exp m v).
Proof. destruct v; simpl; intros H; try contradiction; reflexivity. Qed.

Lemma shifted_exp_nonneg m v : (0 <= shifted_exp m v)%R.
Proof.
  destruct v; simpl; try lra. left. apply exp_pos.
Qed.

Lemma shifted_exp_pos m v : finite v -> (0 < shifted_exp m v)%R.
Proof. destruct v; simpl; intros H; try contradiction. apply exp_pos. Qed.

(** On a row of scores with at least one finite entry, softmax is the
    quotient of the shifted exponentials. *)
Lemma softmax_row_value n row j0 :
  (forall j, j < n -> score_like (row j)) -> j0 < n -> finite (row j0) ->
  exists m,
    fmaxn n row = Fin m /\
    (0 < rsum n (fun j => shifted_exp m (row j)))%R /\
    forall j, j < n ->
      softmax_row n row j =
        Fin (shifted_exp m (row j) / rsum n (fun j' => shifted_exp m (row j'))).
Proof.
  intros Hs Hj Hf.
  destruct (finite_Fin _ (fmaxn_finite n row j0 Hs Hj Hf)) as [m Hm].
  exists m. split; [exact Hm|].
  assert (Hpos : (0 < rsum n (fun j => shifted_exp m (row j)))%R).
  { apply rsum_pos with j0; [|exact Hj|apply shifted_exp_pos, Hf].
    intros. apply shifted_exp_nonneg. }
  split; [exact Hpos|].
  intros j Hjn. unfold softmax_row. rewrite Hm.
  rewrite (fsum_Fin_ext n _ (fun j' => shifted_exp m (row j')))
    by (intros; apply shifted_exp_correct, Hs; assumption).
  rewrite shifted_exp_correct by (apply Hs; assumption).
  cbn [fdiv]. destruct (Req_dec_T _ 0) as [E|_]; [lra | reflexivity].
Qed.

(** ... its entries add up to one ... *)
Lemma softmax_row_sum n row j0 :
  (forall j, j < n -> score_like (row j)) -> j0 < n -> finite (row j0) ->
  fsum n (softmax_row n row) = Fin 1.
Proof.
  intros Hs Hj Hf.
  destruct (softmax_row_value n row j0 Hs Hj Hf) as (m & _ & Hpos & Hv).
  rewrite (fsum_Fin_ext n _ _ Hv). f_equal.
  unfold Rdiv. rewrite rsum_scale. field. lra.
Qed.

(** ... and an entry at minus infinity gets the weight zero. *)
Lemma softmax_row_masked n row j0 j :
  (forall j, j < n -> score_like (row j)) -> j0 < n -> finite (row j0) ->
  j < n -> row j = NInf ->
  softmax_row n row j = Fin 0.
Proof.
  intros Hs Hj Hf Hjn Hninf.
  destruct (softmax_row_value n row j0 Hs Hj Hf) as (m & _ & Hpos & Hv).
  rewrite (Hv j Hjn), Hninf. simpl. f_equal. field. lra.
Qed.

Lemma softmax_row_finite n row j0 j :
  (forall j, j < n -> score_like (row j)) -> j0 < n -> finite (row j0) ->
  j < n -> finite (softmax_row n row j).
Proof.
  intros Hs Hj Hf Hjn.
  destruct (softmax_row_value n row j0 Hs Hj Hf) as (m & _ & _ & Hv).
  rewrite (Hv j Hjn). exact I.
Qed.

(** A row with no finite entry comes out as NaN. *)
Lemma softmax_row_all_masked n row j :
  (forall j, j < n -> row j = NInf) -> j < n ->
  softmax_row n row j = NaN.
Proof.
  intros H Hj. unfold softmax_row. rewrite (fmaxn_all_ninf n row H), (H j Hj).
  reflexivity.
Qed.

Lemma softmax_row_ext n row row' j :
  (forall j, j < n -> row j = row' j) -> j < n ->
  softmax_row n row j = softmax_row n row' j.
Proof.
  intros H Hj. unfold softmax_row.
  assert (Hm : fmaxn n row = fmaxn n row').
  { clear Hj. induction n as [|n IH]; simpl; [reflexivity|].
    rewrite IH, H by (intros; try apply H; lia). reflexivity. }
  rewrite Hm, (H j Hj). f_equal. apply fsum_ext. intros j' Hj'.
  rewrite (H j' Hj'). reflexivity.
Qed.

(** On rows of scores torch's softmax is the softmax of the textbooks. *)
Lemma softmax_row_textbook n row j :
  (forall j, j < n -> score_like (row j)) -> j < n ->
  softmax_row n row j = textbook_softmax n row j.
Proof.
  intros Hs Hj.
  assert (Hcase : (exists j0, j0 < n /\ finite (row j0)) \/
                  (forall j, j < n -> row j = NInf)).
  { clear Hj. induction n as [|n IH]; [right; intros; lia|].
    destruct IH as [(j0 & H0 & Hf)|Hall]; [intros; apply Hs; lia | |].
    - left. exists j0. split; [lia | exact Hf].
    - assert (Hn := Hs n (Nat.lt_succ_diag_r n)).
      destruct (row n) eqn:E; simpl in Hn; try contradiction.
      + left. exists n. split; [lia|]. rewrite E. exact I.
      + right. intros k Hk. destruct (Nat.eq_dec k n) as [->|?];
          [exact E | apply Hall; lia]. }
  destruct Hcase as [(j0 & H0 & Hf)|Hall].
  - destruct (softmax_row_value n row j0 Hs H0 Hf) as (m & _ & Hpos & Hv).
    rewrite (Hv j Hj). unfold textbook_softmax.
    assert (He : forall j, j < n ->
              fexp (row j) = Fin (shifted_exp m (row j) * exp m)).
    { intros k Hk. specialize (Hs k Hk).
      destruct (row k); simpl in *; try contradiction.
      - rewrite <- exp_plus. do 2 f_equal. lra.
      - f_equal. lra. }
    rewrite (fsum_Fin_ext n _ _ He), (He j Hj). rewrite rsum_scale.
    cbn [fdiv]. pose proof (exp_pos m) as Hem.
    destruct (Req_dec_T _ 0) as [E|_]; [nra|]. f_equal. field. lra.
  - rewrite softmax_row_all_masked by assumption. unfold textbook_softmax.
    rewrite (fsum_Fin_ext n _ (fun _ => 0%R))
      by (intros k Hk; rewrite (Hall k Hk); reflexivity).
    rewrite (Hall j Hj). cbn [fexp fdiv].
    assert (Hz : rsum n (fun _ => 0%R) = 0%R).
    { clear. induction n as [|n IH]; simpl; [reflexivity|]. rewrite IH. lra. }
    rewrite Hz. destruct (Req_dec_T 0 0) as [_|E]; [|contradiction].
    unfold scale_inf. destruct (Req_dec_T 0 0) as [_|E]; [reflexivity|contradiction].
Qed.

(** ** The tensor operations of attention on tensors of rank 4 *)

Lemma bshape_rev_refl s : bshape_rev s s = Some s.
Proof.
  induction s as [|a s IH]; simpl; [reflexivity|].
  rewrite IH, Nat.eqb_refl. reflexivity.
Qed.

Lemma bshape_rev_expand a b : expand_rev a b = true -> bshape_rev b a = Some b.
Proof.
  revert b. induction a as [|x a IH]; intros b H.
  - destruct b; reflexivity.
  - destruct b as [|y b]; [discriminate|]. simpl in H.
    apply andb_prop in H. destruct H as [H1 H2].
    simpl. rewrite (IH b H2).
    destruct (Nat.eqb_spec y x) as [->|Hne]; [reflexivity|].
    apply orb_prop in H1. destruct H1 as [H1|H1]; apply Nat.eqb_eq in H1.
    + congruence.
    + subst x. destruct (Nat.eqb_spec y 1); [congruence | reflexivity].
Qed.

Lemma broadcast_shapes_expand ms s :
  expandable ms s = true -> broadcast_shapes s ms = Some s.
Proof.
  intros H. unfold broadcast_shapes. unfold expandable in H.
  rewrite (bshape_rev_expand _ _ H). simpl. rewrite rev_involutive. reflexivity.
Qed.

Lemma in_range_4 B H q k b h i j :
  b < B -> h < H -> i < q -> j < k -> in_range [B; H; q; k] [b; h; i; j].
Proof. intros. repeat constructor; assumption. Qed.

Lemma in_range_3 B L d b i c :
  b < B -> i < L -> c < d -> in_range [B; L; d] [b; i; c].
Proof. intros. repeat constructor; assumption. Qed.

Lemma transpose_last2_rank4 {A : Type} (x : tensor A) B H n d :
  shape x = [B; H; n; d] ->
  transpose (-2) (-1) x =
    Ok (mkT [B; H; d; n] (fun idx => at_ x (swap 2 3 idx))).
Proof. intros Hx. unfold transpose, rank. rewrite Hx. reflexivity. Qed.

Lemma transpose_1_2_rank4 {A : Type} (x : tensor A) B H n d :
  shape x = [B; H; n; d] ->
  transpose 1 2 x =
    Ok (mkT [B; n; H; d] (fun idx => at_ x (swap 1 2 idx))).
Proof. intros Hx. unfold transpose, rank. rewrite Hx. reflexivity. Qed.

Lemma matmul_rank4 (x y : tensor fval) B H m k n :
  shape x = [B; H; m; k] -> shape y = [B; H; k; n] ->
  exists z, matmul x y = Ok z /\ shape z = [B; H; m; n] /\
    forall b h i j, b < B -> h < H -> i < m -> j < n ->
      at_ z [b; h; i; j] =
        fsum k (fun c => fmul (at_ x [b; h; i; c]) (at_ y [b; h; c; j])).
Proof.
  intros Hx Hy. unfold matmul. rewrite Hx, Hy. cbn [rev app].
  rewrite Nat.eqb_refl, bshape_rev_refl. eexists. split; [reflexivity|].
  split; [reflexivity|]. intros b h i j Hb Hh Hi Hj. cbn [at_].
  cbn [last2 rev app batch_of length Nat.sub firstn].
  assert (Hbi : bidx [B; H] [b; h] = [b; h])
    by (apply bidx_in_range; repeat constructor; assumption).
  rewrite Hbi. reflexivity.
Qed.

Lemma masked_fill_expand (x : tensor fval) (m : tensor bool) (v : fval) :
  expandable (shape m) (shape x) = true ->
  exists z, masked_fill x m v = Ok z /\ shape z = shape x /\
    forall idx, in_range (shape x) idx ->
      at_ z idx = if at_ m (bidx (shape m) idx) then v else at_ x idx.
Proof.
  intros H. unfold masked_fill, tzip. rewrite (broadcast_shapes_expand _ _ H).
  eexists. split; [reflexivity|]. split; [reflexivity|].
  intros idx Hidx. cbn [at_]. rewrite (bidx_in_range _ _ Hidx). reflexivity.
Qed.

(** The local [scores] of [scaled_dot_product_attention]. *)
Lemma scores_spec (self : MultiHeadAttention.t) (Q K : tensor fval)
      (mask : option (tensor bool)) B H q k d :
  shape Q = [B; H; q; d] -> shape K = [B; H; k; d] ->
  broadcastable_to mask [B; H; q; k] ->
  exists s, MultiHeadAttention.scores self Q K mask = Ok s /\
    shape s = [B; H; q; k] /\
    forall b h i j, b < B -> h < H -> i < q -> j < k ->
      at_ s [b; h; i; j] =
        if visible mask b h i j then
          fdiv (fsum d (fun c => fmul (at_ Q [b; h; i; c]) (at_ K [b; h; j; c])))
               (Fin (sqrt (INR (MultiHeadAttention.d_k self))))
        else NInf.
Proof.
  intros HQ HK Hm. unfold MultiHeadAttention.scores.
  rewrite (transpose_last2_rank4 K B H k d HK). cbn [rbind].
  destruct (matmul_rank4 Q (mkT [B; H; d; k] (fun idx => at_ K (swap 2 3 idx)))
              B H q d k HQ eq_refl) as (z & Hz & Hsz & Hvz).
  rewrite Hz. cbn [rbind]. destruct mask as [m|].
  - simpl in Hm.
    destruct (masked_fill_expand
                (tmap (fun v => fdiv v (Fin (sqrt (INR (MultiHeadAttention.d_k self))))) z)
                (eq0 m) NInf) as (s & Hs & Hss & Hvs).
    { unfold tmap, eq0. cbn [shape]. rewrite Hsz. exact Hm. }
    rewrite Hs. exists s. split; [reflexivity|].
    split; [rewrite Hss; exact Hsz|].
    intros b h i j Hb Hh Hi Hj. rewrite Hvs.
    + unfold eq0, tmap, visible. cbn [at_ shape]. rewrite (Hvz b h i j Hb Hh Hi Hj).
      cbn [at_]. destruct (at_ m _); reflexivity.
    + unfold tmap. cbn [shape]. rewrite Hsz. apply in_range_4; assumption.
  - eexists. split; [reflexivity|]. split; [exact Hsz|].
    intros b h i j Hb Hh Hi Hj. unfold tmap, visible. cbn [at_].
    rewrite (Hvz b h i j Hb Hh Hi Hj). reflexivity.
Qed.

(** The local [attention_weights] of [scaled_dot_product_attention]: row
    [(b, h, i)] is the softmax of the scores of that row. *)
Lemma attention_weights_spec (self : MultiHeadAttention.t) (Q K : tensor fval)
      (mask : option (tensor bool)) B H q k :
  shape Q = [B; H; q; MultiHeadAttention.d_k self] ->
  shape K = [B; H; k; MultiHeadAttention.d_k self] ->
  broadcastable_to mask [B; H; q; k] ->
  exists w, MultiHeadAttention.attention_weights self Q K mask = Ok w /\
    shape w = [B; H; q; k] /\
    forall b h i j, b < B -> h < H -> i < q -> j < k ->
      at_ w [b; h; i; j] =
        softmax_row k (spec_score (MultiHeadAttention.d_k self) Q K mask b h i) j.
Proof.
  intros HQ HK Hm. unfold MultiHeadAttention.attention_weights.
  destruct (scores_spec self Q K mask B H q k _ HQ HK Hm) as (s & Hs & Hss & Hvs).
  rewrite Hs. cbn [rbind]. eexists. split; [reflexivity|].
  split; [exact Hss|].
  intros b h i j Hb Hh Hi Hj. unfold softmax. cbn [at_]. rewrite Hss.
  cbn [last init_of last_of length Nat.sub firstn app].
  apply softmax_row_ext; [|exact Hj].
  intros j' Hj'. rewrite (Hvs b h i j' Hb Hh Hi Hj'). reflexivity.
Qed.

(** The attention weights are a function of the scores. *)
Lemma attention_weights_of_scores (self : MultiHeadAttention.t)
      (Q K : tensor fval) (mask : option (tensor bool)) :
  MultiHeadAttention.attention_weights self Q K mask =
  rbind (raw_scores self Q K) (fun s => weights_of_scores s mask).
Proof.
  unfold MultiHeadAttention.attention_weights, MultiHeadAttention.scores,
    raw_scores, weights_of_scores.
  destruct (transpose (-2) (-1) K) as [kt|e]; [|reflexivity]. cbn [rbind].
  destruct (matmul Q kt) as [s|e]; reflexivity.
Qed.

Lemma weights_of_scores_spec (s : tensor fval) (mask : option (tensor bool))
      B H q k :
  shape s = [B; H; q; k] -> broadcastable_to mask [B; H; q; k] ->
  exists w, weights_of_scores s mask = Ok w /\
    shape w = [B; H; q; k] /\
    forall b h i j, b < B -> h < H -> i < q -> j < k ->
      at_ w [b; h; i; j] = softmax_row k (masked_score s mask b h i) j.
Proof.
  intros Hs Hm. unfold weights_of_scores.
  assert (Hms : exists s', (match mask with
                            | Some m => masked_fill s (eq0 m) NInf
                            | None => Ok s
                            end) = Ok s' /\ shape s' = [B; H; q; k] /\
            forall b h i j, b < B -> h < H -> i < q -> j < k ->
              at_ s' [b; h; i; j] = masked_score s mask b h i j).
  { destruct mask as [m|].
    - simpl in Hm.
      destruct (masked_fill_expand s (eq0 m) NInf) as (s' & Hs' & Hss & Hvs).
      { unfold eq0, tmap. cbn [shape]. rewrite Hs. exact Hm. }
      exists s'. split; [exact Hs'|]. split; [rewrite Hss; exact Hs|].
      intros b h i j Hb Hh Hi Hj. rewrite Hvs.
      + unfold eq0, tmap, masked_score, visible. cbn [at_ shape].
        destruct (at_ m _); reflexivity.
      + rewrite Hs. apply in_range_4; assumption.
    - exists s. split; [reflexivity|]. split; [exact Hs|].
      intros b h i j _ _ _ _. reflexivity. }
  destruct Hms as (s' & -> & Hss & Hvs). cbn [rbind].
  eexists. split; [reflexivity|]. split; [exact Hss|].
  intros b h i j Hb Hh Hi Hj. unfold softmax. cbn [at_]. rewrite Hss.
  cbn [last init_of last_of length Nat.sub firstn app].
  apply softmax_row_ext; [|exact Hj].
  intros j' Hj'. apply (Hvs b h i j' Hb Hh Hi Hj').
Qed.

(** A row whose valid scores are finite holds finite numbers and minus
    infinities only. *)
Lemma masked_score_cases (s : tensor fval) (mask : option (tensor bool))
      k b h i :
  finite_valid_scores s mask k b h i ->
  forall j, j < k ->
    score_like (masked_score s mask b h i j) /\
    (visible mask b h i j = true -> finite (masked_score s mask b h i j)) /\
    (visible mask b h i j = false -> masked_score s mask b h i j = NInf).
Proof.
  intros Hf j Hj. unfold masked_score.
  destruct (visible mask b h i j) eqn:E.
  - pose proof (Hf j Hj E) as F.
    destruct (at_ s [b; h; i; j]); simpl in F; try contradiction.
    split; [exact I|]. split; [intros _; exact I | discriminate].
  - split; [exact I|]. split; [discriminate | reflexivity].
Qed.

Lemma raw_scores_spec (self : MultiHeadAttention.t) (Q K : tensor fval)
      B H q k d :
  shape Q = [B; H; q; d] -> shape K = [B; H; k; d] ->
  exists s, raw_scores self Q K = Ok s /\ shape s = [B; H; q; k] /\
    forall b h i j, b < B -> h < H -> i < q -> j < k ->
      at_ s [b; h; i; j] =
        fdiv (fsum d (fun c => fmul (at_ Q [b; h; i; c]) (at_ K [b; h; j; c])))
             (Fin (sqrt (INR (MultiHeadAttention.d_k self)))).
Proof.
  intros HQ HK.
  destruct (scores_spec self Q K None B H q k d HQ HK I) as (s & Hs & Hss & Hvs).
  exists s. split; [exact Hs|]. split; [exact Hss|]. exact Hvs.
Qed.

(** The weights of a query row, from its scores. *)
Lemma attention_weights_by_scores (self : MultiHeadAttention.t)
      (Q K : tensor fval) (mask : option (tensor bool)) B H q k :
  shape Q = [B; H; q; MultiHeadAttention.d_k self] ->
  shape K = [B; H; k; MultiHeadAttention.d_k self] ->
  broadcastable_to mask [B; H; q; k] ->
  exists s w,
    raw_scores self Q K = Ok s /\ shape s = [B; H; q; k] /\
    weights_of_scores s mask = Ok w /\
    MultiHeadAttention.attention_weights self Q K mask = Ok w.
Proof.
  intros HQ HK Hm.
  destruct (raw_scores_spec self Q K B H q k _ HQ HK) as (s & Hs & Hss & _).
  destruct (weights_of_scores_spec s mask B H q k Hss Hm) as (w & Hw & _).
  exists s, w. split; [exact Hs|]. split; [exact Hss|]. split; [exact Hw|].
  rewrite attention_weights_of_scores, Hs. exact Hw.
Qed.

(** ** Properties of scaled_dot_product_attention *)

Lemma sqrt_INR_neq_0 d : d <> 0 -> sqrt (INR d) <> 0%R.
Proof.
  intros Hd. apply Rgt_not_eq. apply sqrt_lt_R0. apply lt_0_INR. lia.
Qed.

Lemma spec_score_score_like d (Q K : tensor fval) mask B H q k b h i j :
  shape Q = [B; H; q; d] -> shape K = [B; H; k; d] ->
  d <> 0 -> finite_tensor Q -> finite_tensor K ->
  b < B -> h < H -> i < q -> j < k ->
  score_like (spec_score d Q K mask b h i j) /\
  (visible mask b h i j = true -> finite (spec_score d Q K mask b h i j)) /\
  (visible mask b h i j = false -> spec_score d Q K mask b h i j = NInf).
Proof.
  intros HQ HK Hd FQ FK Hb Hh Hi Hj. unfold spec_score.
  destruct (visible mask b h i j);
    [|split; [exact I|split; [discriminate | reflexivity]]].
  assert (Hf : finite (fsum d (fun c =>
                 fmul (at_ Q [b; h; i; c]) (at_ K [b; h; j; c])))).
  { apply fsum_finite. intros c Hc.
    assert (F1 : finite (at_ Q [b; h; i; c]))
      by (apply FQ; rewrite HQ; apply in_range_4; assumption).
    assert (F2 : finite (at_ K [b; h; j; c]))
      by (apply FK; rewrite HK; apply in_range_4; assumption).
    destruct (at_ Q [b; h; i; c]), (at_ K [b; h; j; c]); simpl in *; tauto. }
  destruct (finite_Fin _ Hf) as [r ->]. cbn [fdiv].
  destruct (Req_dec_T _ 0) as [E|_]; [exfalso; exact (sqrt_INR_neq_0 d Hd E)|].
  split; [exact I|]. split; [intros _; exact I | discriminate].
Qed.

(** C6 (amended).  The attention weights are the softmax of the masked
    scores, whatever [Q] and [K] gave the scores.  In every query row whose
    mask row has at least one valid key and whose scores at the valid keys
    are finite numbers (neither NaN nor an infinity), the attention weights
    add up to 1 along the key dimension (exactly so, the arithmetic of the
    softmax being that of the reals). *)
Theorem attention_weights_sum_to_one (self : MultiHeadAttention.t)
        (mask : option (tensor bool)) (batch heads q_len k_len : nat) :
  broadcastable_to mask [batch; heads; q_len; k_len] ->
  (forall Q K,
     shape Q = [batch; heads; q_len; MultiHeadAttention.d_k self] ->
     shape K = [batch; heads; k_len; MultiHeadAttention.d_k self] ->
     exists scores w,
       raw_scores self Q K = Ok scores /\
       shape scores = [batch; heads; q_len; k_len] /\
       weights_of_scores scores mask = Ok w /\
       MultiHeadAttention.attention_weights self Q K mask = Ok w) /\
  (forall scores, shape scores = [batch; heads; q_len; k_len] ->
     exists w, weights_of_scores scores mask = Ok w /\
       shape w = [batch; heads; q_len; k_len] /\
       forall b h i, b < batch -> h < heads -> i < q_len ->
         has_valid_key mask k_len b h i ->
         finite_valid_scores scores mask k_len b h i ->
         fsum k_len (fun j => at_ w [b; h; i; j]) = Fin 1).
Proof.
  intros Hm. split.
  - intros Q K HQ HK.
    exact (attention_weights_by_scores self Q K mask _ _ _ _ HQ HK Hm).
  - intros s Hs.
    destruct (weights_of_scores_spec s mask _ _ _ _ Hs Hm) as (w & Hw & Hsw & Hvw).
    exists w. split; [exact Hw|]. split; [exact Hsw|].
    intros b h i Hb Hh Hi (j0 & Hj0 & Hvis) Hfin.
    rewrite (fsum_ext k_len _ (softmax_row k_len (masked_score s mask b h i)))
      by (intros j Hj; apply Hvw; assumption).
    apply softmax_row_sum with j0; [|exact Hj0|].
    + intros j Hj. apply (masked_score_cases s mask k_len b h i Hfin j Hj).
    + apply (masked_score_cases s mask k_len b h i Hfin j0 Hj0). exact Hvis.
Qed.

Lemma finite_zeros s : finite_tensor (zeros s).
Proof. intros idx _. exact I. Qed.

Lemma attention_weights_sum_to_one_witness :
  (exists scores w,
     raw_scores unit_attention (zeros [1; 1; 2; 1]) (zeros [1; 1; 3; 1])
       = Ok scores /\
     MultiHeadAttention.attention_weights unit_attention
       (zeros [1; 1; 2; 1]) (zeros [1; 1; 3; 1]) None = Ok w /\
     weights_of_scores scores None = Ok w) /\
  (exists w,
     weights_of_scores (zeros [1; 1; 2; 3]) None = Ok w /\
     fsum 3 (fun j => at_ w [0; 0; 1; j]) = Fin 1).
Proof.
  destruct (attention_weights_sum_to_one unit_attention None 1 1 2 3 I)
    as [Hlink Hsum].
  split.
  - destruct (Hlink (zeros [1; 1; 2; 1]) (zeros [1; 1; 3; 1]) eq_refl eq_refl)
      as (s & w & Hs & _ & Hw & Hatt).
    exists s, w. split; [exact Hs|]. split; [exact Hatt | exact Hw].
  - destruct (Hsum (zeros [1; 1; 2; 3]) eq_refl) as (w & Hw & _ & Hone).
    exists w. split; [exact Hw|]. apply Hone; try lia.
    + exists 0. split; [lia | reflexivity].
    + intros j _ _. exact I.
Defined.

(** A NaN in [Q] makes the scores of its row NaN: the row has valid keys,
    and its weights do not add up to 1. *)
Lemma attention_weights_sum_to_one_counterexample :
  exists w,
    MultiHeadAttention.attention_weights unit_attention
      (full [1; 1; 1; 1] NaN) (zeros [1; 1; 1; 1]) None = Ok w /\
    has_valid_key None 1 0 0 0 /\
    fsum 1 (fun j => at_ w [0; 0; 0; j]) = NaN /\
    fsum 1 (fun j => at_ w [0; 0; 0; j]) <> Fin 1.
Proof.
  destruct (attention_weights_spec unit_attention
              (full [1; 1; 1; 1] NaN) (zeros [1; 1; 1; 1]) None 1 1 1 1
              eq_refl eq_refl I) as (w & Hw & _ & Hvw).
  exists w. split; [exact Hw|].
  split; [exists 0; split; [lia | reflexivity]|].
  assert (Hnan : fsum 1 (fun j => at_ w [0; 0; 0; j]) = NaN).
  { cbn [fsum]. rewrite (Hvw 0 0 0 0) by lia. reflexivity. }
  split; [exact Hnan|]. rewrite Hnan. discriminate.
Qed.

(** ** The masks inside attention *)

Lemma tgt_mask_broadcastable (tm : tensor bool) B H T :
  shape tm = [B; 1; T; T] -> broadcastable_to (Some tm) [B; H; T; T].
Proof.
  intros Hs. unfold broadcastable_to, expandable. rewrite Hs.
  cbn [rev app expand_rev]. rewrite !Nat.eqb_refl, ?orb_true_r. reflexivity.
Qed.

Lemma src_mask_broadcastable (sm : tensor bool) B H q S :
  shape sm = [B; 1; 1; S] -> broadcastable_to (Some sm) [B; H; q; S].
Proof.
  intros Hs. unfold broadcastable_to, expandable. rewrite Hs.
  cbn [rev app expand_rev]. rewrite !Nat.eqb_refl, ?orb_true_r. reflexivity.
Qed.

Lemma visible_tgt_mask (tm : tensor bool) B T b h i j :
  shape tm = [B; 1; T; T] -> b < B -> i < T -> j < T ->
  visible (Some tm) b h i j = at_ tm [b; 0; i; j].
Proof.
  intros Hs Hb Hi Hj. unfold visible, bidx. rewrite Hs.
  cbn [length Nat.sub skipn zip_with Nat.eqb].
  f_equal. f_equal; [eqb_cases; lia|]. f_equal.
  f_equal; [eqb_cases; lia|]. f_equal. eqb_cases; lia.
Qed.

Lemma visible_src_mask (sm : tensor bool) B S b h i j :
  shape sm = [B; 1; 1; S] -> b < B -> j < S ->
  visible (Some sm) b h i j = at_ sm [b; 0; 0; j].
Proof.
  intros Hs Hb Hj. unfold visible, bidx. rewrite Hs.
  cbn [length Nat.sub skipn zip_with Nat.eqb].
  f_equal. f_equal; [eqb_cases; lia|]. do 2 f_equal.
  f_equal. eqb_cases; lia.
Qed.

(** C4 (amended).  Under the [tgt_mask] of [create_mask] the attention
    weights are the softmax of the masked scores, whatever [Q] and [K] gave
    the scores.  The weight from query position [i] to a later key position
    [j] is exactly 0, before and after dropout, in every row [i] that has a
    valid key, that is, some [tgt[b, j0]] with [j0 <= i] that is not the pad
    index, and whose scores at its valid keys are finite numbers (neither
    NaN nor an infinity). *)
Theorem causal_weights_zero (self : MultiHeadAttention.t)
        (src tgt : tensor Z) (src_mask tgt_mask : tensor bool) (g : rng)
        (batch heads src_len tgt_len : nat) :
  shape src = [batch; src_len] ->
  shape tgt = [batch; tgt_len] ->
  Transformer.create_mask src tgt = Ok (src_mask, tgt_mask) ->
  (forall Q K,
     shape Q = [batch; heads; tgt_len; MultiHeadAttention.d_k self] ->
     shape K = [batch; heads; tgt_len; MultiHeadAttention.d_k self] ->
     exists scores w,
       raw_scores self Q K = Ok scores /\
       shape scores = [batch; heads; tgt_len; tgt_len] /\
       weights_of_scores scores (Some tgt_mask) = Ok w /\
       MultiHeadAttention.attention_weights self Q K (Some tgt_mask) = Ok w) /\
  (forall scores, shape scores = [batch; heads; tgt_len; tgt_len] ->
     exists w, weights_of_scores scores (Some tgt_mask) = Ok w /\
       forall b h i j, b < batch -> h < heads -> i < j -> j < tgt_len ->
         (exists j0, j0 <= i /\ at_ tgt [b; j0] <> 0%Z) ->
         (forall j', j' <= i -> at_ tgt [b; j'] <> 0%Z ->
            finite (at_ scores [b; h; i; j'])) ->
         at_ w [b; h; i; j] = Fin 0 /\
         spec_dropout (MultiHeadAttention.dropout self) g [b; h; i; j]
                      (at_ w [b; h; i; j]) = Fin 0).
Proof.
  intros Hsrc Htgt Hcm.
  destruct (create_mask_spec src tgt _ _ _ _ Hsrc Htgt)
    as (sm & tm & Hc & _ & Hst & _ & Htv).
  rewrite Hcm in Hc. inversion Hc; subst sm tm; clear Hc.
  pose proof (tgt_mask_broadcastable tgt_mask batch heads tgt_len Hst) as Hm.
  split.
  - intros Q K HQ HK.
    exact (attention_weights_by_scores self Q K (Some tgt_mask) _ _ _ _
             HQ HK Hm).
  - intros s Hs.
    destruct (weights_of_scores_spec s (Some tgt_mask) _ _ _ _ Hs Hm)
      as (w & Hw & _ & Hvw).
    exists w. split; [exact Hw|].
    intros b h i j Hb Hh Hij Hj (j0 & Hj0 & Hnz) Hfin.
    assert (Hi : i < tgt_len) by lia.
    assert (Hvis : forall j', j' < tgt_len ->
              visible (Some tgt_mask) b h i j'
              = negb (at_ tgt [b; j'] =? 0)%Z && (j' <=? i)).
    { intros j' Hj'.
      rewrite (visible_tgt_mask tgt_mask batch tgt_len b h i j' Hst) by lia.
      apply Htv; lia. }
    assert (Hrow : finite_valid_scores s (Some tgt_mask) tgt_len b h i).
    { intros j' Hj' Hv. rewrite (Hvis j' Hj') in Hv.
      apply andb_prop in Hv. destruct Hv as [Hne Hle].
      apply Hfin; [apply Nat.leb_le; exact Hle|].
      intros E. rewrite E in Hne. discriminate. }
    assert (Hz : at_ w [b; h; i; j] = Fin 0).
    { rewrite (Hvw b h i j Hb Hh Hi Hj).
      apply softmax_row_masked with j0; [| lia | | exact Hj |].
      - intros j' Hj'. apply (masked_score_cases s _ tgt_len b h i Hrow j' Hj').
      - apply (masked_score_cases s _ tgt_len b h i Hrow j0); [lia|].
        rewrite Hvis by lia. apply andb_true_intro. split.
        + destruct (Z.eqb_spec (at_ tgt [b; j0]) 0); [contradiction|reflexivity].
        + apply Nat.leb_le. exact Hj0.
      - apply (masked_score_cases s _ tgt_len b h i Hrow j Hj).
        rewrite Hvis by lia. apply andb_false_intro2. apply Nat.leb_gt. exact Hij. }
    split; [exact Hz|]. rewrite Hz. unfold spec_dropout.
    destruct (Dropout.training _); [|reflexivity].
    cbn [fmul]. f_equal. lra.
Qed.

Lemma causal_weights_zero_witness :
  exists sm tm scores w w',
    Transformer.create_mask (tokens2 1 2) (tokens2 3 0) = Ok (sm, tm) /\
    raw_scores unit_attention (zeros [1; 1; 2; 1]) (zeros [1; 1; 2; 1])
      = Ok scores /\
    MultiHeadAttention.attention_weights unit_attention
      (zeros [1; 1; 2; 1]) (zeros [1; 1; 2; 1]) (Some tm) = Ok w /\
    weights_of_scores scores (Some tm) = Ok w /\
    weights_of_scores (zeros [1; 1; 2; 2]) (Some tm) = Ok w' /\
    at_ w' [0; 0; 0; 1] = Fin 0.
Proof.
  destruct (create_mask_spec (tokens2 1 2) (tokens2 3 0) 1 2 1 2 eq_refl eq_refl)
    as (sm & tm & Hc & _).
  destruct (causal_weights_zero unit_attention (tokens2 1 2) (tokens2 3 0)
              sm tm keep_all 1 1 2 2 eq_refl eq_refl Hc) as [Hlink Hzero].
  destruct (Hlink (zeros [1; 1; 2; 1]) (zeros [1; 1; 2; 1]) eq_refl eq_refl)
    as (s & w & Hs & _ & Hw & Hatt).
  destruct (Hzero (zeros [1; 1; 2; 2]) eq_refl) as (w' & Hw' & Hz).
  exists sm, tm, s, w, w'. split; [exact Hc|]. split; [exact Hs|].
  split; [exact Hatt|]. split; [exact Hw|]. split; [exact Hw'|].
  apply (Hz 0 0 0 1); try lia.
  - exists 0. split; [lia | discriminate].
  - intros j' _ _. exact I.
Defined.

Lemma causal_weights_zero_counterexample :
  exists sm tm w,
    Transformer.create_mask (tokens2 0 0) (tokens2 0 0) = Ok (sm, tm) /\
    MultiHeadAttention.attention_weights unit_attention
      (zeros [1; 1; 2; 1]) (zeros [1; 1; 2; 1]) (Some tm) = Ok w /\
    0 < 1 /\ at_ w [0; 0; 0; 1] = NaN /\ at_ w [0; 0; 0; 1] <> Fin 0.
Proof.
  destruct (create_mask_spec (tokens2 0 0) (tokens2 0 0) 1 2 1 2 eq_refl eq_refl)
    as (sm & tm & Hc & _ & Hst & _ & Htv).
  pose proof (tgt_mask_broadcastable tm 1 1 2 Hst) as Hm.
  destruct (attention_weights_spec unit_attention
              (zeros [1; 1; 2; 1]) (zeros [1; 1; 2; 1]) (Some tm) 1 1 2 2
              eq_refl eq_refl Hm) as (w & Hw & _ & Hvw).
  exists sm, tm, w. split; [exact Hc|]. split; [exact Hw|]. split; [lia|].
  assert (Hnan : at_ w [0; 0; 0; 1] = NaN).
  { rewrite Hvw by lia. apply softmax_row_all_masked; [|lia].
    intros j Hj. unfold spec_score.
    rewrite (visible_tgt_mask tm 1 2 0 0 0 j Hst) by lia.
    rewrite Htv by lia.
    destruct j as [|[|j]]; [reflexivity | reflexivity | lia]. }
  split; [exact Hnan|]. rewrite Hnan. discriminate.
Qed.

(** The scores of the valid keys have to be numbers: one NaN among them
    makes the whole row NaN, the later key positions included. *)
Remark causal_weights_nan_score :
  exists sm tm w,
    Transformer.create_mask (tokens2 1 2) (tokens2 3 4) = Ok (sm, tm) /\
    weights_of_scores (full [1; 1; 2; 2] NaN) (Some tm) = Ok w /\
    at_ (tokens2 3 4) [0; 0] <> 0%Z /\
    at_ w [0; 0; 0; 1] = NaN.
Proof.
  destruct (create_mask_spec (tokens2 1 2) (tokens2 3 4) 1 2 1 2 eq_refl eq_refl)
    as (sm & tm & Hc & _ & Hst & _ & Htv).
  pose proof (tgt_mask_broadcastable tm 1 1 2 Hst) as Hm.
  destruct (weights_of_scores_spec (full [1; 1; 2; 2] NaN) (Some tm) 1 1 2 2
              eq_refl Hm) as (w & Hw & _ & Hvw).
  exists sm, tm, w. split; [exact Hc|]. split; [exact Hw|].
  split; [discriminate|].
  rewrite Hvw by lia. unfold softmax_row, masked_score.
  rewrite !(visible_tgt_mask tm 1 2 0 0 0 _ Hst) by lia.
  cbn [fmaxn fsum].
  rewrite !(visible_tgt_mask tm 1 2 0 0 0 _ Hst) by lia.
  rewrite !Htv by lia. reflexivity.
Qed.

(** C7 (amended).  Under the masks of [create_mask], a query row of the
    encoder self-attention or of the cross-attention (mask [src_mask]) has a
    valid key iff the source row holds a token other than the pad index; a
    query row [i] of the decoder self-attention (mask [tgt_mask]) has one iff
    some [tgt[b, j]] with [j <= i] is not the pad index; the causal mask by
    itself always lets a position attend to itself. *)
Theorem valid_keys_under_masks (src tgt : tensor Z)
        (src_mask tgt_mask : tensor bool) (batch src_len tgt_len : nat) :
  shape src = [batch; src_len] ->
  shape tgt = [batch; tgt_len] ->
  Transformer.create_mask src tgt = Ok (src_mask, tgt_mask) ->
  (forall b h i, b < batch ->
     (has_valid_key (Some src_mask) src_len b h i <->
      exists j, j < src_len /\ at_ src [b; j] <> 0%Z)) /\
  (forall b h i, b < batch -> i < tgt_len ->
     (has_valid_key (Some tgt_mask) tgt_len b h i <->
      exists j, j <= i /\ at_ tgt [b; j] <> 0%Z)) /\
  (forall a i, at_ (Transformer.nopeak_mask tgt_len) [a; i; i] = true).
Proof.
  intros Hsrc Htgt Hcm.
  destruct (create_mask_spec src tgt _ _ _ _ Hsrc Htgt)
    as (sm & tm & Hc & Hss & Hst & Hsv & Htv).
  rewrite Hcm in Hc. inversion Hc; subst sm tm; clear Hc.
  split; [|split].
  - intros b h i Hb. unfold has_valid_key. split.
    + intros (j & Hj & Hv). exists j. split; [exact Hj|].
      rewrite (visible_src_mask src_mask batch src_len b h i j Hss Hb Hj) in Hv.
      rewrite Hsv in Hv. intros E. rewrite E in Hv. discriminate.
    + intros (j & Hj & Hnz). exists j. split; [exact Hj|].
      rewrite (visible_src_mask src_mask batch src_len b h i j Hss Hb Hj).
      rewrite Hsv. destruct (Z.eqb_spec (at_ src [b; j]) 0);
        [contradiction|reflexivity].
  - intros b h i Hb Hi. unfold has_valid_key. split.
    + intros (j & Hj & Hv).
      rewrite (visible_tgt_mask tgt_mask batch tgt_len b h i j Hst Hb Hi Hj) in Hv.
      rewrite Htv in Hv by assumption. apply andb_prop in Hv.
      destruct Hv as [Hnz Hle]. exists j. split; [apply Nat.leb_le, Hle|].
      intros E. rewrite E in Hnz. discriminate.
    + intros (j & Hj & Hnz). exists j. split; [lia|].
      rewrite (visible_tgt_mask tgt_mask batch tgt_len b h i j Hst Hb Hi)
        by lia.
      rewrite Htv by lia. apply andb_true_intro. split.
      * destruct (Z.eqb_spec (at_ tgt [b; j]) 0); [contradiction|reflexivity].
      * apply Nat.leb_le. exact Hj.
  - intros a i. rewrite nopeak_mask_at. apply Nat.leb_refl.
Qed.

Lemma valid_keys_under_masks_witness :
  exists sm tm,
    Transformer.create_mask (tokens2 1 0) (tokens2 3 0) = Ok (sm, tm) /\
    has_valid_key (Some sm) 2 0 0 1 /\ has_valid_key (Some tm) 2 0 0 1.
Proof.
  destruct (create_mask_spec (tokens2 1 0) (tokens2 3 0) 1 2 1 2 eq_refl eq_refl)
    as (sm & tm & Hc & _).
  destruct (valid_keys_under_masks (tokens2 1 0) (tokens2 3 0) sm tm 1 2 2
              eq_refl eq_refl Hc) as (Hs & Ht & _).
  exists sm, tm. split; [exact Hc|]. split.
  - apply Hs; [lia|]. exists 0. split; [lia | discriminate].
  - apply Ht; [lia | lia |]. exists 0. split; [lia | discriminate].
Defined.

(** Counterexample to C7 as the specification states it: for a source row
    and a target row of padding only, no query row of any attention has a
    valid key. *)
Lemma valid_keys_under_masks_counterexample :
  exists sm tm,
    Transformer.create_mask (tokens2 0 0) (tokens2 0 0) = Ok (sm, tm) /\
    ~ has_valid_key (Some tm) 2 0 0 0 /\
    ~ has_valid_key (Some sm) 2 0 0 0.
Proof.
  destruct (create_mask_spec (tokens2 0 0) (tokens2 0 0) 1 2 1 2 eq_refl eq_refl)
    as (sm & tm & Hc & Hss & Hst & Hsv & Htv).
  exists sm, tm. split; [exact Hc|]. split.
  - intros (j & Hj & Hv).
    rewrite (visible_tgt_mask tm 1 2 0 0 0 j Hst) in Hv by lia.
    rewrite Htv in Hv by lia.
    destruct j as [|[|j]]; [discriminate | discriminate | lia].
  - intros (j & Hj & Hv).
    rewrite (visible_src_mask sm 1 2 0 0 0 j Hss) in Hv by lia.
    rewrite Hsv in Hv.
    destruct j as [|[|j]]; [discriminate | discriminate | lia].
Qed.

(** ** Computations with the generator *)

Lemma mbind_lift_ok {A B : Type} (r : result A) (a : A) (k : A -> M B) g :
  r = Ok a -> mbind (lift r) k g = k a g.
Proof. intros ->. reflexivity. Qed.



Lemma dropout_forward_next (drop : Dropout.t) (x : tensor fval) (g : rng) :
  exists y, Dropout.forward drop x g = Ok (y, Dropout.next drop g) /\
    shape y = shape x /\
    forall idx, at_ y idx = spec_dropout drop g idx (at_ x idx).
Proof.
  unfold Dropout.forward, Dropout.next, spec_dropout.
  destruct (Dropout.training drop).
  - eexists. split; [reflexivity|]. split; reflexivity.
  - exists x. repeat split; reflexivity.
Qed.

(** What [scaled_dot_product_attention] returns. *)
Lemma sdpa_spec (self : MultiHeadAttention.t) (Q K V : tensor fval)
      (mask : option (tensor bool)) (g : rng) B H q k :
  shape Q = [B; H; q; MultiHeadAttention.d_k self] ->
  shape K = [B; H; k; MultiHeadAttention.d_k self] ->
  shape V = [B; H; k; MultiHeadAttention.d_k self] ->
  broadcastable_to mask [B; H; q; k] ->
  exists out,
    MultiHeadAttention.scaled_dot_product_attention self Q K V mask g
      = Ok (out, Dropout.next (MultiHeadAttention.dropout self) g) /\
    shape out = [B; H; q; MultiHeadAttention.d_k self] /\
    forall b h i c, b < B -> h < H -> i < q ->
       c < MultiHeadAttention.d_k self ->
       at_ out [b; h; i; c] =
         spec_attention (MultiHeadAttention.d_k self) k
           (MultiHeadAttention.dropout self) g Q K V mask b h i c.
Proof.
  intros HQ HK HV Hm.
  destruct (attention_weights_spec self Q K mask _ _ _ _ HQ HK Hm)
    as (w & Hw & Hsw & Hvw).
  destruct (dropout_forward_next (MultiHeadAttention.dropout self) w g)
    as (w' & Hd & Hsd & Hvd).
  destruct (matmul_rank4 w' V B H q k (MultiHeadAttention.d_k self))
    as (out & Ho & Hso & Hvo); [rewrite Hsd; exact Hsw | exact HV |].
  exists out. split.
  - unfold MultiHeadAttention.scaled_dot_product_attention.
    rewrite (mbind_lift_ok _ w _ g Hw). unfold mbind at 1. rewrite Hd.
    unfold lift. rewrite Ho. reflexivity.
  - split; [exact Hso|].
    intros b h i c Hb Hh Hi Hc. rewrite (Hvo b h i c Hb Hh Hi Hc).
    unfold spec_attention. apply fsum_ext. intros j Hj.
    rewrite Hvd, (Hvw b h i j Hb Hh Hi Hj). reflexivity.
Qed.

(** C1.  For [Q], [K], [V] of shapes [[batch, heads, q_len, d_k]],
    [[batch, heads, k_len, d_k]], [[batch, heads, k_len, d_k]] and an optional
    mask broadcastable to [[batch, heads, q_len, k_len]],
    [scaled_dot_product_attention] returns the tensor of shape
    [[batch, heads, q_len, d_k]] whose entries are
    [sum_j dropout(softmax(scores))[b,h,i,j] * V[b,h,j,c]], where
    [scores = Q.K^T / sqrt(d_k)] with minus infinity wherever the mask is 0;
    dropout sits between the softmax and the product with [V] and, in
    evaluation mode, is the identity and leaves the generator untouched.
    For finite [Q] and [K] and [d_k > 0] the softmax of torch is the
    softmax of the textbooks. *)
Theorem scaled_dot_product_attention_correct (self : MultiHeadAttention.t)
        (Q K V : tensor fval) (mask : option (tensor bool)) (g : rng)
        (batch heads q_len k_len : nat) :
  shape Q = [batch; heads; q_len; MultiHeadAttention.d_k self] ->
  shape K = [batch; heads; k_len; MultiHeadAttention.d_k self] ->
  shape V = [batch; heads; k_len; MultiHeadAttention.d_k self] ->
  broadcastable_to mask [batch; heads; q_len; k_len] ->
  exists out g',
    MultiHeadAttention.scaled_dot_product_attention self Q K V mask g
      = Ok (out, g') /\
    shape out = [batch; heads; q_len; MultiHeadAttention.d_k self] /\
    (forall b h i c, b < batch -> h < heads -> i < q_len ->
       c < MultiHeadAttention.d_k self ->
       at_ out [b; h; i; c] =
         spec_attention (MultiHeadAttention.d_k self) k_len
           (MultiHeadAttention.dropout self) g Q K V mask b h i c) /\
    (Dropout.training (MultiHeadAttention.dropout self) = false ->
     g' = g /\
     forall b h i c, b < batch -> h < heads -> i < q_len ->
       c < MultiHeadAttention.d_k self ->
       at_ out [b; h; i; c] =
         fsum k_len (fun j =>
           fmul (softmax_row k_len
                   (spec_score (MultiHeadAttention.d_k self) Q K mask b h i) j)
                (at_ V [b; h; j; c]))) /\
    (MultiHeadAttention.d_k self <> 0 -> finite_tensor Q -> finite_tensor K ->
     forall b h i j, b < batch -> h < heads -> i < q_len -> j < k_len ->
       softmax_row k_len
         (spec_score (MultiHeadAttention.d_k self) Q K mask b h i) j =
       textbook_softmax k_len
         (spec_score (MultiHeadAttention.d_k self) Q K mask b h i) j).
Proof.
  intros HQ HK HV Hm.
  destruct (sdpa_spec self Q K V mask g _ _ _ _ HQ HK HV Hm)
    as (out & Hr & Hso & Hval).
  exists out, (Dropout.next (MultiHeadAttention.dropout self) g).
  split; [exact Hr|]. split; [exact Hso|]. split; [exact Hval|]. split.
  - intros Hev. split; [unfold Dropout.next; rewrite Hev; reflexivity|].
    intros b h i c Hb Hh Hi Hc. rewrite (Hval b h i c Hb Hh Hi Hc).
    unfold spec_attention, spec_dropout. rewrite Hev. reflexivity.
  - intros Hdk FQ FK b h i j Hb Hh Hi Hj.
    apply softmax_row_textbook; [|exact Hj].
    intros j' Hj'.
    apply (spec_score_score_like _ Q K mask _ _ _ _ b h i j'
             HQ HK Hdk FQ FK); assumption.
Qed.

Lemma scaled_dot_product_attention_correct_witness :
  exists out g',
    MultiHeadAttention.scaled_dot_product_attention unit_attention
      (zeros [1; 1; 2; 1]) (zeros [1; 1; 3; 1]) (ones [1; 1; 3; 1]) None keep_all
      = Ok (out, g') /\
    shape out = [1; 1; 2; 1] /\
    at_ out [0; 0; 1; 0] =
      spec_attention 1 3 eval_dropout keep_all
        (zeros [1; 1; 2; 1]) (zeros [1; 1; 3; 1]) (ones [1; 1; 3; 1]) None
        0 0 1 0.
Proof.
  destruct (scaled_dot_product_attention_correct unit_attention
              (zeros [1; 1; 2; 1]) (zeros [1; 1; 3; 1]) (ones [1; 1; 3; 1])
              None keep_all 1 1 2 3 eq_refl eq_refl eq_refl I)
    as (out & g' & Hr & Hs & Hv & _).
  exists out, g'. split; [exact Hr|]. split; [exact Hs|].
  apply (Hv 0 0 1 0); cbn; lia.
Defined.

(** ** The position-wise operations on tensors of rank 3 *)

Lemma linear_spec (W : Linear.t) (x : tensor fval) B S n_in n_out :
  shape x = [B; S; n_in] -> linear_sizes n_in n_out W ->
  exists y, Linear.forward W x = Ok y /\ shape y = [B; S; n_out] /\
    forall b s c, at_ y [b; s; c] =
      Linear.apply_row W (fun k => at_ x [b; s; k]) c.
Proof.
  intros Hx [Hi Ho]. unfold Linear.forward. rewrite Hx. cbn [rev app].
  rewrite Hi, Nat.eqb_refl, Ho. eexists. split; [reflexivity|].
  split; reflexivity.
Qed.

Lemma norm_spec (N : LayerNorm.t) (x : tensor fval) B S d :
  shape x = [B; S; d] -> norm_sizes d N ->
  exists y, LayerNorm.forward N x = Ok y /\ shape y = [B; S; d] /\
    forall b s c, at_ y [b; s; c] =
      LayerNorm.apply_row N d (fun k => at_ x [b; s; k]) c.
Proof.
  intros Hx [Hn _]. unfold LayerNorm.forward. rewrite Hx. cbn [rev app].
  rewrite Hn, Nat.eqb_refl. eexists. split; [reflexivity|].
  split; reflexivity.
Qed.

Lemma tadd_same (x y : tensor fval) B S d :
  shape x = [B; S; d] -> shape y = [B; S; d] ->
  exists z, tadd x y = Ok z /\ shape z = [B; S; d] /\
    forall b s c, b < B -> s < S -> c < d ->
      at_ z [b; s; c] = fadd (at_ x [b; s; c]) (at_ y [b; s; c]).
Proof.
  intros Hx Hy. unfold tadd, tzip, broadcast_shapes. rewrite Hx, Hy.
  rewrite bshape_rev_refl. cbn [option_map]. rewrite rev_involutive.
  eexists. split; [reflexivity|]. split; [reflexivity|].
  intros b s c Hb Hs Hc. cbn [at_].
  rewrite (bidx_in_range [B; S; d] [b; s; c]) by (apply in_range_3; assumption).
  reflexivity.
Qed.

(** ** Splitting into heads and merging them *)

Lemma prod_3 a b c : prod [a; b; c] = a * (b * c).
Proof. unfold prod. cbn [fold_right]. ring. Qed.

Lemma prod_4 a b c d : prod [a; b; c; d] = a * (b * (c * d)).
Proof. unfold prod. cbn [fold_right]. ring. Qed.

Lemma div_mod_pair d q r : r < d -> (q * d + r) / d = q /\ (q * d + r) mod d = r.
Proof.
  intros Hr. split.
  - symmetry. apply Nat.div_unique with r; [exact Hr | ring].
  - symmetry. apply Nat.mod_unique with q; [exact Hr | ring].
Qed.

Lemma unravel_3 B S d b i m :
  i < S -> m < d ->
  unravel [B; S; d] (b * (S * d) + (i * d + m)) = [b; i; m].
Proof.
  intros Hi Hm. cbn [unravel]. unfold prod. cbn [fold_right].
  rewrite !Nat.mul_1_r, Nat.div_1_r.
  assert (Hr : i * d + m < S * d) by nia.
  destruct (div_mod_pair (S * d) b (i * d + m) Hr) as [-> ->].
  destruct (div_mod_pair d i m Hm) as [-> ->]. reflexivity.
Qed.

Lemma unravel_4 B S H dk b i h c :
  i < S -> h < H -> c < dk ->
  unravel [B; S; H; dk] (b * (S * (H * dk)) + (i * (H * dk) + (h * dk + c)))
  = [b; i; h; c].
Proof.
  intros Hi Hh Hc. cbn [unravel]. unfold prod. cbn [fold_right].
  rewrite !Nat.mul_1_r, Nat.div_1_r.
  assert (Hr2 : h * dk + c < H * dk) by nia.
  assert (Hr1 : i * (H * dk) + (h * dk + c) < S * (H * dk)) by nia.
  destruct (div_mod_pair (S * (H * dk)) b _ Hr1) as [-> ->].
  destruct (div_mod_pair (H * dk) i _ Hr2) as [-> ->].
  destruct (div_mod_pair dk h c Hc) as [-> ->]. reflexivity.
Qed.

Lemma ravel_3 B S d b i m :
  ravel [B; S; d] [b; i; m] = b * (S * d) + (i * d + m).
Proof. cbn [ravel]. unfold prod. cbn [fold_right]. ring. Qed.

Lemma ravel_4 B S H dk b i h c :
  ravel [B; S; H; dk] [b; i; h; c]
  = b * (S * (H * dk)) + (i * (H * dk) + (h * dk + c)).
Proof. cbn [ravel]. unfold prod. cbn [fold_right]. ring. Qed.

(** [y.view(batch_size, -1, num_heads, d_k)] on [y] of shape
    [[batch_size, S, num_heads * d_k]]. *)
Lemma view_split {A : Type} (y : tensor A) B S H dk :
  shape y = [B; S; H * dk] -> B <> 0 -> H * dk <> 0 ->
  exists z, view [Some B; None; Some H; Some dk] y = Ok z /\
    shape z = [B; S; H; dk] /\
    forall b i h c, i < S -> h < H -> c < dk ->
      at_ z [b; i; h; c] = at_ y [b; i; h * dk + c].
Proof.
  intros Hy HB Hd. unfold view. rewrite Hy.
  cbn [holes filter length]. unfold known. cbn [map].
  rewrite prod_3, prod_4.
  assert (Hk : B * (1 * (H * dk)) <> 0) by nia.
  assert (Hn : B * (S * (H * dk)) = S * (B * (1 * (H * dk)))) by ring.
  rewrite Hn, Nat.Div0.mod_mul, Nat.div_mul by exact Hk.
  destruct (Nat.eqb_spec (B * (1 * (H * dk))) 0) as [?|_]; [contradiction|].
  cbn [orb negb Nat.eqb]. eexists. split; [reflexivity|].
  split; [reflexivity|].
  intros b i h c Hi Hh Hc. cbn [at_]. rewrite ravel_4.
  rewrite (unravel_3 B S (H * dk) b i (h * dk + c) Hi) by nia. reflexivity.
Qed.

(** [x.view(batch_size, -1, d_model)] on [x] of shape
    [[batch_size, S, num_heads, d_k]]. *)
Lemma view_merge {A : Type} (x : tensor A) B S H dk :
  shape x = [B; S; H; dk] -> B <> 0 -> H * dk <> 0 ->
  exists z, view [Some B; None; Some (H * dk)] x = Ok z /\
    shape z = [B; S; H * dk] /\
    forall b i m, i < S -> m < H * dk ->
      at_ z [b; i; m] = at_ x [b; i; m / dk; m mod dk].
Proof.
  intros Hx HB Hd. unfold view. rewrite Hx.
  cbn [holes filter length]. unfold known. cbn [map].
  rewrite prod_3, prod_4.
  assert (Hk : B * (1 * (H * dk)) <> 0) by nia.
  assert (Hn : B * (S * (H * dk)) = S * (B * (1 * (H * dk)))) by ring.
  rewrite Hn, Nat.Div0.mod_mul, Nat.div_mul by exact Hk.
  destruct (Nat.eqb_spec (B * (1 * (H * dk))) 0) as [?|_]; [contradiction|].
  cbn [orb negb Nat.eqb]. eexists. split; [reflexivity|].
  split; [reflexivity|].
  intros b i m Hi Hm. cbn [at_]. rewrite ravel_3.
  assert (Hdk : dk <> 0) by nia.
  assert (Hdm : m = (m / dk) * dk + m mod dk).
  { rewrite Nat.mul_comm. apply Nat.div_mod_eq. }
  assert (Hh : m / dk < H).
  { apply Nat.Div0.div_lt_upper_bound. nia. }
  assert (Hc : m mod dk < dk) by (apply Nat.mod_upper_bound; exact Hdk).
  rewrite Hdm at 1.
  rewrite (unravel_4 B S H dk b i (m / dk) (m mod dk) Hi Hh Hc). reflexivity.
Qed.

Lemma split_heads_spec (self : MultiHeadAttention.t) (W : Linear.t)
      (x : tensor fval) B S d :
  shape x = [B; S; d] -> linear_sizes d d W ->
  d = MultiHeadAttention.num_heads self * MultiHeadAttention.d_k self ->
  B <> 0 -> d <> 0 ->
  exists y, MultiHeadAttention.split_heads self W B x = Ok y /\
    shape y = [B; MultiHeadAttention.num_heads self; S;
               MultiHeadAttention.d_k self] /\
    forall b h i c,
      h < MultiHeadAttention.num_heads self -> i < S ->
      c < MultiHeadAttention.d_k self ->
      at_ y [b; h; i; c] =
        Linear.apply_row W (fun k => at_ x [b; i; k])
                         (h * MultiHeadAttention.d_k self + c).
Proof.
  intros Hx HW Hd HB Hd0. unfold MultiHeadAttention.split_heads.
  destruct (linear_spec W x B S d d Hx HW) as (y0 & Hy0 & Hs0 & Hv0).
  rewrite Hy0. cbn [rbind]. rewrite Hd in Hs0.
  destruct (view_split y0 B S _ _ Hs0 HB) as (y1 & Hy1 & Hs1 & Hv1);
    [rewrite <- Hd; exact Hd0|].
  rewrite Hy1. cbn [rbind].
  rewrite (transpose_1_2_rank4 y1 _ _ _ _ Hs1).
  eexists. split; [reflexivity|]. split; [reflexivity|].
  intros b h i c Hh Hi Hc. cbn [at_].
  change (swap 1 2 [b; h; i; c]) with [b; i; h; c].
  rewrite (Hv1 b i h c Hi Hh Hc), Hv0. reflexivity.
Qed.

(** ** MultiHeadAttention.forward as self-attention *)

Lemma linear_apply_row_ext (W : Linear.t) row row' o :
  (forall k, k < Linear.in_features W -> row k = row' k) ->
  Linear.apply_row W row o = Linear.apply_row W row' o.
Proof.
  intros H. unfold Linear.apply_row. f_equal. apply fsum_ext.
  intros k Hk. rewrite (H k Hk). reflexivity.
Qed.

Lemma mha_self_spec (A : MultiHeadAttention.t) (x : tensor fval)
      (mask : option (tensor bool)) (g : rng) B S d :
  shape x = [B; S; d] -> attention_sizes d A -> B <> 0 -> d <> 0 ->
  broadcastable_to mask [B; MultiHeadAttention.num_heads A; S; S] ->
  exists y Qh Kh Vh,
    MultiHeadAttention.forward A x x x mask g
      = Ok (y, Dropout.next (MultiHeadAttention.dropout A) g) /\
    shape y = [B; S; d] /\
    (forall b h i c,
       h < MultiHeadAttention.num_heads A -> i < S ->
       c < MultiHeadAttention.d_k A ->
       at_ Qh [b; h; i; c] =
         Linear.apply_row (MultiHeadAttention.W_q A) (fun k => at_ x [b; i; k])
                          (h * MultiHeadAttention.d_k A + c) /\
       at_ Kh [b; h; i; c] =
         Linear.apply_row (MultiHeadAttention.W_k A) (fun k => at_ x [b; i; k])
                          (h * MultiHeadAttention.d_k A + c) /\
       at_ Vh [b; h; i; c] =
         Linear.apply_row (MultiHeadAttention.W_v A) (fun k => at_ x [b; i; k])
                          (h * MultiHeadAttention.d_k A + c)) /\
    forall b i o, b < B -> i < S ->
      at_ y [b; i; o] =
        Linear.apply_row (MultiHeadAttention.W_o A)
          (fun m => spec_attention (MultiHeadAttention.d_k A) S
                      (MultiHeadAttention.dropout A) g Qh Kh Vh mask
                      b (m / MultiHeadAttention.d_k A) i
                      (m mod MultiHeadAttention.d_k A)) o.
Proof.
  intros Hx (Hdm & HH & Hd & Hq & Hk & Hv & Ho) HB Hd0 Hm.
  unfold MultiHeadAttention.forward.
  assert (Hsz : size x 0 = Ok B) by (unfold size; rewrite Hx; reflexivity).
  rewrite (mbind_lift_ok _ B _ g Hsz).
  destruct (split_heads_spec A _ x B S d Hx Hq Hd HB Hd0) as (Qh & HQ & HsQ & HvQ).
  destruct (split_heads_spec A _ x B S d Hx Hk Hd HB Hd0) as (Kh & HK & HsK & HvK).
  destruct (split_heads_spec A _ x B S d Hx Hv Hd HB Hd0) as (Vh & HV & HsV & HvV).
  rewrite (mbind_lift_ok _ Qh _ g HQ), (mbind_lift_ok _ Kh _ g HK),
          (mbind_lift_ok _ Vh _ g HV).
  destruct (sdpa_spec A Qh Kh Vh mask g _ _ _ _ HsQ HsK HsV Hm)
    as (a & Ha & Hsa & Hva).
  unfold mbind at 1. rewrite Ha.
  set (g' := Dropout.next (MultiHeadAttention.dropout A) g).
  pose proof (transpose_1_2_rank4 a _ _ _ _ Hsa) as Ht.
  rewrite (mbind_lift_ok _ _ _ g' Ht).
  destruct (view_merge
              (mkT [B; S; MultiHeadAttention.num_heads A; MultiHeadAttention.d_k A]
                   (fun idx => at_ a (swap 1 2 idx)))
              B S _ _ eq_refl HB) as (mrg & Hmg & Hsm & Hvm);
    [rewrite <- Hd; exact Hd0|].
  rewrite <- Hd in Hmg, Hsm. rewrite Hdm.
  rewrite (mbind_lift_ok _ mrg _ g' Hmg).
  destruct (linear_spec _ mrg B S d d Hsm Ho) as (y & Hy & Hsy & Hvy).
  unfold lift. rewrite Hy.
  exists y, Qh, Kh, Vh. split; [reflexivity|]. split; [exact Hsy|]. split.
  - intros b h i c Hh Hi Hc.
    rewrite (HvQ b h i c Hh Hi Hc), (HvK b h i c Hh Hi Hc),
            (HvV b h i c Hh Hi Hc). repeat split; reflexivity.
  - intros b i o Hb Hi. rewrite Hvy. apply linear_apply_row_ext.
    intros m Hmlt. destruct Ho as [Hin _]. rewrite Hin, Hd in Hmlt.
    rewrite (Hvm b i m Hi Hmlt). cbn [at_].
    change (swap 1 2 [b; i; m / MultiHeadAttention.d_k A;
                      m mod MultiHeadAttention.d_k A])
      with [b; m / MultiHeadAttention.d_k A; i; m mod MultiHeadAttention.d_k A].
    assert (Hdk : MultiHeadAttention.d_k A <> 0) by nia.
    apply Hva; [exact Hb | | exact Hi |].
    + apply Nat.Div0.div_lt_upper_bound. nia.
    + apply Nat.mod_upper_bound. exact Hdk.
Qed.

(** ** Finite rows stay finite *)

Lemma finite_fadd a b : finite a -> finite b -> finite (fadd a b).
Proof. destruct a, b; simpl; tauto. Qed.

Lemma finite_fmul a b : finite a -> finite b -> finite (fmul a b).
Proof. destruct a, b; simpl; tauto. Qed.

Lemma finite_frelu a : finite a -> finite (frelu a).
Proof. destruct a; simpl; tauto. Qed.

Lemma finite_spec_dropout drop g idx a :
  finite a -> finite (spec_dropout drop g idx a).
Proof.
  intros H. unfold spec_dropout. destruct (Dropout.training drop); [|exact H].
  apply finite_fmul; [exact H | exact I].
Qed.

Lemma linear_apply_row_finite (W : Linear.t) row o :
  (forall k, k < Linear.in_features W -> finite (row k)) ->
  finite (Linear.apply_row W row o).
Proof.
  intros H. unfold Linear.apply_row. apply finite_fadd; [|exact I].
  apply fsum_finite. intros k Hk. apply finite_fmul; [apply H, Hk | exact I].
Qed.

(** The real number held by a finite value. *)
Lemma finite_row_reals d (row : nat -> fval) :
  (forall k, k < d -> finite (row k)) ->
  exists r : nat -> R, forall k, k < d -> row k = Fin (r k).
Proof.
  intros H.
  exists (fun k => match row k with Fin x => x | _ => 0%R end).
  intros k Hk. specialize (H k Hk). destruct (row k); simpl in H;
    try contradiction. reflexivity.
Qed.

Lemma norm_apply_row_finite (N : LayerNorm.t) d row c :
  (0 < LayerNorm.eps N)%R ->
  (forall k, k < d -> finite (row k)) -> c < d ->
  finite (LayerNorm.apply_row N d row c).
Proof.
  intros Heps H Hc.
  destruct (finite_row_reals d row H) as [r Hr].
  assert (Hd : INR d <> 0%R) by (apply not_0_INR; lia).
  unfold LayerNorm.apply_row.
  rewrite (fsum_Fin_ext d row r Hr). cbn [fdiv].
  destruct (Req_dec_T (INR d) 0) as [E|_]; [contradiction|].
  set (mean := (rsum d r / INR d)%R).
  rewrite (fsum_Fin_ext d _ (fun k => (r k + - mean) * (r k + - mean))%R)
    by (intros k Hk; rewrite (Hr k Hk); reflexivity).
  cbn [fdiv]. destruct (Req_dec_T (INR d) 0) as [E|_]; [contradiction|].
  set (var := (rsum d (fun k => (r k + - mean) * (r k + - mean)) / INR d)%R).
  assert (Hvar : (0 <= var)%R).
  { unfold var. apply Rmult_le_pos.
    - apply rsum_nonneg. intros k _. cbv beta.
      generalize (r k + - mean)%R. intros t. nra.
    - left. apply Rinv_0_lt_compat. apply lt_0_INR. lia. }
  rewrite (Hr c Hc). cbn [fsub fneg fadd fsqrt].
  destruct (Rlt_dec (var + LayerNorm.eps N) 0) as [E|_]; [lra|].
  cbn [fdiv].
  destruct (Req_dec_T (sqrt (var + LayerNorm.eps N)) 0) as [E|_].
  - exfalso. assert (0 < sqrt (var + LayerNorm.eps N))%R
      by (apply sqrt_lt_R0; lra). lra.
  - exact I.
Qed.

Lemma norm_apply_row_ext (N : LayerNorm.t) d row row' c :
  (forall k, k < d -> row k = row' k) -> c < d ->
  LayerNorm.apply_row N d row c = LayerNorm.apply_row N d row' c.
Proof.
  intros H Hc. unfold LayerNorm.apply_row.
  rewrite (fsum_ext d row row' H), (H c Hc).
  assert (Hv : fsum d (fun k => fmul (fsub (row k) (fdiv (fsum d row') (Fin (INR d))))
                                     (fsub (row k) (fdiv (fsum d row') (Fin (INR d)))))
             = fsum d (fun k => fmul (fsub (row' k) (fdiv (fsum d row') (Fin (INR d))))
                                     (fsub (row' k) (fdiv (fsum d row') (Fin (INR d)))))).
  { apply fsum_ext. intros k Hk. rewrite (H k Hk). reflexivity. }
  rewrite Hv. reflexivity.
Qed.

(** ** One step of the invariant *)

(** A position-wise operation keeps the invariant: [F] computes the output
    row from the input row, reads the input row below [n_in] only, and maps
    finite rows to finite rows. *)
Lemma related_pointwise (F : nat -> nat -> (nat -> fval) -> nat -> fval)
      B S n_in n_out len (x x' y y' : tensor fval) :
  related B S n_in len x x' ->
  shape y = [B; S; n_out] -> shape y' = [B; S; n_out] ->
  (forall b i c, b < B -> i < S -> c < n_out ->
     at_ y [b; i; c] = F b i (fun k => at_ x [b; i; k]) c) ->
  (forall b i c, b < B -> i < S -> c < n_out ->
     at_ y' [b; i; c] = F b i (fun k => at_ x' [b; i; k]) c) ->
  (forall b i row row' c, (forall k, k < n_in -> row k = row' k) -> c < n_out ->
     F b i row c = F b i row' c) ->
  (forall b i row c, (forall k, k < n_in -> finite (row k)) -> c < n_out ->
     finite (F b i row c)) ->
  (forall b, b < B -> len b <= S) ->
  related B S n_out len y y'.
Proof.
  intros (Hsx & Hsx' & Ha & Hf & Hf') Hsy Hsy' Hy Hy' Hext Hfin Hlen.
  split; [exact Hsy|]. split; [exact Hsy'|]. split; [|split].
  - intros b i c Hb Hi Hc. specialize (Hlen b Hb).
    rewrite Hy, Hy' by (try assumption; lia).
    apply Hext; [|exact Hc]. intros k Hk. apply Ha; assumption.
  - intros b i c Hb Hl Hi Hc. rewrite Hy by assumption.
    apply Hfin; [|exact Hc]. intros k Hk. apply Hf; assumption.
  - intros b i c Hb Hl Hi Hc. rewrite Hy' by assumption.
    apply Hfin; [|exact Hc]. intros k Hk. apply Hf'; assumption.
Qed.


(** ** Attention under a padding mask *)

Lemma spec_score_cases dk (Q K : tensor fval) mask b h i j :
  dk <> 0 ->
  (forall c, c < dk -> finite (at_ Q [b; h; i; c])) ->
  (forall c, c < dk -> finite (at_ K [b; h; j; c])) ->
  score_like (spec_score dk Q K mask b h i j) /\
  (visible mask b h i j = true -> finite (spec_score dk Q K mask b h i j)) /\
  (visible mask b h i j = false -> spec_score dk Q K mask b h i j = NInf).
Proof.
  intros Hd FQ FK. unfold spec_score.
  destruct (visible mask b h i j);
    [|split; [exact I|split; [discriminate | reflexivity]]].
  assert (Hf : finite (fsum dk (fun c =>
                 fmul (at_ Q [b; h; i; c]) (at_ K [b; h; j; c])))).
  { apply fsum_finite. intros c Hc. apply finite_fmul; [apply FQ | apply FK];
      exact Hc. }
  destruct (finite_Fin _ Hf) as [r ->]. cbn [fdiv].
  destruct (Req_dec_T _ 0) as [E|_]; [exfalso; exact (sqrt_INR_neq_0 dk Hd E)|].
  split; [exact I|]. split; [intros _; exact I | discriminate].
Qed.

(** A key that gets the weight zero contributes zero, whatever finite value
    it holds. *)
Lemma masked_term drop g idx v :
  finite v -> fmul (spec_dropout drop g idx (Fin 0)) v = Fin 0.
Proof.
  intros H. destruct (finite_Fin v H) as [r ->]. unfold spec_dropout.
  destruct (Dropout.training drop); cbn [fmul]; f_equal; ring.
Qed.

(** One head, one sequence of true length [n]: the output rows are finite,
    and the rows of the real positions do not depend on what the padded
    positions hold. *)
Lemma attention_head_related dk S drop g (Q K V Q' K' V' : tensor fval)
      mask b h n :
  dk <> 0 -> 0 < n -> n <= S ->
  (forall i j, i < S -> j < S -> visible mask b h i j = (j <? n)) ->
  (forall i c, i < S -> c < dk ->
     finite (at_ Q [b; h; i; c]) /\ finite (at_ K [b; h; i; c]) /\
     finite (at_ V [b; h; i; c]) /\ finite (at_ Q' [b; h; i; c]) /\
     finite (at_ K' [b; h; i; c]) /\ finite (at_ V' [b; h; i; c])) ->
  (forall i c, i < n -> c < dk ->
     at_ Q [b; h; i; c] = at_ Q' [b; h; i; c] /\
     at_ K [b; h; i; c] = at_ K' [b; h; i; c] /\
     at_ V [b; h; i; c] = at_ V' [b; h; i; c]) ->
  forall i c, i < S -> c < dk ->
    finite (spec_attention dk S drop g Q K V mask b h i c) /\
    finite (spec_attention dk S drop g Q' K' V' mask b h i c) /\
    (i < n ->
     spec_attention dk S drop g Q K V mask b h i c =
     spec_attention dk S drop g Q' K' V' mask b h i c).
Proof.
  intros Hdk Hn HnS Hvis Hfin Heq i c Hi Hc.
  assert (HsQ : forall j, j < S -> score_like (spec_score dk Q K mask b h i j)).
  { intros j Hj. apply spec_score_cases; [exact Hdk | |];
      intros c' Hc'; [apply (Hfin i c' Hi Hc') | apply (Hfin j c' Hj Hc')]. }
  assert (HsQ' : forall j, j < S -> score_like (spec_score dk Q' K' mask b h i j)).
  { intros j Hj. apply spec_score_cases; [exact Hdk | |];
      intros c' Hc'; [apply (Hfin i c' Hi Hc') | apply (Hfin j c' Hj Hc')]. }
  assert (H0 : 0 < S) by lia.
  assert (Hf0 : finite (spec_score dk Q K mask b h i 0)).
  { apply spec_score_cases; [exact Hdk | | |].
    - intros c' Hc'. apply (Hfin i c' Hi Hc').
    - intros c' Hc'. apply (Hfin 0 c' H0 Hc').
    - rewrite Hvis by assumption. apply Nat.ltb_lt. exact Hn. }
  assert (Hf0' : finite (spec_score dk Q' K' mask b h i 0)).
  { apply spec_score_cases; [exact Hdk | | |].
    - intros c' Hc'. apply (Hfin i c' Hi Hc').
    - intros c' Hc'. apply (Hfin 0 c' H0 Hc').
    - rewrite Hvis by assumption. apply Nat.ltb_lt. exact Hn. }
  split; [|split].
  - unfold spec_attention. apply fsum_finite. intros j Hj.
    apply finite_fmul; [|apply (Hfin j c Hj Hc)].
    apply finite_spec_dropout. apply softmax_row_finite with 0; assumption.
  - unfold spec_attention. apply fsum_finite. intros j Hj.
    apply finite_fmul; [|apply (Hfin j c Hj Hc)].
    apply finite_spec_dropout. apply softmax_row_finite with 0; assumption.
  - intros Hin. unfold spec_attention. apply fsum_ext. intros j Hj.
    assert (Hrow : forall j', j' < S ->
              spec_score dk Q K mask b h i j' = spec_score dk Q' K' mask b h i j').
    { intros j' Hj'. unfold spec_score. rewrite Hvis by assumption.
      destruct (Nat.ltb_spec j' n) as [Hlt|Hge]; [|reflexivity].
      f_equal. apply fsum_ext. intros c' Hc'.
      destruct (Heq i c' Hin Hc') as (-> & _ & _).
      destruct (Heq j' c' Hlt Hc') as (_ & -> & _). reflexivity. }
    rewrite <- (softmax_row_ext S _ _ j Hrow Hj).
    destruct (Nat.ltb_spec j n) as [Hlt|Hge].
    + destruct (Heq j c Hlt Hc) as (_ & _ & ->). reflexivity.
    + assert (Hz : softmax_row S (spec_score dk Q K mask b h i) j = Fin 0).
      { apply softmax_row_masked with 0; try assumption.
        apply spec_score_cases; [exact Hdk | | |].
        - intros c' Hc'. apply (Hfin i c' Hi Hc').
        - intros c' Hc'. apply (Hfin j c' Hj Hc').
        - rewrite Hvis by assumption. apply Nat.ltb_ge. exact Hge. }
      rewrite Hz. rewrite !masked_term; [reflexivity | |];
        apply (Hfin j c Hj Hc).
Qed.

(** ** One encoder layer *)

Lemma lift_ok {A : Type} (r : result A) (a : A) (g : rng) :
  r = Ok a -> lift r g = Ok (a, g).
Proof. intros ->. reflexivity. Qed.

Lemma feed_forward_spec {C : Type} (f : FeedForward.t) (x : tensor fval)
      (k : tensor fval -> M C) (g : rng) B S d :
  shape x = [B; S; d] -> feed_forward_sizes d f ->
  exists y,
    mbind (FeedForward.forward f x) k g
      = k y (Dropout.next (FeedForward.dropout f) g) /\
    shape y = [B; S; d] /\
    forall b i c, at_ y [b; i; c] =
      feed_forward_row f g b i (fun k => at_ x [b; i; k]) c.
Proof.
  intros Hx (dff & H1 & H2). unfold FeedForward.forward.
  destruct (linear_spec _ x B S d dff Hx H1) as (h1 & Hh1 & Hs1 & Hv1).
  unfold mbind at 1. unfold mbind at 1. rewrite (lift_ok _ h1 g Hh1).
  destruct (dropout_forward_next (FeedForward.dropout f) (tmap frelu h1) g)
    as (h2 & Hh2 & Hs2 & Hv2).
  unfold mbind at 1. rewrite Hh2.
  assert (Hs2' : shape h2 = [B; S; dff]) by (rewrite Hs2; exact Hs1).
  destruct (linear_spec _ h2 B S dff d Hs2' H2) as (y & Hy & Hsy & Hvy).
  rewrite (lift_ok _ y _ Hy). exists y. split; [reflexivity|].
  split; [exact Hsy|]. intros b i c. rewrite Hvy. unfold feed_forward_row.
  apply linear_apply_row_ext. intros k' _.
  rewrite Hv2. unfold tmap. cbn [at_]. rewrite Hv1. reflexivity.
Qed.

Lemma residual_norm_spec (drop : Dropout.t) (N : LayerNorm.t)
      (x s : tensor fval) (g : rng) B S d :
  shape x = [B; S; d] -> shape s = [B; S; d] -> norm_sizes d N ->
  exists y,
    (forall (C : Type) (k : tensor fval -> M C),
       mbind (Dropout.forward drop s)
             (fun dr => mbind (lift (tadd x dr))
                (fun r => mbind (lift (LayerNorm.forward N r)) k)) g
       = k y (Dropout.next drop g)) /\
    mbind (Dropout.forward drop s)
          (fun dr => mbind (lift (tadd x dr))
             (fun r => lift (LayerNorm.forward N r))) g
      = Ok (y, Dropout.next drop g) /\
    shape y = [B; S; d] /\
    forall b i c, b < B -> i < S -> c < d ->
      at_ y [b; i; c] =
        residual_row drop N g d b i (fun k => at_ x [b; i; k])
                     (fun k => at_ s [b; i; k]) c.
Proof.
  intros Hx Hs HN.
  destruct (dropout_forward_next drop s g) as (dr & Hdr & Hsd & Hvd).
  assert (Hsd' : shape dr = [B; S; d]) by (rewrite Hsd; exact Hs).
  destruct (tadd_same x dr B S d Hx Hsd') as (r & Hr & Hsr & Hvr).
  destruct (norm_spec N r B S d Hsr HN) as (y & Hy & Hsy & Hvy).
  exists y. split; [|split; [|split]].
  - intros C k. unfold mbind at 1. rewrite Hdr.
    rewrite (mbind_lift_ok _ r _ _ Hr), (mbind_lift_ok _ y _ _ Hy). reflexivity.
  - unfold mbind at 1. rewrite Hdr.
    rewrite (mbind_lift_ok _ r _ _ Hr). apply lift_ok, Hy.
  - exact Hsy.
  - intros b i c Hb Hi Hc. rewrite Hvy. unfold residual_row.
    apply norm_apply_row_ext; [|exact Hc].
    intros k' Hk'. rewrite (Hvr b i k' Hb Hi Hk'), Hvd. reflexivity.
Qed.

Lemma related_pointwise2
      (F : nat -> nat -> (nat -> fval) -> (nat -> fval) -> nat -> fval)
      B S d len (x x' s s' y y' : tensor fval) :
  related B S d len x x' -> related B S d len s s' ->
  shape y = [B; S; d] -> shape y' = [B; S; d] ->
  (forall b i c, b < B -> i < S -> c < d ->
     at_ y [b; i; c] =
       F b i (fun k => at_ x [b; i; k]) (fun k => at_ s [b; i; k]) c) ->
  (forall b i c, b < B -> i < S -> c < d ->
     at_ y' [b; i; c] =
       F b i (fun k => at_ x' [b; i; k]) (fun k => at_ s' [b; i; k]) c) ->
  (forall b i row row' srow srow' c,
     (forall k, k < d -> row k = row' k) ->
     (forall k, k < d -> srow k = srow' k) -> c < d ->
     F b i row srow c = F b i row' srow' c) ->
  (forall b i row srow c,
     (forall k, k < d -> finite (row k)) ->
     (forall k, k < d -> finite (srow k)) -> c < d ->
     finite (F b i row srow c)) ->
  (forall b, b < B -> len b <= S) ->
  related B S d len y y'.
Proof.
  intros (_ & _ & Ha & Hf & Hf') (_ & _ & Hb & Hg & Hg')
         Hsy Hsy' Hy Hy' Hext Hfin Hlen.
  split; [exact Hsy|]. split; [exact Hsy'|]. split; [|split].
  - intros b i c Hb' Hi Hc. specialize (Hlen b Hb').
    rewrite Hy, Hy' by (try assumption; lia).
    apply Hext; [| |exact Hc]; intros k Hk; [apply Ha | apply Hb]; assumption.
  - intros b i c Hb' Hl Hi Hc. rewrite Hy by assumption.
    apply Hfin; [| |exact Hc]; intros k Hk; [apply Hf | apply Hg]; assumption.
  - intros b i c Hb' Hl Hi Hc. rewrite Hy' by assumption.
    apply Hfin; [| |exact Hc]; intros k Hk; [apply Hf' | apply Hg']; assumption.
Qed.

Lemma residual_row_ext drop N g d b i row row' srow srow' c :
  (forall k, k < d -> row k = row' k) ->
  (forall k, k < d -> srow k = srow' k) -> c < d ->
  residual_row drop N g d b i row srow c
  = residual_row drop N g d b i row' srow' c.
Proof.
  intros H1 H2 Hc. unfold residual_row. apply norm_apply_row_ext; [|exact Hc].
  intros k Hk. rewrite (H1 k Hk), (H2 k Hk). reflexivity.
Qed.

Lemma residual_row_finite drop N g d b i row srow c :
  (0 < LayerNorm.eps N)%R ->
  (forall k, k < d -> finite (row k)) ->
  (forall k, k < d -> finite (srow k)) -> c < d ->
  finite (residual_row drop N g d b i row srow c).
Proof.
  intros He H1 H2 Hc. unfold residual_row.
  apply norm_apply_row_finite; [exact He | | exact Hc].
  intros k Hk. apply finite_fadd; [apply H1, Hk|].
  apply finite_spec_dropout, H2, Hk.
Qed.

Lemma feed_forward_row_ext f g b i row row' c d :
  feed_forward_sizes d f ->
  (forall k, k < d -> row k = row' k) ->
  feed_forward_row f g b i row c = feed_forward_row f g b i row' c.
Proof.
  intros (dff & [H1 _] & _) H. unfold feed_forward_row.
  apply linear_apply_row_ext. intros k _. do 2 f_equal.
  apply linear_apply_row_ext. intros k' Hk'. apply H. rewrite <- H1. exact Hk'.
Qed.

Lemma feed_forward_row_finite f g b i row c d :
  feed_forward_sizes d f ->
  (forall k, k < d -> finite (row k)) ->
  finite (feed_forward_row f g b i row c).
Proof.
  intros (dff & [H1 _] & _) H. unfold feed_forward_row.
  apply linear_apply_row_finite. intros k _.
  apply finite_spec_dropout, finite_frelu, linear_apply_row_finite.
  intros k' Hk'. apply H. rewrite <- H1. exact Hk'.
Qed.

(** Self-attention under the padding mask keeps the invariant. *)
Lemma related_attention (A : MultiHeadAttention.t) (mask : tensor bool)
      (g : rng) B S d len (x x' : tensor fval) :
  attention_sizes d A -> masks_padding B S len mask ->
  (forall b, b < B -> len b <= S) -> B <> 0 -> d <> 0 ->
  related B S d len x x' ->
  exists a a',
    MultiHeadAttention.forward A x x x (Some mask) g
      = Ok (a, Dropout.next (MultiHeadAttention.dropout A) g) /\
    MultiHeadAttention.forward A x' x' x' (Some mask) g
      = Ok (a', Dropout.next (MultiHeadAttention.dropout A) g) /\
    related B S d len a a'.
Proof.
  intros HA [Hsm Hvm] Hlen HB Hd0 (Hsx & Hsx' & Hag & Hf & Hf').
  pose proof (src_mask_broadcastable mask B (MultiHeadAttention.num_heads A)
                S S Hsm) as Hbm.
  destruct (mha_self_spec A x (Some mask) g B S d Hsx HA HB Hd0 Hbm)
    as (a & Qh & Kh & Vh & Ha & Hsa & Hh & Hva).
  destruct (mha_self_spec A x' (Some mask) g B S d Hsx' HA HB Hd0 Hbm)
    as (a' & Qh' & Kh' & Vh' & Ha' & Hsa' & Hh' & Hva').
  exists a, a'. split; [exact Ha|]. split; [exact Ha'|].
  destruct HA as (_ & HH & Hd & [Hqi _] & [Hki _] & [Hvi _] & [Hoi _]).
  set (H := MultiHeadAttention.num_heads A) in *.
  set (dk := MultiHeadAttention.d_k A) in *.
  assert (Hdk : dk <> 0) by nia.
  (* the heads of a sequence with at least one real token *)
  assert (Hhead : forall b h, b < B -> h < H -> 0 < len b ->
            forall i c, i < S -> c < dk ->
              finite (spec_attention dk S (MultiHeadAttention.dropout A) g
                        Qh Kh Vh (Some mask) b h i c) /\
              finite (spec_attention dk S (MultiHeadAttention.dropout A) g
                        Qh' Kh' Vh' (Some mask) b h i c) /\
              (i < len b ->
               spec_attention dk S (MultiHeadAttention.dropout A) g
                 Qh Kh Vh (Some mask) b h i c =
               spec_attention dk S (MultiHeadAttention.dropout A) g
                 Qh' Kh' Vh' (Some mask) b h i c)).
  { intros b h Hb Hh0 Hl.
    apply attention_head_related; [exact Hdk | exact Hl | apply Hlen, Hb | | |].
    - intros i j Hi Hj.
      rewrite (visible_src_mask mask B S b h i j Hsm Hb Hj). apply Hvm; assumption.
    - intros i c Hi Hc.
      destruct (Hh b h i c Hh0 Hi Hc) as (-> & -> & ->).
      destruct (Hh' b h i c Hh0 Hi Hc) as (-> & -> & ->).
      repeat split; apply linear_apply_row_finite; intros k Hk;
        first [apply Hf | apply Hf']; try assumption; lia.
    - intros i c Hi Hc.
      assert (HiS : i < S) by (specialize (Hlen b Hb); lia).
      destruct (Hh b h i c Hh0 HiS Hc) as (-> & -> & ->).
      destruct (Hh' b h i c Hh0 HiS Hc) as (-> & -> & ->).
      repeat split; apply linear_apply_row_ext; intros k Hk;
        apply Hag; try assumption; lia. }
  assert (Hm : forall m, m < d -> m / dk < H /\ m mod dk < dk).
  { intros m Hm. split.
    - apply Nat.Div0.div_lt_upper_bound. nia.
    - apply Nat.mod_upper_bound. exact Hdk. }
  split; [exact Hsa|]. split; [exact Hsa'|]. split; [|split].
  - intros b i c Hb Hi Hc.
    assert (HiS : i < S) by (specialize (Hlen b Hb); lia).
    rewrite (Hva b i c Hb HiS), (Hva' b i c Hb HiS).
    apply linear_apply_row_ext. intros m Hmlt. rewrite Hoi in Hmlt.
    destruct (Hm m Hmlt) as [Hh0 Hc0].
    apply (Hhead b (m / dk) Hb Hh0); [lia | exact HiS | exact Hc0 | exact Hi].
  - intros b i c Hb Hl Hi Hc. rewrite (Hva b i c Hb Hi).
    apply linear_apply_row_finite. intros m Hmlt. rewrite Hoi in Hmlt.
    destruct (Hm m Hmlt) as [Hh0 Hc0].
    apply (Hhead b (m / dk) Hb Hh0 Hl i (m mod dk) Hi Hc0).
  - intros b i c Hb Hl Hi Hc. rewrite (Hva' b i c Hb Hi).
    apply linear_apply_row_finite. intros m Hmlt. rewrite Hoi in Hmlt.
    destruct (Hm m Hmlt) as [Hh0 Hc0].
    apply (Hhead b (m / dk) Hb Hh0 Hl i (m mod dk) Hi Hc0).
Qed.

(** One encoder layer keeps the invariant, and leaves the generator in the
    same state in both runs. *)
Lemma encoder_layer_related (l : EncoderLayer.t) (mask : tensor bool)
      (g : rng) B S d len (x x' : tensor fval) :
  encoder_layer_sizes d l -> masks_padding B S len mask ->
  (forall b, b < B -> len b <= S) -> B <> 0 -> d <> 0 ->
  related B S d len x x' ->
  exists y y' g',
    EncoderLayer.forward l x (Some mask) g = Ok (y, g') /\
    EncoderLayer.forward l x' (Some mask) g = Ok (y', g') /\
    related B S d len y y'.
Proof.
  intros (HA & HF & HN1 & HN2) Hmask Hlen HB Hd0 Hrel.
  destruct (related_attention _ mask g B S d len x x' HA Hmask Hlen HB Hd0 Hrel)
    as (a & a' & Ha & Ha' & Hra).
  pose proof Hrel as (Hsx & Hsx' & _).
  pose proof Hra as (Hsa & Hsa' & _).
  set (g1 := Dropout.next (MultiHeadAttention.dropout (EncoderLayer.self_attention l)) g)
    in *.
  (* first block *)
  destruct (residual_norm_spec (EncoderLayer.dropout l) (EncoderLayer.norm1 l)
              x a g1 B S d Hsx Hsa HN1) as (x1 & Hx1 & _ & Hs1 & Hv1).
  destruct (residual_norm_spec (EncoderLayer.dropout l) (EncoderLayer.norm1 l)
              x' a' g1 B S d Hsx' Hsa' HN1) as (x1' & Hx1' & _ & Hs1' & Hv1').
  assert (Hr1 : related B S d len x1 x1').
  { apply (related_pointwise2
             (residual_row (EncoderLayer.dropout l) (EncoderLayer.norm1 l) g1 d)
             B S d len x x' a a' x1 x1' Hrel Hra Hs1 Hs1' Hv1 Hv1');
      [| |exact Hlen].
    - intros. apply residual_row_ext; assumption.
    - intros. apply residual_row_finite; try assumption. apply HN1. }
  set (g2 := Dropout.next (EncoderLayer.dropout l) g1) in *.
  (* feed forward *)
  set (g3 := Dropout.next (FeedForward.dropout (EncoderLayer.feed_forward l)) g2).
  assert (Hff : forall z, shape z = [B; S; d] ->
            exists f, (forall (C : Type) (k : tensor fval -> M C),
                         mbind (FeedForward.forward (EncoderLayer.feed_forward l) z)
                               k g2 = k f g3) /\
              shape f = [B; S; d] /\
              forall b i c, at_ f [b; i; c] =
                feed_forward_row (EncoderLayer.feed_forward l) g2 b i
                                 (fun k => at_ z [b; i; k]) c).
  { intros z Hz.
    destruct (feed_forward_spec (EncoderLayer.feed_forward l) z
                (fun t => ret t) g2 B S d Hz HF) as (f & Hf & Hsf & Hvf).
    exists f. split; [|split; assumption].
    intros C k. unfold mbind in Hf |- *.
    destruct (FeedForward.forward (EncoderLayer.feed_forward l) z g2)
      as [[t gt]|e]; [|discriminate].
    unfold ret in Hf. inversion Hf; subst. reflexivity. }
  destruct (Hff x1 Hs1) as (f & Hf & Hsf & Hvf).
  destruct (Hff x1' Hs1') as (f' & Hf' & Hsf' & Hvf').
  assert (Hrf : related B S d len f f').
  { apply (related_pointwise
             (feed_forward_row (EncoderLayer.feed_forward l) g2)
             B S d d len x1 x1' f f' Hr1 Hsf Hsf');
      [intros; apply Hvf | intros; apply Hvf' | | | exact Hlen].
    - intros. apply feed_forward_row_ext with d; assumption.
    - intros. apply feed_forward_row_finite with d; assumption. }
  (* second block *)
  destruct (residual_norm_spec (EncoderLayer.dropout l) (EncoderLayer.norm2 l)
              x1 f g3 B S d Hs1 Hsf HN2) as (y & _ & Hy & Hsy & Hvy).
  destruct (residual_norm_spec (EncoderLayer.dropout l) (EncoderLayer.norm2 l)
              x1' f' g3 B S d Hs1' Hsf' HN2) as (y' & _ & Hy' & Hsy' & Hvy').
  exists y, y', (Dropout.next (EncoderLayer.dropout l) g3).
  split; [|split].
  - unfold EncoderLayer.forward. unfold mbind at 1. rewrite Ha.
    rewrite Hx1, Hf. exact Hy.
  - unfold EncoderLayer.forward. unfold mbind at 1. rewrite Ha'.
    rewrite Hx1', Hf'. exact Hy'.
  - apply (related_pointwise2
             (residual_row (EncoderLayer.dropout l) (EncoderLayer.norm2 l) g3 d)
             B S d len x1 x1' f f' y y' Hr1 Hrf Hsy Hsy' Hvy Hvy');
      [| |exact Hlen].
    + intros. apply residual_row_ext; assumption.
    + intros. apply residual_row_finite; try assumption. apply HN2.
Qed.

(** ** The stack of encoder layers *)

Lemma run_encoder_related (layers : list EncoderLayer.t) (mask : tensor bool)
      B S d len :
  Forall (encoder_layer_sizes d) layers -> masks_padding B S len mask ->
  (forall b, b < B -> len b <= S) -> B <> 0 -> d <> 0 ->
  forall (g : rng) (x x' : tensor fval),
    related B S d len x x' ->
    exists y y' g',
      Transformer.run_encoder layers x mask g = Ok (y, g') /\
      Transformer.run_encoder layers x' mask g = Ok (y', g') /\
      related B S d len y y'.
Proof.
  intros Hl Hmask Hlen HB Hd0.
  induction Hl as [|l layers Hsz _ IH]; intros g x x' Hrel.
  - exists x, x', g. repeat split; try reflexivity; apply Hrel.
  - destruct (encoder_layer_related l mask g B S d len x x'
                Hsz Hmask Hlen HB Hd0 Hrel) as (y & y' & g1 & Hy & Hy' & Hr).
    destruct (IH g1 y y' Hr) as (z & z' & g2 & Hz & Hz' & Hrz).
    exists z, z', g2. cbn [Transformer.run_encoder]. unfold mbind.
    rewrite Hy, Hy'. repeat split; try assumption; apply Hrz.
Qed.

(** ** The encoder of Transformer.forward *)

Lemma all_idx_in_range s idx : In idx (all_idx s) -> in_range s idx.
Proof.
  revert idx. induction s as [|d s IH]; intros idx H.
  - destruct H as [<-|[]]. constructor.
  - cbn [all_idx] in H. apply in_flat_map in H. destruct H as (i & Hi & H).
    apply in_map_iff in H. destruct H as (idx' & <- & H').
    apply in_seq in Hi. constructor; [lia | apply IH, H'].
Qed.

Lemma embedding_forward_ok (E : Embedding.t) (src : tensor Z) :
  tokens_in_vocabulary E src ->
  Embedding.forward E src =
    Ok (mkT (shape src ++ [Embedding.embedding_dim E])
            (fun idx => Fin (Embedding.weight E (Z.to_nat (at_ src (init_of idx)))
                                               (last_of idx)))).
Proof.
  intros H. unfold Embedding.forward.
  replace (forallb _ _) with true; [reflexivity|].
  symmetry. apply forallb_forall. intros idx Hin. apply H.
  apply all_idx_in_range, Hin.
Qed.

Lemma embedding_forward_inv (E : Embedding.t) (src : tensor Z) e :
  Embedding.forward E src = Ok e ->
  e = mkT (shape src ++ [Embedding.embedding_dim E])
          (fun idx => Fin (Embedding.weight E (Z.to_nat (at_ src (init_of idx)))
                                             (last_of idx))).
Proof.
  unfold Embedding.forward. destruct (forallb _ _); [|discriminate].
  intros H. inversion H. reflexivity.
Qed.

Lemma mbind_inv {A B : Type} (m : M A) (k : A -> M B) g b g' :
  mbind m k g = Ok (b, g') ->
  exists a g1, m g = Ok (a, g1) /\ k a g1 = Ok (b, g').
Proof.
  unfold mbind. destruct (m g) as [[a g1]|e]; [|discriminate].
  intros H. exists a, g1. split; [reflexivity | exact H].
Qed.

Lemma lift_inv {A : Type} (r : result A) g a g' :
  lift r g = Ok (a, g') -> r = Ok a /\ g' = g.
Proof.
  unfold lift. destruct r; [|discriminate]. intros H. inversion H. split; reflexivity.
Qed.

(** With an empty batch the [view] of the attention cannot infer its [-1]. *)
Lemma encoder_layer_empty_batch (l : EncoderLayer.t) (x : tensor fval) mask g s :
  shape x = 0 :: s ->
  exists e, EncoderLayer.forward l x mask g = Raise e.
Proof.
  intros Hx. unfold EncoderLayer.forward, MultiHeadAttention.forward.
  unfold mbind at 1. unfold mbind at 1.
  assert (Hsz : size x 0 = Ok 0) by (unfold size; rewrite Hx; reflexivity).
  rewrite Hsz. cbn [lift]. unfold mbind at 1.
  unfold MultiHeadAttention.split_heads.
  destruct (Linear.forward _ x) as [y|e]; cbn [rbind lift];
    [|eexists; reflexivity].
  unfold view. cbn [holes filter length]. unfold known. cbn [map].
  unfold prod at 2. cbn [fold_right Nat.mul Nat.eqb orb rbind].
  eexists; reflexivity.
Qed.

(** The embedded, position-encoded source of the two runs. *)
Lemma embed_related (self : Transformer.t) (src src' : tensor Z) (g : rng)
      B S d L len e p :
  encoder_sizes d L self ->
  shape src = [B; S] -> shape src' = [B; S] -> S <= L ->
  (forall b, b < B -> len b <= S) ->
  same_real_tokens B len src src' ->
  tokens_in_vocabulary (Transformer.encoder_embedding self) src' ->
  Embedding.forward (Transformer.encoder_embedding self) src = Ok e ->
  PositionalEncoding.forward (Transformer.positional_encoding self) e = Ok p ->
  exists e' p' x x',
    Embedding.forward (Transformer.encoder_embedding self) src' = Ok e' /\
    PositionalEncoding.forward (Transformer.positional_encoding self) e' = Ok p' /\
    Dropout.forward (Transformer.dropout self) p g
      = Ok (x, Dropout.next (Transformer.dropout self) g) /\
    Dropout.forward (Transformer.dropout self) p' g
      = Ok (x', Dropout.next (Transformer.dropout self) g) /\
    related B S d len x x'.
Proof.
  intros (Hed & Hpe & _) Hs Hs' HSL Hlen Htok Hval He Hp.
  apply embedding_forward_inv in He.
  pose proof (embedding_forward_ok _ src' Hval) as He'.
  rewrite Hs, Hed in He. rewrite Hs', Hed in He'. cbn [app] in He, He'.
  set (e' := mkT [B; S; d] (fun idx =>
         Fin (Embedding.weight (Transformer.encoder_embedding self)
                (Z.to_nat (at_ src' (init_of idx))) (last_of idx)))) in He'.
  assert (Hse : shape e = [B; S; d]) by (rewrite He; reflexivity).
  destruct (positional_encoding_forward_fits d L _ e B S Hpe Hse HSL)
    as (q & Hq & Hsq & Hvq).
  rewrite Hq in Hp. inversion Hp; subst q; clear Hp.
  destruct (positional_encoding_forward_fits d L _ e' B S Hpe eq_refl HSL)
    as (p' & Hp' & Hsp' & Hvp').
  destruct (dropout_forward_next (Transformer.dropout self) p g)
    as (x & Hx & Hsx & Hvx).
  destruct (dropout_forward_next (Transformer.dropout self) p' g)
    as (x' & Hx' & Hsx' & Hvx').
  exists e', p', x, x'. split; [exact He'|]. split; [exact Hp'|].
  split; [exact Hx|]. split; [exact Hx'|].
  destruct (init_table d L _ Hpe) as (t & _ & _ & _ & Hpt & Hvt).
  assert (Hfpe : forall i c, i < S -> c < d ->
            finite (at_ (PositionalEncoding.pe (Transformer.positional_encoding self))
                        [0; i; c])).
  { intros i c Hi Hc. rewrite Hpt, Hvt by lia. destruct (Nat.even c); exact I. }
  split; [rewrite Hsx; exact Hsq|]. split; [rewrite Hsx'; exact Hsp'|].
  split; [|split].
  - intros b i c Hb Hi Hc.
    assert (HiS : i < S) by (specialize (Hlen b Hb); lia).
    rewrite Hvx, Hvx', (Hvq b i c Hb HiS Hc), (Hvp' b i c Hb HiS Hc).
    rewrite He. unfold e'. cbn [at_ init_of last_of length Nat.sub firstn last].
    rewrite (Htok b i Hb Hi). reflexivity.
  - intros b i c Hb _ Hi Hc. rewrite Hvx, (Hvq b i c Hb Hi Hc).
    apply finite_spec_dropout, finite_fadd; [|apply Hfpe; assumption].
    rewrite He. exact I.
  - intros b i c Hb _ Hi Hc. rewrite Hvx', (Hvp' b i c Hb Hi Hc).
    apply finite_spec_dropout, finite_fadd; [|apply Hfpe; assumption].
    exact I.
Qed.

Lemma init_d_model_nonzero d L self :
  PositionalEncoding.init d L = Ok self -> d <> 0.
Proof.
  intros H Hd. subst d. unfold PositionalEncoding.init in H.
  rewrite build_table_zero in H. discriminate.
Qed.

(** C5.  Two runs of the encoder of [Transformer.forward] on source batches
    that hold the same tokens up to the true length of every row, under a
    [src_mask] that marks exactly the positions beyond the true lengths as
    unattendable, and from the same state of the random generator: whenever
    the first run returns, the second returns too (its tokens being in the
    vocabulary), and the two outputs are identical at every real token
    position. *)
Theorem encoder_padding_invariance (self : Transformer.t)
        (src src' : tensor Z) (src_mask : tensor bool) (len : nat -> nat)
        (g g1 : rng) (out : tensor fval)
        (batch seq_len d_model max_seq_length : nat) :
  encoder_sizes d_model max_seq_length self ->
  shape src = [batch; seq_len] ->
  shape src' = [batch; seq_len] ->
  seq_len <= max_seq_length ->
  (forall b, b < batch -> len b <= seq_len) ->
  same_real_tokens batch len src src' ->
  masks_padding batch seq_len len src_mask ->
  tokens_in_vocabulary (Transformer.encoder_embedding self) src' ->
  Transformer.encode self src src_mask g = Ok (out, g1) ->
  exists out',
    Transformer.encode self src' src_mask g = Ok (out', g1) /\
    shape out' = shape out /\
    same_at_real_positions batch d_model len out out'.
Proof.
  intros Hsz Hs Hs' HSL Hlen Htok Hmask Hval Hrun.
  unfold Transformer.encode in Hrun.
  apply mbind_inv in Hrun. destruct Hrun as (e & ge & He & Hrun).
  apply lift_inv in He. destruct He as [He ->].
  apply mbind_inv in Hrun. destruct Hrun as (p & gp & Hp & Hrun).
  apply lift_inv in Hp. destruct Hp as [Hp ->].
  destruct (embed_related self src src' g batch seq_len d_model max_seq_length
              len e p Hsz Hs Hs' HSL Hlen Htok Hval He Hp)
    as (e' & p' & x & x' & He' & Hp' & Hx & Hx' & Hrel).
  unfold mbind in Hrun at 1. rewrite Hx in Hrun.
  set (g0 := Dropout.next (Transformer.dropout self) g) in *.
  assert (Hgoal : forall y', Transformer.run_encoder
                    (Transformer.encoder_layers self) x' src_mask g0 = Ok (y', g1) ->
            Transformer.encode self src' src_mask g = Ok (y', g1)).
  { intros y' Hy'. unfold Transformer.encode.
    rewrite (mbind_lift_ok _ e' _ g He'), (mbind_lift_ok _ p' _ g Hp').
    unfold mbind at 1. rewrite Hx'. exact Hy'. }
  destruct Hsz as (_ & Hpe & Hlayers).
  pose proof (init_d_model_nonzero _ _ _ Hpe) as Hd0.
  destruct (Nat.eq_dec batch 0) as [HB|HB].
  - (* an empty batch: only an empty stack of layers returns *)
    destruct (Transformer.encoder_layers self) as [|l layers].
    + cbn [Transformer.run_encoder] in Hrun. unfold ret in Hrun.
      inversion Hrun; subst out g1. exists x'. split; [apply Hgoal; reflexivity|].
      split; [|apply Hrel].
      destruct Hrel as (-> & -> & _). reflexivity.
    + exfalso. cbn [Transformer.run_encoder] in Hrun.
      destruct Hrel as (Hsx & _). rewrite HB in Hsx.
      destruct (encoder_layer_empty_batch l x (Some src_mask) g0 _ Hsx)
        as [err Herr].
      unfold mbind in Hrun. rewrite Herr in Hrun. discriminate.
  - destruct (run_encoder_related _ src_mask batch seq_len d_model len
                Hlayers Hmask Hlen HB Hd0 g0 x x' Hrel)
      as (y & y' & g' & Hy & Hy' & Hry).
    rewrite Hy in Hrun. inversion Hrun; subst y g'.
    exists y'. split; [apply Hgoal, Hy'|]. split; [|apply Hry].
    destruct Hry as (-> & -> & _). reflexivity.
Qed.

(** ** What the constructors establish *)

Lemma rbind_inv {A B : Type} (m : result A) (k : A -> result B) b :
  rbind m k = Ok b -> exists a, m = Ok a /\ k a = Ok b.
Proof. destruct m; [|discriminate]. intros H. eexists. split; [reflexivity|exact H]. Qed.

Lemma multi_head_attention_init_sizes d h p vq vk vv vo A :
  MultiHeadAttention.init d h p vq vk vv vo = Ok A -> attention_sizes d A.
Proof.
  unfold MultiHeadAttention.init, py_mod.
  destruct (Nat.eqb_spec h 0) as [|Hh]; [discriminate|]. cbn [rbind].
  destruct (Nat.eqb_spec (d mod h) 0) as [Hm|]; [|discriminate].
  intros H. apply rbind_inv in H. destruct H as (drop & _ & H).
  inversion H; subst A; clear H. unfold attention_sizes, linear_sizes.
  cbn. repeat split; try assumption.
  apply Nat.Div0.div_exact. exact Hm.
Qed.

Lemma encoder_layer_init_sizes d h dff p vals l :
  EncoderLayer.init d h dff p vals = Ok l -> encoder_layer_sizes d l.
Proof.
  unfold EncoderLayer.init. intros H.
  apply rbind_inv in H. destruct H as (A & HA & H).
  apply rbind_inv in H. destruct H as (f & Hf & H).
  apply rbind_inv in H. destruct H as (drop & _ & H).
  inversion H; subst l; clear H.
  unfold FeedForward.init in Hf. apply rbind_inv in Hf.
  destruct Hf as (fd & _ & Hf). inversion Hf; subst f; clear Hf.
  unfold encoder_layer_sizes. cbn.
  split; [exact (multi_head_attention_init_sizes _ _ _ _ _ _ _ _ HA)|].
  split; [exists dff; unfold linear_sizes; cbn; repeat split|].
  unfold norm_sizes. cbn. repeat split; lra.
Qed.

Lemma build_list_Forall {A : Type} (P : A -> Prop) (f : nat -> result A)
      count start l :
  (forall n a, f n = Ok a -> P a) ->
  Transformer.build_list f start count = Ok l -> Forall P l.
Proof.
  intros Hf. revert start l.
  induction count as [|count IH]; intros start l H; cbn in H.
  - inversion H. constructor.
  - apply rbind_inv in H. destruct H as (a & Ha & H).
    apply rbind_inv in H. destruct H as (rest & Hrest & H).
    inversion H; subst l. constructor; [exact (Hf _ _ Ha) | exact (IH _ _ Hrest)].
Qed.

(** A constructed [Transformer] has the sizes the encoder needs. *)
Lemma transformer_init_sizes sv tv d h n dff L p v self :
  Transformer.init sv tv d h n dff L p v = Ok self -> encoder_sizes d L self.
Proof.
  unfold Transformer.init. intros H.
  apply rbind_inv in H. destruct H as (pe & Hpe & H).
  apply rbind_inv in H. destruct H as (enc & Henc & H).
  apply rbind_inv in H. destruct H as (dec & _ & H).
  apply rbind_inv in H. destruct H as (drop & _ & H).
  inversion H; subst self; clear H. unfold encoder_sizes. cbn.
  split; [reflexivity|]. split; [exact Hpe|].
  apply (build_list_Forall _ _ _ _ _ (fun n0 a => encoder_layer_init_sizes _ _ _ _ _ a)
           Henc).
Qed.

Lemma build_list_ok {A : Type} (f : nat -> result A) count start :
  (forall n, exists a, f n = Ok a) ->
  exists l, Transformer.build_list f start count = Ok l.
Proof.
  intros Hf. revert start. induction count as [|count IH]; intros start; cbn.
  - eexists; reflexivity.
  - destruct (Hf start) as [a ->]. destruct (IH (S start)) as [l ->].
    eexists; reflexivity.
Qed.

(** The constructor returns for sizes and a dropout probability that are
    in order. *)
Lemma transformer_init_ok sv tv d h n dff L p v :
  d = 1 \/ (Nat.even d = true /\ d <> 0) ->
  h <> 0 -> d mod h = 0 -> (0 <= p <= 1)%R ->
  exists self, Transformer.init sv tv d h n dff L p v = Ok self.
Proof.
  intros Hd Hh Hm Hp. unfold Transformer.init.
  destruct (build_table_ok d L Hd) as (t & Ht & Hs & _).
  assert (Hpe : exists pe, PositionalEncoding.init d L = Ok pe).
  { unfold PositionalEncoding.init. rewrite Ht. cbn [rbind].
    unfold unsqueeze, rank. rewrite Hs. eexists; reflexivity. }
  destruct Hpe as [pe ->]. cbn [rbind].
  assert (HA : forall vq vk vv vo, exists A,
             MultiHeadAttention.init d h p vq vk vv vo = Ok A).
  { intros. unfold MultiHeadAttention.init, py_mod.
    destruct (Nat.eqb_spec h 0); [contradiction|]. cbn [rbind].
    rewrite Hm, (dropout_init_ok p Hp). eexists; reflexivity. }
  assert (HF : forall v1 v2, exists f, FeedForward.init d dff p v1 v2 = Ok f).
  { intros. unfold FeedForward.init. rewrite (dropout_init_ok p Hp).
    eexists; reflexivity. }
  destruct (build_list_ok
              (fun k => EncoderLayer.init d h dff p (Transformer.enc_vals v k)) n 0)
    as [enc ->].
  { intros k. unfold EncoderLayer.init.
    destruct (HA (Transformer.enc_vals v k 0) (Transformer.enc_vals v k 1)
                 (Transformer.enc_vals v k 2) (Transformer.enc_vals v k 3)) as [A ->].
    destruct (HF (Transformer.enc_vals v k 4) (Transformer.enc_vals v k 5)) as [f ->].
    cbn [rbind]. rewrite (dropout_init_ok p Hp). eexists; reflexivity. }
  destruct (build_list_ok
              (fun k => DecoderLayer.init d h dff p (Transformer.dec_vals v k)) n 0)
    as [dec ->].
  { intros k. unfold DecoderLayer.init.
    destruct (HA (Transformer.dec_vals v k 0) (Transformer.dec_vals v k 1)
                 (Transformer.dec_vals v k 2) (Transformer.dec_vals v k 3)) as [A ->].
    destruct (HA (Transformer.dec_vals v k 4) (Transformer.dec_vals v k 5)
                 (Transformer.dec_vals v k 6) (Transformer.dec_vals v k 7)) as [C ->].
    destruct (HF (Transformer.dec_vals v k 8) (Transformer.dec_vals v k 9)) as [f ->].
    cbn [rbind]. rewrite (dropout_init_ok p Hp). eexists; reflexivity. }
  cbn [rbind]. rewrite (dropout_init_ok p Hp). eexists; reflexivity.
Qed.

(** The encoder returns on a batch that is not empty, fits the table and
    holds tokens of the vocabulary. *)
Lemma encode_returns (self : Transformer.t) (src : tensor Z)
      (mask : tensor bool) (len : nat -> nat) (g : rng) B S d L :
  encoder_sizes d L self -> shape src = [B; S] -> S <= L -> B <> 0 ->
  (forall b, b < B -> len b <= S) -> masks_padding B S len mask ->
  tokens_in_vocabulary (Transformer.encoder_embedding self) src ->
  exists out g1, Transformer.encode self src mask g = Ok (out, g1).
Proof.
  intros Hsz Hs HSL HB Hlen Hmask Hval.
  pose proof Hsz as (Hed & Hpe & Hlayers).
  pose proof (embedding_forward_ok _ src Hval) as He.
  rewrite Hs, Hed in He. cbn [app] in He.
  set (e := mkT [B; S; d] (fun idx : list nat =>
         Fin (Embedding.weight (Transformer.encoder_embedding self)
                (Z.to_nat (at_ src (init_of idx))) (last_of idx)))) in He.
  destruct (positional_encoding_forward_fits d L _ e B S Hpe eq_refl HSL)
    as (p & Hp & _).
  destruct (embed_related self src src g B S d L len e p Hsz Hs Hs HSL Hlen
              (fun b j _ _ => eq_refl) Hval He Hp)
    as (e' & p' & x & x' & _ & _ & Hx & _ & Hrel).
  assert (Hrel' : related B S d len x x).
  { destruct Hrel as (H1 & _ & _ & H4 & _).
    repeat split; try assumption. }
  destruct (run_encoder_related _ mask B S d len Hlayers Hmask Hlen HB
              (init_d_model_nonzero _ _ _ Hpe)
              (Dropout.next (Transformer.dropout self) g) x x Hrel')
    as (y & _ & g' & Hy & _).
  exists y, g'. unfold Transformer.encode.
  rewrite (mbind_lift_ok _ _ _ g He), (mbind_lift_ok _ p _ g Hp).
  unfold mbind at 1. rewrite Hx. exact Hy.
Qed.

Lemma encoder_padding_invariance_witness :
  exists self out g1 out',
    Transformer.init 3 3 2 1 1 2 4 (1 / 10) zero_params = Ok self /\
    Transformer.encode self (tokens2 1 0) first_only keep_all = Ok (out, g1) /\
    Transformer.encode self (tokens2 1 2) first_only keep_all = Ok (out', g1) /\
    at_ out [0; 0; 1] = at_ out' [0; 0; 1].
Proof.
  destruct (transformer_init_ok 3 3 2 1 1 2 4 (1 / 10) zero_params)
    as [self Hinit];
    [right; split; [reflexivity | discriminate] | discriminate | reflexivity
     | lra |].
  pose proof (transformer_init_sizes _ _ _ _ _ _ _ _ _ _ Hinit) as Hsz.
  assert (Hemb : Transformer.encoder_embedding self
                 = Embedding.mk 3 2 (fun _ _ => 0%R)).
  { unfold Transformer.init in Hinit.
    apply rbind_inv in Hinit. destruct Hinit as (? & _ & H).
    apply rbind_inv in H. destruct H as (? & _ & H).
    apply rbind_inv in H. destruct H as (? & _ & H).
    apply rbind_inv in H. destruct H as (? & _ & H).
    inversion H. reflexivity. }
  assert (Hlen : forall b, b < 1 -> (fun _ : nat => 1) b <= 2) by (intros; lia).
  assert (Hmask : masks_padding 1 2 (fun _ => 1) first_only).
  { split; [reflexivity|]. intros b j Hb Hj.
    destruct j as [|[|j]]; [reflexivity | reflexivity | lia]. }
  assert (Hval : forall a b, (0 <= a < 3)%Z -> (0 <= b < 3)%Z ->
            tokens_in_vocabulary (Transformer.encoder_embedding self) (tokens2 a b)).
  { intros a b Ha Hb idx Hidx. rewrite Hemb. unfold Embedding.valid. cbn.
    inversion Hidx as [|i ? ? ? _ Hidx']; subst.
    inversion Hidx' as [|j ? ? ? _ Hidx'']; subst.
    inversion Hidx''; subst.
    destruct j as [|j]; apply andb_true_intro; split;
      first [apply Z.leb_le | apply Z.ltb_lt]; lia. }
  destruct (encode_returns self (tokens2 1 0) first_only (fun _ => 1) keep_all
              1 2 2 4 Hsz eq_refl) as (out & g1 & Hrun);
    [lia | discriminate | exact Hlen | exact Hmask | apply Hval; lia |].
  destruct (encoder_padding_invariance self (tokens2 1 0) (tokens2 1 2)
              first_only (fun _ => 1) keep_all g1 out 1 2 2 4
              Hsz eq_refl eq_refl) as (out' & Hrun' & _ & Hsame);
    [lia | exact Hlen | | exact Hmask | apply Hval; lia | exact Hrun |].
  - intros b j Hb Hj. destruct j as [|j]; [reflexivity | lia].
  - exists self, out, g1, out'. repeat split; try assumption.
    apply Hsame; lia.
Defined.

(* ================================================================= *)
(** * Further properties *)

(** ** More on PositionalEncoding *)

(** X1.  Every entry of the table of a constructed [PositionalEncoding] is a
    finite number between -1 and 1, and the row of position 0 is 0 in the
    even columns and 1 in the odd ones. *)
Theorem positional_encoding_entries_bounded (d_model max_seq_length : nat)
        (self : PositionalEncoding.t) :
  PositionalEncoding.init d_model max_seq_length = Ok self ->
  (forall pos c, pos < max_seq_length -> c < d_model ->
     exists r, at_ (PositionalEncoding.pe self) [0; pos; c] = Fin r /\
               (-1 <= r <= 1)%R) /\
  (forall c, 0 < max_seq_length -> c < d_model ->
     at_ (PositionalEncoding.pe self) [0; 0; c]
     = Fin (if Nat.even c then 0 else 1)).
Proof.
  intros Hi. destruct (init_table _ _ _ Hi) as (t & _ & _ & _ & Hpt & Hvt).
  split.
  - intros pos c Hp Hc. rewrite Hpt, (Hvt pos c Hp Hc).
    destruct (Nat.even c); eexists; (split; [reflexivity|]).
    + apply SIN_bound.
    + apply COS_bound.
  - intros c HL Hc. rewrite Hpt, (Hvt 0 c HL Hc).
    assert (Ha : angle d_model 0 (c / 2) = 0%R).
    { unfold angle. cbn [Nat.mul INR]. ring. }
    rewrite Ha. destruct (Nat.even c); f_equal; [apply sin_0 | apply cos_0].
Qed.

Lemma positional_encoding_entries_bounded_witness :
  exists self,
    PositionalEncoding.init 4 3 = Ok self /\
    (exists r, at_ (PositionalEncoding.pe self) [0; 2; 3] = Fin r /\
               (-1 <= r <= 1)%R) /\
    at_ (PositionalEncoding.pe self) [0; 0; 1] = Fin 1.
Proof.
  destruct (positional_encoding_init_ok 4 3) as (self & Hi);
    [right; split; [reflexivity | discriminate]|].
  destruct (positional_encoding_entries_bounded 4 3 self Hi) as [Hb H0].
  exists self. split; [exact Hi|]. split.
  - apply Hb; lia.
  - apply (H0 1); lia.
Defined.

(** The additions [x + pe[:, :seq_len]] and [x + table[:seq_len]] can be
    broadcast unless the input is longer than the table and neither length
    is 1. *)
Lemma lengths_broadcast S L :
  (S =? Nat.min S L) || (S =? 1) || (Nat.min S L =? 1) = false <->
  L < S /\ L <> 1 /\ S <> 1.
Proof.
  destruct (Nat.eqb_spec S (Nat.min S L));
    destruct (Nat.eqb_spec S 1);
    destruct (Nat.eqb_spec (Nat.min S L) 1);
    cbn [orb]; split; intros H; try discriminate; try lia; try reflexivity.
Qed.

Lemma raises_iff_false {A : Type} (c : bool) (a : A) (e0 : error) :
  (exists e, (if c then Ok a else Raise e0) = Raise e) <-> c = false.
Proof.
  destruct c; split; intros H; try discriminate; try reflexivity.
  - destruct H as [e He]. discriminate.
  - eexists; reflexivity.
Qed.

Lemma positional_encoding_raises_by_lengths d L self (x : tensor fval) B S :
  PositionalEncoding.init d L = Ok self ->
  shape x = [B; S; d] ->
  (exists e, PositionalEncoding.forward self x = Raise e) <->
  L < S /\ L <> 1 /\ S <> 1.
Proof.
  intros Hi Hx. rewrite (positional_encoding_forward_cases _ _ _ _ _ _ Hi Hx).
  rewrite raises_iff_false. apply lengths_broadcast.
Qed.

(** X2.  [PositionalEncoding.forward] raises exactly when the input is longer
    than the table and neither length is 1.  A table of a single row is
    broadcast: its row is added to every position of the input. *)
Theorem positional_encoding_forward_raises_iff (d_model max_seq_length : nat)
        (self : PositionalEncoding.t) (x : tensor fval) (batch seq_len : nat) :
  PositionalEncoding.init d_model max_seq_length = Ok self ->
  shape x = [batch; seq_len; d_model] ->
  ((exists e, PositionalEncoding.forward self x = Raise e) <->
   max_seq_length < seq_len /\ max_seq_length <> 1 /\ seq_len <> 1) /\
  (max_seq_length = 1 ->
   exists r, PositionalEncoding.forward self x = Ok r /\
     shape r = [batch; seq_len; d_model] /\
     forall b s c, b < batch -> s < seq_len -> c < d_model ->
       at_ r [b; s; c] =
         fadd (at_ x [b; s; c]) (at_ (PositionalEncoding.pe self) [0; 0; c])).
Proof.
  intros Hi Hx. split.
  - exact (positional_encoding_raises_by_lengths _ _ _ _ _ _ Hi Hx).
  - rewrite (positional_encoding_forward_cases _ _ _ _ _ _ Hi Hx). intros ->.
    assert (Hmin : Nat.min seq_len 1 = 1 \/ seq_len = 0) by lia.
    destruct Hmin as [Hm|Hz].
    + rewrite Hm. rewrite Nat.eqb_refl, orb_true_r.
      eexists. split; [reflexivity|]. split.
      * cbn [shape]. destruct (Nat.eqb_spec seq_len 1); congruence.
      * intros b s c Hb Hs Hc. cbn [at_]. unfold bidx. cbn.
        f_equal; f_equal; eqb_cases; repeat f_equal; lia.
    + subst seq_len. cbn [Nat.min Nat.eqb orb]. eexists.
      split; [reflexivity|]. split; [reflexivity|]. intros; lia.
Qed.

Lemma positional_encoding_forward_raises_iff_witness :
  exists self r,
    PositionalEncoding.init 2 1 = Ok self /\
    PositionalEncoding.forward self (zeros [1; 3; 2]) = Ok r /\
    at_ r [0; 2; 1] =
      fadd (at_ (zeros [1; 3; 2]) [0; 2; 1])
           (at_ (PositionalEncoding.pe self) [0; 0; 1]).
Proof.
  destruct (positional_encoding_init_ok 2 1) as (self & Hi);
    [right; split; [reflexivity | discriminate]|].
  destruct (positional_encoding_forward_raises_iff 2 1 self (zeros [1; 3; 2])
              1 3 Hi eq_refl) as [_ H].
  destruct (H eq_refl) as (r & Hr & _ & Hv).
  exists self, r. split; [exact Hi|]. split; [exact Hr|]. apply Hv; lia.
Defined.

(** ** SimplePositionalEncoding *)

Lemma bshape_rev_table B S d m :
  bshape_rev [d; S; B] [d; m] =
    if (S =? m) || (S =? 1) || (m =? 1)
    then Some [d; if S =? 1 then m else S; B] else None.
Proof.
  cbn [bshape_rev].
  repeat match goal with
         | |- context [Nat.eqb ?a ?b] => destruct (Nat.eqb_spec a b)
         end; subst; cbn [orb]; try reflexivity; congruence.
Qed.

Lemma simple_positional_encoding_cases (self : SimplePositionalEncoding.t)
      (x : tensor fval) B S d L :
  shape (SimplePositionalEncoding.positional_embedding self) = [L; d] ->
  shape x = [B; S; d] ->
  SimplePositionalEncoding.forward self x =
    if (S =? Nat.min S L) || (S =? 1) || (Nat.min S L =? 1) then
      Ok (mkT [B; if S =? 1 then Nat.min S L else S; d]
              (fun idx =>
                 fadd (at_ x (bidx [B; S; d] idx))
                      (at_ (SimplePositionalEncoding.positional_embedding self)
                           (bidx [Nat.min S L; d] idx))))
    else Raise RuntimeError.
Proof.
  intros Hp Hx. unfold SimplePositionalEncoding.forward, size.
  rewrite Hx. cbn [nth_error rbind].
  unfold tadd, tzip, broadcast_shapes, slice_dim0. rewrite Hx, Hp.
  cbn [shape rev app]. rewrite bshape_rev_table.
  destruct ((S =? Nat.min S L) || (S =? 1) || (Nat.min S L =? 1)); reflexivity.
Qed.

(** X3.  [SimplePositionalEncoding.forward] on an input of shape
    [[batch, seq_len, d_model]]: it returns [x + positional_embedding[:seq_len]]
    when the input fits the table, and it raises exactly when the input is
    longer than the table and neither length is 1, the same inputs on which
    [PositionalEncoding.forward] raises. *)
Theorem simple_positional_encoding_forward (d_model max_seq_length : nat)
        (vals : nat -> nat -> R) (x : tensor fval) (batch seq_len : nat) :
  shape x = [batch; seq_len; d_model] ->
  let self := SimplePositionalEncoding.init d_model max_seq_length vals in
  (seq_len <= max_seq_length ->
   exists r, SimplePositionalEncoding.forward self x = Ok r /\
     shape r = [batch; seq_len; d_model] /\
     forall b s c, b < batch -> s < seq_len -> c < d_model ->
       at_ r [b; s; c] = fadd (at_ x [b; s; c]) (Fin (vals s c))) /\
  ((exists e, SimplePositionalEncoding.forward self x = Raise e) <->
   max_seq_length < seq_len /\ max_seq_length <> 1 /\ seq_len <> 1) /\
  (forall pe, PositionalEncoding.init d_model max_seq_length = Ok pe ->
     ((exists e, SimplePositionalEncoding.forward self x = Raise e) <->
      (exists e, PositionalEncoding.forward pe x = Raise e))).
Proof.
  intros Hx self.
  assert (Hc := simple_positional_encoding_cases self x batch seq_len d_model
                  max_seq_length eq_refl Hx).
  assert (Hiff : (exists e, SimplePositionalEncoding.forward self x = Raise e) <->
                 max_seq_length < seq_len /\ max_seq_length <> 1 /\ seq_len <> 1).
  { rewrite Hc, raises_iff_false. apply lengths_broadcast. }
  split; [|split; [exact Hiff|]].
  - intros Hle. rewrite Hc. rewrite Nat.min_l by assumption.
    rewrite Nat.eqb_refl. cbn [orb]. eexists. split; [reflexivity|]. split.
    + cbn [shape]. destruct (Nat.eqb_spec seq_len 1); congruence.
    + intros b s c Hb Hs Hcd. cbn [at_]. unfold bidx.
      cbn [length Nat.sub skipn zip_with].
      replace (if batch =? 1 then 0 else b) with b by (eqb_cases; lia).
      replace (if seq_len =? 1 then 0 else s) with s by (eqb_cases; lia).
      replace (if d_model =? 1 then 0 else c) with c by (eqb_cases; lia).
      reflexivity.
  - intros pe Hpe. rewrite Hiff. symmetry.
    exact (positional_encoding_raises_by_lengths _ _ _ _ _ _ Hpe Hx).
Qed.

Lemma simple_positional_encoding_forward_witness :
  exists pe r,
    PositionalEncoding.init 2 3 = Ok pe /\
    SimplePositionalEncoding.forward
      (SimplePositionalEncoding.init 2 3 (fun _ _ => 1%R)) (zeros [1; 3; 2])
      = Ok r /\
    at_ r [0; 2; 1] = fadd (at_ (zeros [1; 3; 2]) [0; 2; 1]) (Fin 1) /\
    exists e, SimplePositionalEncoding.forward
                (SimplePositionalEncoding.init 2 3 (fun _ _ => 1%R))
                (zeros [1; 4; 2]) = Raise e.
Proof.
  destruct (positional_encoding_init_ok 2 3) as (pe & Hi);
    [right; split; [reflexivity | discriminate]|].
  destruct (simple_positional_encoding_forward 2 3 (fun _ _ => 1%R)
              (zeros [1; 3; 2]) 1 3 eq_refl) as (H1 & _ & _).
  destruct (simple_positional_encoding_forward 2 3 (fun _ _ => 1%R)
              (zeros [1; 4; 2]) 1 4 eq_refl) as (_ & H2 & _).
  destruct (H1 (le_n 3)) as (r & Hr & _ & Hv).
  exists pe, r. split; [exact Hi|]. split; [exact Hr|]. split.
  - apply Hv; lia.
  - apply H2. lia.
Defined.
(** ** More on scaled_dot_product_attention *)

Lemma fsum_nan n f j : j < n -> f j = NaN -> fsum n f = NaN.
Proof.
  induction n as [|n IH]; intros Hj Hf; [lia|]. cbn [fsum].
  destruct (Nat.eq_dec j n) as [->|Hne].
  - rewrite Hf. destruct (fsum n f); reflexivity.
  - rewrite IH by (try assumption; lia). reflexivity.
Qed.

(** X4.  A query row whose mask row has no valid key comes out of
    [scaled_dot_product_attention] as NaN in every entry as soon as there is
    a key ([k_len > 0]), whatever [Q], [K] and [V] hold, in training as in
    evaluation mode.  Without any key ([k_len = 0]) the row comes out as 0,
    the empty sum. *)
Theorem fully_masked_row_is_nan (self : MultiHeadAttention.t)
        (Q K V : tensor fval) (mask : option (tensor bool)) (g : rng)
        (batch heads q_len k_len : nat) :
  shape Q = [batch; heads; q_len; MultiHeadAttention.d_k self] ->
  shape K = [batch; heads; k_len; MultiHeadAttention.d_k self] ->
  shape V = [batch; heads; k_len; MultiHeadAttention.d_k self] ->
  broadcastable_to mask [batch; heads; q_len; k_len] ->
  exists out g',
    MultiHeadAttention.scaled_dot_product_attention self Q K V mask g
      = Ok (out, g') /\
    forall b h i c, b < batch -> h < heads -> i < q_len ->
      c < MultiHeadAttention.d_k self ->
      ~ has_valid_key mask k_len b h i ->
      (0 < k_len -> at_ out [b; h; i; c] = NaN) /\
      (k_len = 0 -> at_ out [b; h; i; c] = Fin 0).
Proof.
  intros HQ HK HV Hm.
  destruct (sdpa_spec self Q K V mask g _ _ _ _ HQ HK HV Hm)
    as (out & Hr & _ & Hval).
  exists out, (Dropout.next (MultiHeadAttention.dropout self) g).
  split; [exact Hr|].
  intros b h i c Hb Hh Hi Hc Hnone. rewrite (Hval b h i c Hb Hh Hi Hc).
  unfold spec_attention. split.
  - intros Hk. apply fsum_nan with 0; [exact Hk|].
    rewrite softmax_row_all_masked; [| |exact Hk].
    + unfold spec_dropout. destruct (Dropout.training _); reflexivity.
    + intros j Hj. unfold spec_score.
      destruct (visible mask b h i j) eqn:E; [|reflexivity].
      exfalso. apply Hnone. exists j. split; assumption.
  - intros ->. reflexivity.
Qed.

Lemma fully_masked_row_is_nan_witness :
  exists sm tm out g',
    Transformer.create_mask (tokens2 0 0) (tokens2 0 0) = Ok (sm, tm) /\
    MultiHeadAttention.scaled_dot_product_attention unit_attention
      (zeros [1; 1; 2; 1]) (zeros [1; 1; 2; 1]) (ones [1; 1; 2; 1])
      (Some sm) keep_all = Ok (out, g') /\
    at_ out [0; 0; 1; 0] = NaN.
Proof.
  destruct (create_mask_spec (tokens2 0 0) (tokens2 0 0) 1 2 1 2 eq_refl eq_refl)
    as (sm & tm & Hc & Hss & _ & Hsv & _).
  destruct (fully_masked_row_is_nan unit_attention
              (zeros [1; 1; 2; 1]) (zeros [1; 1; 2; 1]) (ones [1; 1; 2; 1])
              (Some sm) keep_all 1 1 2 2 eq_refl eq_refl eq_refl)
    as (out & g' & Hr & Hnan).
  - apply (src_mask_broadcastable sm 1 1 2 2 Hss).
  - exists sm, tm, out, g'. split; [exact Hc|]. split; [exact Hr|].
    apply (Hnan 0 0 1 0); try lia; [cbn; lia|].
    intros (j & Hj & Hv).
    rewrite (visible_src_mask sm 1 2 0 0 1 j Hss) in Hv by lia.
    rewrite Hsv in Hv. destruct j as [|[|j]]; [discriminate | discriminate | lia].
Defined.

Lemma rsum_term_le n (e : nat -> R) j :
  (forall j', (0 <= e j')%R) -> j < n -> (e j <= rsum n e)%R.
Proof.
  intros Hnn. induction n as [|n IH]; intros Hj; [lia|]. cbn [rsum].
  destruct (Nat.eq_dec j n) as [->|Hne].
  - assert (0 <= rsum n e)%R by (apply rsum_nonneg; intros; apply Hnn). lra.
  - specialize (Hnn n). assert (e j <= rsum n e)%R by (apply IH; lia). lra.
Qed.

(** X5.  The attention weights of a query row that has a valid key and
    whose scores at the valid keys are finite numbers (neither NaN nor an
    infinity): every weight is a number between 0 and 1, every masked key
    gets exactly 0, and some valid key gets more than 0. *)
Theorem attention_weights_range (self : MultiHeadAttention.t)
        (mask : option (tensor bool)) (batch heads q_len k_len : nat) :
  broadcastable_to mask [batch; heads; q_len; k_len] ->
  (forall Q K,
     shape Q = [batch; heads; q_len; MultiHeadAttention.d_k self] ->
     shape K = [batch; heads; k_len; MultiHeadAttention.d_k self] ->
     exists scores w,
       raw_scores self Q K = Ok scores /\
       shape scores = [batch; heads; q_len; k_len] /\
       weights_of_scores scores mask = Ok w /\
       MultiHeadAttention.attention_weights self Q K mask = Ok w) /\
  (forall scores, shape scores = [batch; heads; q_len; k_len] ->
     exists w, weights_of_scores scores mask = Ok w /\
       forall b h i, b < batch -> h < heads -> i < q_len ->
         has_valid_key mask k_len b h i ->
         finite_valid_scores scores mask k_len b h i ->
         (forall j, j < k_len ->
            exists r, at_ w [b; h; i; j] = Fin r /\ (0 <= r <= 1)%R) /\
         (forall j, j < k_len -> visible mask b h i j = false ->
            at_ w [b; h; i; j] = Fin 0) /\
         (exists j r, j < k_len /\ visible mask b h i j = true /\
            at_ w [b; h; i; j] = Fin r /\ (0 < r)%R)).
Proof.
  intros Hm. split.
  - intros Q K HQ HK.
    exact (attention_weights_by_scores self Q K mask _ _ _ _ HQ HK Hm).
  - intros s Hs.
    destruct (weights_of_scores_spec s mask _ _ _ _ Hs Hm) as (w & Hw & _ & Hvw).
    exists w. split; [exact Hw|].
    intros b h i Hb Hh Hi (j0 & Hj0 & Hvis0) Hfin.
    set (row := masked_score s mask b h i).
    pose proof (masked_score_cases s mask k_len b h i Hfin) as Hcases.
    fold row in Hcases.
    assert (Hsl : forall j, j < k_len -> score_like (row j))
      by (intros j Hj; apply (Hcases j Hj)).
    assert (Hf0 : finite (row j0)) by (apply (Hcases j0 Hj0), Hvis0).
    destruct (softmax_row_value k_len row j0 Hsl Hj0 Hf0) as (m & _ & Hpos & Hval).
    set (e := fun j' => shifted_exp m (row j')) in *.
    assert (Hnn : forall j', (0 <= e j')%R) by (intros; apply shifted_exp_nonneg).
    split; [|split].
    + intros j Hj. rewrite (Hvw b h i j Hb Hh Hi Hj). fold row.
      rewrite (Hval j Hj). eexists. split; [reflexivity|].
      change (shifted_exp m (row j)) with (e j).
      pose proof (rsum_term_le k_len e j Hnn Hj) as Hle.
      specialize (Hnn j). split.
      * apply Rmult_le_pos; [exact Hnn|]. left. apply Rinv_0_lt_compat, Hpos.
      * apply (Rmult_le_reg_r (rsum k_len e)); [exact Hpos|].
        unfold Rdiv. rewrite Rmult_assoc, Rinv_l by lra. lra.
    + intros j Hj Hv. rewrite (Hvw b h i j Hb Hh Hi Hj). fold row.
      apply softmax_row_masked with j0; try assumption.
      apply (Hcases j Hj), Hv.
    + exists j0. eexists. split; [exact Hj0|]. split; [exact Hvis0|].
      rewrite (Hvw b h i j0 Hb Hh Hi Hj0). fold row. rewrite (Hval j0 Hj0).
      split; [reflexivity|].
      change (shifted_exp m (row j0)) with (e j0).
      apply Rdiv_lt_0_compat; [apply shifted_exp_pos, Hf0 | exact Hpos].
Qed.

Lemma attention_weights_range_witness :
  exists sm tm w r,
    Transformer.create_mask (tokens2 1 0) (tokens2 1 0) = Ok (sm, tm) /\
    weights_of_scores (zeros [1; 1; 2; 2]) (Some sm) = Ok w /\
    at_ w [0; 0; 1; 0] = Fin r /\ (0 <= r <= 1)%R /\
    at_ w [0; 0; 1; 1] = Fin 0.
Proof.
  destruct (create_mask_spec (tokens2 1 0) (tokens2 1 0) 1 2 1 2 eq_refl eq_refl)
    as (sm & tm & Hc & Hss & _ & Hsv & _).
  destruct (attention_weights_range unit_attention (Some sm) 1 1 2 2
              (src_mask_broadcastable sm 1 1 2 2 Hss)) as [_ Hr].
  destruct (Hr (zeros [1; 1; 2; 2]) eq_refl) as (w & Hw & Hrow).
  assert (Hv0 : visible (Some sm) 0 0 1 0 = true).
  { rewrite (visible_src_mask sm 1 2 0 0 1 0 Hss) by lia. rewrite Hsv.
    reflexivity. }
  assert (Hv1 : visible (Some sm) 0 0 1 1 = false).
  { rewrite (visible_src_mask sm 1 2 0 0 1 1 Hss) by lia. rewrite Hsv.
    reflexivity. }
  destruct (Hrow 0 0 1) as (Hrange & Hmasked & _); try lia.
  - exists 0. split; [lia | exact Hv0].
  - intros j _ _. exact I.
  - destruct (Hrange 0) as (r & Hwr & Hrr); [lia|].
    exists sm, tm, w, r. split; [exact Hc|]. split; [exact Hw|].
    split; [exact Hwr|]. split; [exact Hrr|].
    apply Hmasked; [lia | exact Hv1].
Defined.

(** ** The constructors *)

Lemma multi_head_attention_init_inv d h p vq vk vv vo A :
  MultiHeadAttention.init d h p vq vk vv vo = Ok A ->
  h <> 0 /\ d mod h = 0 /\
  Dropout.training (MultiHeadAttention.dropout A) = true.
Proof.
  unfold MultiHeadAttention.init, py_mod.
  destruct (Nat.eqb_spec h 0) as [|Hh]; [discriminate|]. cbn [rbind].
  destruct (Nat.eqb_spec (d mod h) 0) as [Hm|]; [|discriminate].
  intros H. apply rbind_inv in H. destruct H as (drop & Hd & H).
  inversion H; subst A; clear H. cbn.
  unfold Dropout.init in Hd.
  destruct (Rlt_dec p 0); [discriminate|].
  destruct (Rlt_dec 1 p); [discriminate|]. inversion Hd.
  repeat split; assumption.
Qed.

Lemma dropout_init_inv p drop :
  Dropout.init p = Ok drop -> (0 <= p <= 1)%R /\ drop = Dropout.mk p true.
Proof.
  unfold Dropout.init.
  destruct (Rlt_dec p 0); [discriminate|].
  destruct (Rlt_dec 1 p); [discriminate|].
  intros H. inversion H. split; [lra | reflexivity].
Qed.

Lemma decoder_layer_init_sizes d h dff p vals l :
  DecoderLayer.init d h dff p vals = Ok l -> decoder_layer_sizes d l.
Proof.
  unfold DecoderLayer.init. intros H.
  apply rbind_inv in H. destruct H as (A & HA & H).
  apply rbind_inv in H. destruct H as (C & HC & H).
  apply rbind_inv in H. destruct H as (f & Hf & H).
  apply rbind_inv in H. destruct H as (drop & _ & H).
  inversion H; subst l; clear H.
  unfold FeedForward.init in Hf. apply rbind_inv in Hf.
  destruct Hf as (fd & _ & Hf). inversion Hf; subst f; clear Hf.
  unfold decoder_layer_sizes. cbn.
  split; [exact (multi_head_attention_init_sizes _ _ _ _ _ _ _ _ HA)|].
  split; [exact (multi_head_attention_init_sizes _ _ _ _ _ _ _ _ HC)|].
  split; [exists dff; unfold linear_sizes; cbn; repeat split|].
  unfold norm_sizes. cbn. repeat split; lra.
Qed.

Lemma build_list_length {A : Type} (f : nat -> result A) count start l :
  Transformer.build_list f start count = Ok l -> length l = count.
Proof.
  revert start l. induction count as [|count IH]; intros start l H; cbn in H.
  - inversion H. reflexivity.
  - apply rbind_inv in H. destruct H as (a & _ & H).
    apply rbind_inv in H. destruct H as (rest & Hrest & H).
    inversion H; subst l. cbn. f_equal. exact (IH _ _ Hrest).
Qed.

Lemma transformer_init_sizes_full sv tv d h n dff L p v self :
  Transformer.init sv tv d h n dff L p v = Ok self ->
  transformer_sizes d L tv self /\
  length (Transformer.encoder_layers self) = n /\
  length (Transformer.decoder_layers self) = n.
Proof.
  intros Hinit.
  pose proof (transformer_init_sizes _ _ _ _ _ _ _ _ _ _ Hinit) as Henc.
  unfold Transformer.init in Hinit.
  apply rbind_inv in Hinit. destruct Hinit as (pe & _ & H).
  apply rbind_inv in H. destruct H as (enc & Hencl & H).
  apply rbind_inv in H. destruct H as (dec & Hdecl & H).
  apply rbind_inv in H. destruct H as (drop & _ & H).
  inversion H; subst self; clear H.
  split; [|split].
  - split; [exact Henc|]. cbn. split; [reflexivity|]. split.
    + apply (build_list_Forall _ _ _ _ _
               (fun n0 a => decoder_layer_init_sizes _ _ _ _ _ a) Hdecl).
    + split; reflexivity.
  - cbn. exact (build_list_length _ _ _ _ Hencl).
  - cbn. exact (build_list_length _ _ _ _ Hdecl).
Qed.

(** X6.  The [Transformer] constructor returns exactly when the dropout
    probability lies in [[0, 1]], [d_model] is 1 or even and positive, and,
    unless [num_layers = 0], [num_heads] is positive and divides [d_model].
    The model it returns has [num_layers] encoder and decoder layers of the
    sizes [forward] relies on. *)
Theorem transformer_init_returns_iff
        (src_vocab_size tgt_vocab_size d_model num_heads num_layers d_ff
         max_seq_length : nat) (dropout : R) (v : Transformer.init_params) :
  ((exists self,
      Transformer.init src_vocab_size tgt_vocab_size d_model num_heads
        num_layers d_ff max_seq_length dropout v = Ok self) <->
   (0 <= dropout <= 1)%R /\
   (d_model = 1 \/ (Nat.even d_model = true /\ d_model <> 0)) /\
   (num_layers = 0 \/ (num_heads <> 0 /\ d_model mod num_heads = 0))) /\
  (forall self,
     Transformer.init src_vocab_size tgt_vocab_size d_model num_heads
       num_layers d_ff max_seq_length dropout v = Ok self ->
     transformer_sizes d_model max_seq_length tgt_vocab_size self /\
     length (Transformer.encoder_layers self) = num_layers /\
     length (Transformer.decoder_layers self) = num_layers).
Proof.
  split; [|intros self H; exact (transformer_init_sizes_full _ _ _ _ _ _ _ _ _ _ H)].
  split.
  - intros [self Hinit]. unfold Transformer.init in Hinit.
    apply rbind_inv in Hinit. destruct Hinit as (pe & Hpe & H).
    apply rbind_inv in H. destruct H as (enc & Hencl & H).
    apply rbind_inv in H. destruct H as (dec & _ & H).
    apply rbind_inv in H. destruct H as (drop & Hdrop & _).
    split; [exact (proj1 (dropout_init_inv _ _ Hdrop))|]. split.
    + destruct (Nat.eq_dec d_model 0) as [->|Hd0].
      * unfold PositionalEncoding.init in Hpe.
        rewrite build_table_zero in Hpe. discriminate.
      * destruct (Nat.even d_model) eqn:E; [right; split; [reflexivity|assumption]|].
        destruct (Nat.eq_dec d_model 1) as [->|Hd1]; [left; reflexivity|].
        assert (d_model <> 2) by (intros ->; discriminate).
        unfold PositionalEncoding.init in Hpe.
        rewrite build_table_odd in Hpe; [discriminate| |lia].
        rewrite <- Nat.negb_even, E. reflexivity.
    + destruct num_layers as [|k]; [left; reflexivity|right].
      cbn in Hencl. apply rbind_inv in Hencl. destruct Hencl as (l & Hl & _).
      unfold EncoderLayer.init in Hl.
      apply rbind_inv in Hl. destruct Hl as (A & HA & _).
      destruct (multi_head_attention_init_inv _ _ _ _ _ _ _ _ HA) as (Hh & Hm & _).
      split; assumption.
  - intros (Hp & Hd & Hl). destruct Hl as [->|[Hh Hm]].
    + unfold Transformer.init.
      destruct (positional_encoding_init_ok d_model max_seq_length Hd) as [pe ->].
      cbn [rbind Transformer.build_list]. rewrite (dropout_init_ok _ Hp).
      eexists; reflexivity.
    + apply transformer_init_ok; assumption.
Qed.

(** ** Degenerate inputs *)

Lemma linear_forward_error (W : Linear.t) (x : tensor fval) e :
  Linear.forward W x = Raise e -> e = RuntimeError.
Proof.
  unfold Linear.forward. destruct (rev (shape x)) as [|d s].
  - intros H. inversion H. reflexivity.
  - destruct (d =? Linear.in_features W); intros H; inversion H. reflexivity.
Qed.

(** With an empty batch the [view] of [split_heads] cannot infer its [-1]. *)
Lemma mha_empty_batch (A : MultiHeadAttention.t) (query key value : tensor fval)
      (mask : option (tensor bool)) (g : rng) s :
  shape query = 0 :: s ->
  MultiHeadAttention.forward A query key value mask g = Raise RuntimeError.
Proof.
  intros Hx. unfold MultiHeadAttention.forward.
  unfold mbind at 1.
  assert (Hsz : size query 0 = Ok 0) by (unfold size; rewrite Hx; reflexivity).
  rewrite Hsz. cbn [lift]. unfold mbind at 1.
  unfold MultiHeadAttention.split_heads.
  destruct (Linear.forward _ query) as [y|e] eqn:E; cbn [rbind lift].
  - unfold view. cbn [holes filter length]. unfold known. cbn [map].
    unfold prod at 2. cbn [fold_right Nat.mul Nat.eqb orb rbind].
    reflexivity.
  - rewrite (linear_forward_error _ _ _ E). reflexivity.
Qed.

(** X7.  [MultiHeadAttention.forward] raises a [RuntimeError] on every query
    whose batch dimension is 0, whatever the key, the value, the mask and
    the weights are. *)
Theorem multi_head_attention_empty_batch
        (self : MultiHeadAttention.t) (query key value : tensor fval)
        (mask : option (tensor bool)) (g : rng) (s : list nat) :
  shape query = 0 :: s ->
  MultiHeadAttention.forward self query key value mask g = Raise RuntimeError.
Proof. exact (mha_empty_batch self query key value mask g s). Qed.

Lemma multi_head_attention_empty_batch_witness :
  MultiHeadAttention.forward unit_attention (zeros [0; 2; 1]) (zeros [0; 2; 1])
    (zeros [0; 2; 1]) None keep_all = Raise RuntimeError.
Proof.
  apply (multi_head_attention_empty_batch unit_attention (zeros [0; 2; 1])
           (zeros [0; 2; 1]) (zeros [0; 2; 1]) None keep_all [2; 1]).
  reflexivity.
Defined.

(** X8.  [Transformer.forward] raises a [RuntimeError] on an empty batch of
    source sequences as soon as the model has one encoder layer: the
    embedding, the positional encoding and the dropout let the empty batch
    through, the attention of the first encoder layer does not. *)
Theorem transformer_forward_empty_batch
        (self : Transformer.t) (src tgt : tensor Z) (g : rng)
        (seq_len tgt_batch tgt_len d_model max_seq_length : nat) :
  encoder_sizes d_model max_seq_length self ->
  Transformer.encoder_layers self <> [] ->
  shape src = [0; seq_len] ->
  shape tgt = [tgt_batch; tgt_len] ->
  Transformer.forward self src tgt g = Raise RuntimeError.
Proof.
  intros (Hed & Hpe & _) Hl Hs Ht.
  destruct (create_mask_spec src tgt 0 seq_len tgt_batch tgt_len Hs Ht)
    as (src_mask & tgt_mask & Hm & _).
  unfold Transformer.forward. rewrite (mbind_lift_ok _ _ _ g Hm).
  unfold mbind at 1. unfold Transformer.encode.
  assert (He : Embedding.forward (Transformer.encoder_embedding self) src
               = Ok (mkT [0; seq_len; d_model]
                      (fun idx => Fin (Embedding.weight
                         (Transformer.encoder_embedding self)
                         (Z.to_nat (at_ src (init_of idx))) (last_of idx))))).
  { unfold Embedding.forward. rewrite Hs, Hed. reflexivity. }
  match type of He with
  | _ = Ok ?e0 => set (e := e0) in *
  end.
  rewrite (mbind_lift_ok _ _ _ g He).
  rewrite (positional_encoding_forward_cases d_model max_seq_length _ e 0 seq_len
             Hpe eq_refl).
  destruct ((seq_len =? Nat.min seq_len max_seq_length) || (seq_len =? 1)
            || (Nat.min seq_len max_seq_length =? 1)); [|reflexivity].
  match goal with
  | |- context [lift (Ok ?p)] => set (p0 := p)
  end.
  unfold mbind at 1. cbn [lift]. unfold mbind at 1.
  destruct (dropout_forward_next (Transformer.dropout self) p0 g)
    as (y & -> & Hy & _).
  destruct (Transformer.encoder_layers self) as [|l rest]; [congruence|].
  cbn [Transformer.run_encoder]. unfold mbind at 1.
  unfold EncoderLayer.forward. unfold mbind at 1.
  rewrite (mha_empty_batch _ y y y _ _ _ Hy). reflexivity.
Qed.

Lemma transformer_forward_empty_batch_witness :
  exists self,
    Transformer.init 3 3 2 1 1 2 4 (1 / 10) zero_params = Ok self /\
    Transformer.forward self (mkT [0; 2] (fun _ => 1%Z)) (tokens2 1 2) keep_all
      = Raise RuntimeError.
Proof.
  destruct (transformer_init_ok 3 3 2 1 1 2 4 (1 / 10) zero_params)
    as [self Hinit];
    [right; split; [reflexivity | discriminate] | discriminate | reflexivity
     | lra |].
  exists self. split; [exact Hinit|].
  apply (transformer_forward_empty_batch self (mkT [0; 2] (fun _ => 1%Z))
           (tokens2 1 2) keep_all 2 1 2 2 4
           (transformer_init_sizes _ _ _ _ _ _ _ _ _ _ Hinit)).
  - destruct (transformer_init_sizes_full _ _ _ _ _ _ _ _ _ _ Hinit)
      as (_ & Hlen & _).
    intros E. rewrite E in Hlen. discriminate.
  - reflexivity.
  - reflexivity.
Defined.

(** X9.  [create_mask] raises an [IndexError] exactly when [src] has no
    dimension or [tgt] has fewer than two: the only statements of it that
    index a dimension are the [unsqueeze] calls and [tgt.size(1)]. *)
Theorem create_mask_index_error (src tgt : tensor Z) :
  Transformer.create_mask src tgt = Raise IndexError <->
  rank src = 0 \/ rank tgt < 2.
Proof.
  unfold Transformer.create_mask, unsqueeze, size, tand, tzip, rank, ne0, tmap.
  cbn [shape].
  destruct (shape src) as [|a s].
  - cbn. split; [intros _; left; reflexivity | reflexivity].
  - cbn [length Nat.leb rbind firstn skipn app shape].
    destruct (shape tgt) as [|b [|c t]].
    + cbn. split; [intros _; right; lia | reflexivity].
    + cbn. split; [intros _; right; lia | reflexivity].
    + cbn [length Nat.leb rbind firstn skipn app shape nth_error].
      split.
      * destruct (broadcast_shapes _ _); cbn [rbind]; discriminate.
      * cbn. intros [H|H]; [discriminate | lia].
Qed.

(** ** Attention between two sequences *)

Lemma mha_spec (A : MultiHeadAttention.t) (query key value : tensor fval)
      (mask : option (tensor bool)) (g : rng) B T S d :
  shape query = [B; T; d] -> shape key = [B; S; d] -> shape value = [B; S; d] ->
  attention_sizes d A -> B <> 0 -> d <> 0 ->
  broadcastable_to mask [B; MultiHeadAttention.num_heads A; T; S] ->
  exists y Qh Kh Vh,
    MultiHeadAttention.forward A query key value mask g
      = Ok (y, Dropout.next (MultiHeadAttention.dropout A) g) /\
    shape y = [B; T; d] /\
    (forall b h i c,
       h < MultiHeadAttention.num_heads A -> i < T ->
       c < MultiHeadAttention.d_k A ->
       at_ Qh [b; h; i; c] =
         Linear.apply_row (MultiHeadAttention.W_q A)
                          (fun k => at_ query [b; i; k])
                          (h * MultiHeadAttention.d_k A + c)) /\
    (forall b h j c,
       h < MultiHeadAttention.num_heads A -> j < S ->
       c < MultiHeadAttention.d_k A ->
       at_ Kh [b; h; j; c] =
         Linear.apply_row (MultiHeadAttention.W_k A)
                          (fun k => at_ key [b; j; k])
                          (h * MultiHeadAttention.d_k A + c) /\
       at_ Vh [b; h; j; c] =
         Linear.apply_row (MultiHeadAttention.W_v A)
                          (fun k => at_ value [b; j; k])
                          (h * MultiHeadAttention.d_k A + c)) /\
    forall b i o, b < B -> i < T ->
      at_ y [b; i; o] =
        Linear.apply_row (MultiHeadAttention.W_o A)
          (fun m => spec_attention (MultiHeadAttention.d_k A) S
                      (MultiHeadAttention.dropout A) g Qh Kh Vh mask
                      b (m / MultiHeadAttention.d_k A) i
                      (m mod MultiHeadAttention.d_k A)) o.
Proof.
  intros Hx Hkey Hval (Hdm & HH & Hd & Hq & Hk & Hv & Ho) HB Hd0 Hm.
  unfold MultiHeadAttention.forward.
  assert (Hsz : size query 0 = Ok B) by (unfold size; rewrite Hx; reflexivity).
  rewrite (mbind_lift_ok _ B _ g Hsz).
  destruct (split_heads_spec A _ query B T d Hx Hq Hd HB Hd0)
    as (Qh & HQ & HsQ & HvQ).
  destruct (split_heads_spec A _ key B S d Hkey Hk Hd HB Hd0)
    as (Kh & HK & HsK & HvK).
  destruct (split_heads_spec A _ value B S d Hval Hv Hd HB Hd0)
    as (Vh & HV & HsV & HvV).
  rewrite (mbind_lift_ok _ Qh _ g HQ), (mbind_lift_ok _ Kh _ g HK),
          (mbind_lift_ok _ Vh _ g HV).
  destruct (sdpa_spec A Qh Kh Vh mask g _ _ _ _ HsQ HsK HsV Hm)
    as (a & Ha & Hsa & Hva).
  unfold mbind at 1. rewrite Ha.
  set (g' := Dropout.next (MultiHeadAttention.dropout A) g).
  pose proof (transpose_1_2_rank4 a _ _ _ _ Hsa) as Ht.
  rewrite (mbind_lift_ok _ _ _ g' Ht).
  destruct (view_merge
              (mkT [B; T; MultiHeadAttention.num_heads A; MultiHeadAttention.d_k A]
                   (fun idx => at_ a (swap 1 2 idx)))
              B T _ _ eq_refl HB) as (mrg & Hmg & Hsm & Hvm);
    [rewrite <- Hd; exact Hd0|].
  rewrite <- Hd in Hmg, Hsm. rewrite Hdm.
  rewrite (mbind_lift_ok _ mrg _ g' Hmg).
  destruct (linear_spec _ mrg B T d d Hsm Ho) as (y & Hy & Hsy & Hvy).
  unfold lift. rewrite Hy.
  exists y, Qh, Kh, Vh. split; [reflexivity|]. split; [exact Hsy|].
  split; [exact HvQ|]. split.
  - intros b h j c Hh Hj Hc.
    rewrite (HvK b h j c Hh Hj Hc), (HvV b h j c Hh Hj Hc).
    split; reflexivity.
  - intros b i o Hb Hi. rewrite Hvy. apply linear_apply_row_ext.
    intros m Hmlt. destruct Ho as [Hin _]. rewrite Hin, Hd in Hmlt.
    rewrite (Hvm b i m Hi Hmlt). cbn [at_].
    change (swap 1 2 [b; i; m / MultiHeadAttention.d_k A;
                      m mod MultiHeadAttention.d_k A])
      with [b; m / MultiHeadAttention.d_k A; i; m mod MultiHeadAttention.d_k A].
    assert (Hdk : MultiHeadAttention.d_k A <> 0) by nia.
    apply Hva; [exact Hb | | exact Hi |].
    + apply Nat.Div0.div_lt_upper_bound. nia.
    + apply Nat.mod_upper_bound. exact Hdk.
Qed.

(** One query row of one head, in two runs: the output is finite when the
    row has a key it may attend to, and it is the same in both runs when
    the query, the mask of the row and the keys and values the row may
    attend to are. *)
Lemma attention_head_row dk S drop g (Q K V Q' K' V' : tensor fval)
      mask mask' b h i c :
  dk <> 0 -> c < dk ->
  (forall c, c < dk ->
     finite (at_ Q [b; h; i; c]) /\ finite (at_ Q' [b; h; i; c])) ->
  (forall j c, j < S -> c < dk ->
     finite (at_ K [b; h; j; c]) /\ finite (at_ V [b; h; j; c]) /\
     finite (at_ K' [b; h; j; c]) /\ finite (at_ V' [b; h; j; c])) ->
  has_valid_key mask S b h i -> has_valid_key mask' S b h i ->
  finite (spec_attention dk S drop g Q K V mask b h i c) /\
  finite (spec_attention dk S drop g Q' K' V' mask' b h i c) /\
  ((forall j, j < S -> visible mask b h i j = visible mask' b h i j) ->
   (forall c, c < dk -> at_ Q [b; h; i; c] = at_ Q' [b; h; i; c]) ->
   (forall j c, j < S -> c < dk -> visible mask b h i j = true ->
      at_ K [b; h; j; c] = at_ K' [b; h; j; c] /\
      at_ V [b; h; j; c] = at_ V' [b; h; j; c]) ->
   spec_attention dk S drop g Q K V mask b h i c =
   spec_attention dk S drop g Q' K' V' mask' b h i c).
Proof.
  intros Hdk Hc HfQ HfK (j0 & Hj0 & Hv0) (j1 & Hj1 & Hv1).
  assert (HsQ : forall j, j < S -> score_like (spec_score dk Q K mask b h i j)).
  { intros j Hj. apply spec_score_cases; [exact Hdk | |];
      intros c' Hc'; [apply (HfQ c' Hc') | apply (HfK j c' Hj Hc')]. }
  assert (HsQ' : forall j, j < S -> score_like (spec_score dk Q' K' mask' b h i j)).
  { intros j Hj. apply spec_score_cases; [exact Hdk | |];
      intros c' Hc'; [apply (HfQ c' Hc') | apply (HfK j c' Hj Hc')]. }
  assert (Hf0 : finite (spec_score dk Q K mask b h i j0)).
  { apply spec_score_cases; [exact Hdk | | | exact Hv0];
      intros c' Hc'; [apply (HfQ c' Hc') | apply (HfK j0 c' Hj0 Hc')]. }
  assert (Hf1 : finite (spec_score dk Q' K' mask' b h i j1)).
  { apply spec_score_cases; [exact Hdk | | | exact Hv1];
      intros c' Hc'; [apply (HfQ c' Hc') | apply (HfK j1 c' Hj1 Hc')]. }
  split; [|split].
  - unfold spec_attention. apply fsum_finite. intros j Hj.
    apply finite_fmul; [|apply (HfK j c Hj Hc)].
    apply finite_spec_dropout. apply softmax_row_finite with j0; assumption.
  - unfold spec_attention. apply fsum_finite. intros j Hj.
    apply finite_fmul; [|apply (HfK j c Hj Hc)].
    apply finite_spec_dropout. apply softmax_row_finite with j1; assumption.
  - intros Hvis HeQ HeK. unfold spec_attention. apply fsum_ext. intros j Hj.
    assert (Hrow : forall j', j' < S ->
              spec_score dk Q K mask b h i j' = spec_score dk Q' K' mask' b h i j').
    { intros j' Hj'. unfold spec_score. rewrite <- (Hvis j' Hj').
      destruct (visible mask b h i j') eqn:E; [|reflexivity].
      f_equal. apply fsum_ext. intros c' Hc'.
      rewrite (HeQ c' Hc').
      destruct (HeK j' c' Hj' Hc' E) as (-> & _). reflexivity. }
    rewrite <- (softmax_row_ext S _ _ j Hrow Hj).
    destruct (visible mask b h i j) eqn:E.
    + destruct (HeK j c Hj Hc E) as (_ & ->). reflexivity.
    + assert (Hz : softmax_row S (spec_score dk Q K mask b h i) j = Fin 0).
      { apply softmax_row_masked with j0; try assumption.
        apply spec_score_cases; [exact Hdk | | | exact E];
          intros c' Hc'; [apply (HfQ c' Hc') | apply (HfK j c' Hj Hc')]. }
      rewrite Hz. rewrite !masked_term; [reflexivity | |];
        apply (HfK j c Hj Hc).
Qed.

(** Every entry of [x] is a finite number. *)
Lemma related_finite B S d len (x x' : tensor fval) :
  related B S d len x x' -> (forall b, b < B -> 0 < len b) ->
  forall b i c, b < B -> i < S -> c < d ->
    finite (at_ x [b; i; c]) /\ finite (at_ x' [b; i; c]).
Proof.
  intros (_ & _ & _ & Hf & Hf') Hpos b i c Hb Hi Hc.
  split; [apply Hf | apply Hf']; try assumption; apply Hpos, Hb.
Qed.

(** Attention of the queries [x], [x'] over the keys and values [kv], [kv']
    under the masks [mask], [mask'] of the two runs. *)
Lemma related_attention_gen (A : MultiHeadAttention.t) (mask mask' : tensor bool)
      (g : rng) B T S d len (x x' kv kv' : tensor fval) :
  attention_sizes d A -> B <> 0 -> d <> 0 ->
  (forall b, b < B -> 0 < len b <= T) ->
  broadcastable_to (Some mask) [B; MultiHeadAttention.num_heads A; T; S] ->
  broadcastable_to (Some mask') [B; MultiHeadAttention.num_heads A; T; S] ->
  related B T d len x x' ->
  related B S d (fun _ => S) kv kv ->
  related B S d (fun _ => S) kv' kv' ->
  0 < S ->
  (forall b h i, b < B -> i < T ->
     has_valid_key (Some mask) S b h i /\ has_valid_key (Some mask') S b h i) ->
  (forall b h i j, b < B -> i < len b -> j < S ->
     visible (Some mask) b h i j = visible (Some mask') b h i j) ->
  (forall b h i j c, b < B -> i < len b -> j < S -> c < d ->
     visible (Some mask) b h i j = true -> at_ kv [b; j; c] = at_ kv' [b; j; c]) ->
  exists a a',
    MultiHeadAttention.forward A x kv kv (Some mask) g
      = Ok (a, Dropout.next (MultiHeadAttention.dropout A) g) /\
    MultiHeadAttention.forward A x' kv' kv' (Some mask') g
      = Ok (a', Dropout.next (MultiHeadAttention.dropout A) g) /\
    related B T d len a a'.
Proof.
  intros HA HB Hd0 Hlen Hbm Hbm' Hrel Hkv Hkv' HS Hvalid Hvis Hsame.
  pose proof Hrel as (Hsx & Hsx' & Hag & _).
  pose proof Hkv as (Hsk & _). pose proof Hkv' as (Hsk' & _).
  destruct (mha_spec A x kv kv (Some mask) g B T S d Hsx Hsk Hsk HA HB Hd0 Hbm)
    as (a & Qh & Kh & Vh & Ha & Hsa & HQ & HK & Hva).
  destruct (mha_spec A x' kv' kv' (Some mask') g B T S d Hsx' Hsk' Hsk' HA HB Hd0 Hbm')
    as (a' & Qh' & Kh' & Vh' & Ha' & Hsa' & HQ' & HK' & Hva').
  exists a, a'. split; [exact Ha|]. split; [exact Ha'|].
  destruct HA as (_ & HH & Hd & [Hqi _] & [Hki _] & [Hvi _] & [Hoi _]).
  set (H := MultiHeadAttention.num_heads A) in *.
  set (dk := MultiHeadAttention.d_k A) in *.
  assert (Hdk : dk <> 0) by nia.
  assert (Hfx := related_finite B T d len x x' Hrel (fun b Hb => proj1 (Hlen b Hb))).
  assert (Hfk := related_finite B S d _ kv kv Hkv (fun _ _ => HS)).
  assert (Hfk' := related_finite B S d _ kv' kv' Hkv' (fun _ _ => HS)).
  assert (Hhead : forall b h i c, b < B -> h < H -> i < T -> c < dk ->
              finite (spec_attention dk S (MultiHeadAttention.dropout A) g
                        Qh Kh Vh (Some mask) b h i c) /\
              finite (spec_attention dk S (MultiHeadAttention.dropout A) g
                        Qh' Kh' Vh' (Some mask') b h i c) /\
              (i < len b ->
               spec_attention dk S (MultiHeadAttention.dropout A) g
                 Qh Kh Vh (Some mask) b h i c =
               spec_attention dk S (MultiHeadAttention.dropout A) g
                 Qh' Kh' Vh' (Some mask') b h i c)).
  { intros b h i c Hb Hh0 Hi Hc.
    destruct (attention_head_row dk S (MultiHeadAttention.dropout A) g
                Qh Kh Vh Qh' Kh' Vh' (Some mask) (Some mask') b h i c Hdk Hc)
      as (F1 & F2 & E).
    - intros c' Hc'. rewrite (HQ b h i c' Hh0 Hi Hc'), (HQ' b h i c' Hh0 Hi Hc').
      split; apply linear_apply_row_finite; intros k Hk; apply Hfx;
        try assumption; lia.
    - intros j c' Hj Hc'.
      destruct (HK b h j c' Hh0 Hj Hc') as (-> & ->).
      destruct (HK' b h j c' Hh0 Hj Hc') as (-> & ->).
      repeat split; apply linear_apply_row_finite; intros k Hk;
        first [apply Hfk | apply Hfk']; try assumption; lia.
    - apply (Hvalid b h i Hb Hi).
    - apply (Hvalid b h i Hb Hi).
    - split; [exact F1|]. split; [exact F2|]. intros Hil. apply E.
      + intros j Hj. apply Hvis; assumption.
      + intros c' Hc'. rewrite (HQ b h i c' Hh0 Hi Hc'), (HQ' b h i c' Hh0 Hi Hc').
        apply linear_apply_row_ext. intros k Hk. apply Hag; try assumption; lia.
      + intros j c' Hj Hc' Hv.
        destruct (HK b h j c' Hh0 Hj Hc') as (-> & ->).
        destruct (HK' b h j c' Hh0 Hj Hc') as (-> & ->).
        split; apply linear_apply_row_ext; intros k Hk;
          apply (Hsame b h i j k Hb Hil Hj); try assumption; lia. }
  assert (Hm : forall m, m < d -> m / dk < H /\ m mod dk < dk).
  { intros m Hm. split.
    - apply Nat.Div0.div_lt_upper_bound. nia.
    - apply Nat.mod_upper_bound. exact Hdk. }
  split; [exact Hsa|]. split; [exact Hsa'|]. split; [|split].
  - intros b i c Hb Hi Hc.
    assert (HiT : i < T) by (specialize (Hlen b Hb); lia).
    rewrite (Hva b i c Hb HiT), (Hva' b i c Hb HiT).
    apply linear_apply_row_ext. intros m Hmlt. rewrite Hoi in Hmlt.
    destruct (Hm m Hmlt) as [Hh0 Hc0].
    apply (Hhead b (m / dk) i (m mod dk) Hb Hh0 HiT Hc0). exact Hi.
  - intros b i c Hb Hl Hi Hc. rewrite (Hva b i c Hb Hi).
    apply linear_apply_row_finite. intros m Hmlt. rewrite Hoi in Hmlt.
    destruct (Hm m Hmlt) as [Hh0 Hc0].
    apply (Hhead b (m / dk) i (m mod dk) Hb Hh0 Hi Hc0).
  - intros b i c Hb Hl Hi Hc. rewrite (Hva' b i c Hb Hi).
    apply linear_apply_row_finite. intros m Hmlt. rewrite Hoi in Hmlt.
    destruct (Hm m Hmlt) as [Hh0 Hc0].
    apply (Hhead b (m / dk) i (m mod dk) Hb Hh0 Hi Hc0).
Qed.

(** ** The blocks of a layer, in two runs *)

Lemma related_self B S d len (x x' : tensor fval) :
  related B S d len x x' -> (forall b, b < B -> 0 < len b) ->
  related B S d (fun _ => S) x x /\ related B S d (fun _ => S) x' x'.
Proof.
  intros (Hs & Hs' & _ & Hf & Hf') Hpos.
  split; (split; [assumption|]; split; [assumption|]; split;
          [intros b i c _ _ _; reflexivity|]);
    split; intros b i c Hb _ Hi Hc;
    first [apply Hf | apply Hf']; try assumption; apply Hpos, Hb.
Qed.

Lemma residual_block_related (drop : Dropout.t) (N : LayerNorm.t) (g : rng)
      B S d len (x x' s s' : tensor fval) :
  norm_sizes d N -> (forall b, b < B -> len b <= S) ->
  related B S d len x x' -> related B S d len s s' ->
  exists y y',
    (forall (C : Type) (k : tensor fval -> M C),
       mbind (Dropout.forward drop s)
             (fun dr => mbind (lift (tadd x dr))
                (fun r => mbind (lift (LayerNorm.forward N r)) k)) g
       = k y (Dropout.next drop g)) /\
    (forall (C : Type) (k : tensor fval -> M C),
       mbind (Dropout.forward drop s')
             (fun dr => mbind (lift (tadd x' dr))
                (fun r => mbind (lift (LayerNorm.forward N r)) k)) g
       = k y' (Dropout.next drop g)) /\
    mbind (Dropout.forward drop s)
          (fun dr => mbind (lift (tadd x dr))
             (fun r => lift (LayerNorm.forward N r))) g
      = Ok (y, Dropout.next drop g) /\
    mbind (Dropout.forward drop s')
          (fun dr => mbind (lift (tadd x' dr))
             (fun r => lift (LayerNorm.forward N r))) g
      = Ok (y', Dropout.next drop g) /\
    related B S d len y y'.
Proof.
  intros HN Hlen Hrx Hrs.
  pose proof Hrx as (Hsx & Hsx' & _). pose proof Hrs as (Hss & Hss' & _).
  destruct (residual_norm_spec drop N x s g B S d Hsx Hss HN)
    as (y & Hk & Hy & Hsy & Hvy).
  destruct (residual_norm_spec drop N x' s' g B S d Hsx' Hss' HN)
    as (y' & Hk' & Hy' & Hsy' & Hvy').
  exists y, y'. repeat (split; [assumption|]).
  apply (related_pointwise2 (residual_row drop N g d)
           B S d len x x' s s' y y' Hrx Hrs Hsy Hsy' Hvy Hvy');
    [| |exact Hlen].
  - intros. apply residual_row_ext; assumption.
  - intros. apply residual_row_finite; try assumption. apply HN.
Qed.

Lemma feed_forward_bind (f : FeedForward.t) (x : tensor fval) (g : rng) B S d :
  shape x = [B; S; d] -> feed_forward_sizes d f ->
  exists y,
    FeedForward.forward f x g = Ok (y, Dropout.next (FeedForward.dropout f) g) /\
    shape y = [B; S; d] /\
    forall b i c, at_ y [b; i; c] =
      feed_forward_row f g b i (fun k => at_ x [b; i; k]) c.
Proof.
  intros Hx HF.
  destruct (feed_forward_spec f x (fun t => ret t) g B S d Hx HF)
    as (y & Hy & Hsy & Hvy).
  exists y. split; [|split; assumption].
  unfold mbind in Hy.
  destruct (FeedForward.forward f x g) as [[t gt]|e]; [|discriminate].
  unfold ret in Hy. inversion Hy; subst. reflexivity.
Qed.

Lemma feed_forward_related (f : FeedForward.t) (g : rng) B S d len
      (x x' : tensor fval) :
  feed_forward_sizes d f -> (forall b, b < B -> len b <= S) ->
  related B S d len x x' ->
  exists y y',
    FeedForward.forward f x g = Ok (y, Dropout.next (FeedForward.dropout f) g) /\
    FeedForward.forward f x' g = Ok (y', Dropout.next (FeedForward.dropout f) g) /\
    related B S d len y y'.
Proof.
  intros HF Hlen Hrel. pose proof Hrel as (Hsx & Hsx' & _).
  destruct (feed_forward_bind f x g B S d Hsx HF) as (y & Hy & Hsy & Hvy).
  destruct (feed_forward_bind f x' g B S d Hsx' HF) as (y' & Hy' & Hsy' & Hvy').
  exists y, y'. split; [exact Hy|]. split; [exact Hy'|].
  apply (related_pointwise (feed_forward_row f g) B S d d len x x' y y'
           Hrel Hsy Hsy');
    [intros; apply Hvy | intros; apply Hvy' | | | exact Hlen].
  - intros. apply feed_forward_row_ext with d; assumption.
  - intros. apply feed_forward_row_finite with d; assumption.
Qed.

(** Attention over the source under a mask that leaves a key to every
    sequence. *)
Lemma cross_attention_related (A : MultiHeadAttention.t) (mask : tensor bool)
      (g : rng) B T S d len (x x' enc : tensor fval) :
  attention_sizes d A -> B <> 0 -> d <> 0 ->
  (forall b, b < B -> 0 < len b <= T) ->
  attendable B S mask ->
  related B T d len x x' ->
  related B S d (fun _ => S) enc enc ->
  exists a a',
    MultiHeadAttention.forward A x enc enc (Some mask) g
      = Ok (a, Dropout.next (MultiHeadAttention.dropout A) g) /\
    MultiHeadAttention.forward A x' enc enc (Some mask) g
      = Ok (a', Dropout.next (MultiHeadAttention.dropout A) g) /\
    related B T d len a a'.
Proof.
  intros HA HB Hd0 Hlen (Hsm & Hkey) Hrel Henc.
  assert (HS : 0 < S).
  { destruct (Hkey 0) as (j & Hj & _); lia. }
  apply related_attention_gen with (S := S); try assumption.
  - apply src_mask_broadcastable, Hsm.
  - apply src_mask_broadcastable, Hsm.
  - intros b h i Hb Hi. destruct (Hkey b Hb) as (j & Hj & Hv).
    assert (Hk : has_valid_key (Some mask) S b h i).
    { exists j. split; [exact Hj|].
      rewrite (visible_src_mask mask B S b h i j Hsm Hb Hj). exact Hv. }
    split; exact Hk.
  - reflexivity.
  - reflexivity.
Qed.

(** Attention of the target over itself under the causal masks of the two
    runs. *)
Lemma self_attention_related (A : MultiHeadAttention.t) (mask mask' : tensor bool)
      (g : rng) B T d len (x x' : tensor fval) :
  attention_sizes d A -> B <> 0 -> d <> 0 ->
  (forall b, b < B -> 0 < len b <= T) ->
  causal_pair B T len mask mask' ->
  related B T d len x x' ->
  exists a a',
    MultiHeadAttention.forward A x x x (Some mask) g
      = Ok (a, Dropout.next (MultiHeadAttention.dropout A) g) /\
    MultiHeadAttention.forward A x' x' x' (Some mask') g
      = Ok (a', Dropout.next (MultiHeadAttention.dropout A) g) /\
    related B T d len a a'.
Proof.
  intros HA HB Hd0 Hlen (Hsm & Hsm' & Hfirst & Hsame & Hcausal) Hrel.
  assert (HT : 0 < T) by (specialize (Hlen 0); lia).
  destruct (related_self B T d len x x' Hrel (fun b Hb => proj1 (Hlen b Hb)))
    as [Hxx Hxx'].
  apply related_attention_gen with (S := T); try assumption.
  - apply tgt_mask_broadcastable, Hsm.
  - apply tgt_mask_broadcastable, Hsm'.
  - intros b h i Hb Hi. destruct (Hfirst b i Hb Hi) as [H1 H2].
    split; exists 0; (split; [exact HT|]).
    + rewrite (visible_tgt_mask mask B T b h i 0 Hsm Hb Hi HT). exact H1.
    + rewrite (visible_tgt_mask mask' B T b h i 0 Hsm' Hb Hi HT). exact H2.
  - intros b h i j Hb Hi Hj.
    assert (HiT : i < T) by (specialize (Hlen b Hb); lia).
    rewrite (visible_tgt_mask mask B T b h i j Hsm Hb HiT Hj),
            (visible_tgt_mask mask' B T b h i j Hsm' Hb HiT Hj).
    apply Hsame; assumption.
  - intros b h i j c Hb Hi Hj Hc Hv.
    assert (HiT : i < T) by (specialize (Hlen b Hb); lia).
    rewrite (visible_tgt_mask mask B T b h i j Hsm Hb HiT Hj) in Hv.
    destruct Hrel as (_ & _ & Hag & _). apply Hag; try assumption.
    apply (Hcausal b i j Hb Hi Hj Hv).
Qed.

(** ** The decoder layer *)

Lemma decoder_layer_related (l : DecoderLayer.t) (tm tm' sm : tensor bool)
      (g : rng) B T S d len (x x' enc : tensor fval) :
  decoder_layer_sizes d l -> B <> 0 -> d <> 0 ->
  (forall b, b < B -> 0 < len b <= T) ->
  causal_pair B T len tm tm' -> attendable B S sm ->
  related B S d (fun _ => S) enc enc ->
  related B T d len x x' ->
  exists y y' g',
    DecoderLayer.forward l x enc (Some tm) (Some sm) g = Ok (y, g') /\
    DecoderLayer.forward l x' enc (Some tm') (Some sm) g = Ok (y', g') /\
    related B T d len y y'.
Proof.
  intros (HA & HC & HF & HN1 & HN2 & HN3) HB Hd0 Hlen Htm Hsm Henc Hrel.
  assert (Hle : forall b, b < B -> len b <= T)
    by (intros b Hb; specialize (Hlen b Hb); lia).
  destruct (self_attention_related _ tm tm' g B T d len x x'
              HA HB Hd0 Hlen Htm Hrel) as (a & a' & Ha & Ha' & Hra).
  set (g1 := Dropout.next
               (MultiHeadAttention.dropout (DecoderLayer.self_attention l)) g) in *.
  destruct (residual_block_related (DecoderLayer.dropout l) (DecoderLayer.norm1 l)
              g1 B T d len x x' a a' HN1 Hle Hrel Hra)
    as (x1 & x1' & Hx1 & Hx1' & _ & _ & Hr1).
  set (g2 := Dropout.next (DecoderLayer.dropout l) g1) in *.
  destruct (cross_attention_related _ sm g2 B T S d len x1 x1' enc
              HC HB Hd0 Hlen Hsm Hr1 Henc) as (c & c' & Hc & Hc' & Hrc).
  set (g3 := Dropout.next
               (MultiHeadAttention.dropout (DecoderLayer.cross_attention l)) g2) in *.
  destruct (residual_block_related (DecoderLayer.dropout l) (DecoderLayer.norm2 l)
              g3 B T d len x1 x1' c c' HN2 Hle Hr1 Hrc)
    as (x2 & x2' & Hx2 & Hx2' & _ & _ & Hr2).
  set (g4 := Dropout.next (DecoderLayer.dropout l) g3) in *.
  destruct (feed_forward_related (DecoderLayer.feed_forward l) g4 B T d len
              x2 x2' HF Hle Hr2) as (f & f' & Hf & Hf' & Hrf).
  set (g5 := Dropout.next (FeedForward.dropout (DecoderLayer.feed_forward l)) g4)
    in *.
  destruct (residual_block_related (DecoderLayer.dropout l) (DecoderLayer.norm3 l)
              g5 B T d len x2 x2' f f' HN3 Hle Hr2 Hrf)
    as (y & y' & _ & _ & Hy & Hy' & Hry).
  exists y, y', (Dropout.next (DecoderLayer.dropout l) g5).
  split; [|split; [|exact Hry]].
  - unfold DecoderLayer.forward. unfold mbind at 1. rewrite Ha.
    rewrite Hx1. unfold mbind at 1. rewrite Hc.
    rewrite Hx2. unfold mbind at 1. rewrite Hf. exact Hy.
  - unfold DecoderLayer.forward. unfold mbind at 1. rewrite Ha'.
    rewrite Hx1'. unfold mbind at 1. rewrite Hc'.
    rewrite Hx2'. unfold mbind at 1. rewrite Hf'. exact Hy'.
Qed.

Lemma run_decoder_related (layers : list DecoderLayer.t)
      (tm tm' sm : tensor bool) B T S d len (enc : tensor fval) :
  Forall (decoder_layer_sizes d) layers -> B <> 0 -> d <> 0 ->
  (forall b, b < B -> 0 < len b <= T) ->
  causal_pair B T len tm tm' -> attendable B S sm ->
  related B S d (fun _ => S) enc enc ->
  forall (g : rng) (x x' : tensor fval),
    related B T d len x x' ->
    exists y y' g',
      Transformer.run_decoder layers x enc tm sm g = Ok (y, g') /\
      Transformer.run_decoder layers x' enc tm' sm g = Ok (y', g') /\
      related B T d len y y'.
Proof.
  intros Hl HB Hd0 Hlen Htm Hsm Henc.
  induction Hl as [|l layers Hsz _ IH]; intros g x x' Hrel.
  - exists x, x', g. repeat split; try reflexivity; apply Hrel.
  - destruct (decoder_layer_related l tm tm' sm g B T S d len x x' enc
                Hsz HB Hd0 Hlen Htm Hsm Henc Hrel)
      as (y & y' & g1 & Hy & Hy' & Hr).
    destruct (IH g1 y y' Hr) as (z & z' & g2 & Hz & Hz' & Hrz).
    exists z, z', g2. cbn [Transformer.run_decoder]. unfold mbind.
    rewrite Hy, Hy'. repeat split; try assumption; apply Hrz.
Qed.

(** ** The encoder layer under any mask that leaves a key to every
    sequence *)

Lemma encoder_layer_finite (l : EncoderLayer.t) (sm : tensor bool)
      (g : rng) B S d (x : tensor fval) :
  encoder_layer_sizes d l -> B <> 0 -> d <> 0 ->
  attendable B S sm ->
  related B S d (fun _ => S) x x ->
  exists y g',
    EncoderLayer.forward l x (Some sm) g = Ok (y, g') /\
    related B S d (fun _ => S) y y.
Proof.
  intros (HA & HF & HN1 & HN2) HB Hd0 Hsm Hrel.
  assert (HS : 0 < S).
  { destruct Hsm as (_ & Hkey). destruct (Hkey 0) as (j & Hj & _); lia. }
  assert (Hlen : forall b, b < B -> 0 < (fun _ : nat => S) b <= S)
    by (intros; cbv beta; lia).
  assert (Hle : forall b, b < B -> (fun _ : nat => S) b <= S)
    by (intros; cbv beta; lia).
  destruct (cross_attention_related _ sm g B S S d (fun _ => S) x x x
              HA HB Hd0 Hlen Hsm Hrel Hrel) as (a & a' & Ha & Ha' & Hra).
  rewrite Ha in Ha'. inversion Ha'; subst a'; clear Ha'.
  set (g1 := Dropout.next
               (MultiHeadAttention.dropout (EncoderLayer.self_attention l)) g) in *.
  destruct (residual_block_related (EncoderLayer.dropout l) (EncoderLayer.norm1 l)
              g1 B S d _ x x a a HN1 Hle Hrel Hra)
    as (x1 & x1' & Hx1 & Hx1' & E1 & E1' & Hr1).
  rewrite E1 in E1'. inversion E1'; subst x1'; clear E1' Hx1'.
  set (g2 := Dropout.next (EncoderLayer.dropout l) g1) in *.
  destruct (feed_forward_related (EncoderLayer.feed_forward l) g2 B S d _
              x1 x1 HF Hle Hr1) as (f & f' & Hf & Hf' & Hrf).
  rewrite Hf in Hf'. inversion Hf'; subst f'; clear Hf'.
  set (g3 := Dropout.next (FeedForward.dropout (EncoderLayer.feed_forward l)) g2)
    in *.
  destruct (residual_block_related (EncoderLayer.dropout l) (EncoderLayer.norm2 l)
              g3 B S d _ x1 x1 f f HN2 Hle Hr1 Hrf)
    as (y & y' & _ & _ & Hy & Hy' & Hry).
  rewrite Hy in Hy'. inversion Hy'; subst y'; clear Hy'.
  exists y, (Dropout.next (EncoderLayer.dropout l) g3).
  split; [|exact Hry].
  unfold EncoderLayer.forward. unfold mbind at 1. rewrite Ha.
  rewrite Hx1. unfold mbind at 1. rewrite Hf. exact Hy.
Qed.

Lemma run_encoder_finite (layers : list EncoderLayer.t) (sm : tensor bool)
      B S d :
  Forall (encoder_layer_sizes d) layers -> B <> 0 -> d <> 0 ->
  attendable B S sm ->
  forall (g : rng) (x : tensor fval),
    related B S d (fun _ => S) x x ->
    exists y g',
      Transformer.run_encoder layers x sm g = Ok (y, g') /\
      related B S d (fun _ => S) y y.
Proof.
  intros Hl HB Hd0 Hsm.
  induction Hl as [|l layers Hsz _ IH]; intros g x Hrel.
  - exists x, g. split; [reflexivity | exact Hrel].
  - destruct (encoder_layer_finite l sm g B S d x Hsz HB Hd0 Hsm Hrel)
      as (y & g1 & Hy & Hr).
    destruct (IH g1 y Hr) as (z & g2 & Hz & Hrz).
    exists z, g2. cbn [Transformer.run_encoder]. unfold mbind.
    rewrite Hy. split; assumption.
Qed.

(** ** The whole model *)

Lemma embed_related_gen (E : Embedding.t) (P : PositionalEncoding.t)
      (drop : Dropout.t) (tok tok' : tensor Z) (g : rng) B S d L len :
  Embedding.embedding_dim E = d -> PositionalEncoding.init d L = Ok P ->
  shape tok = [B; S] -> shape tok' = [B; S] -> S <= L ->
  (forall b, b < B -> len b <= S) ->
  same_real_tokens B len tok tok' ->
  tokens_in_vocabulary E tok -> tokens_in_vocabulary E tok' ->
  exists e e' p p' x x',
    Embedding.forward E tok = Ok e /\
    Embedding.forward E tok' = Ok e' /\
    PositionalEncoding.forward P e = Ok p /\
    PositionalEncoding.forward P e' = Ok p' /\
    Dropout.forward drop p g = Ok (x, Dropout.next drop g) /\
    Dropout.forward drop p' g = Ok (x', Dropout.next drop g) /\
    related B S d len x x'.
Proof.
  intros Hed Hpe Hs Hs' HSL Hlen Htok Hval Hval'.
  pose proof (embedding_forward_ok _ tok Hval) as He.
  pose proof (embedding_forward_ok _ tok' Hval') as He'.
  rewrite Hs, Hed in He. rewrite Hs', Hed in He'. cbn [app] in He, He'.
  set (e := mkT [B; S; d] (fun idx =>
         Fin (Embedding.weight E (Z.to_nat (at_ tok (init_of idx)))
                (last_of idx)))) in He.
  set (e' := mkT [B; S; d] (fun idx =>
         Fin (Embedding.weight E (Z.to_nat (at_ tok' (init_of idx)))
                (last_of idx)))) in He'.
  destruct (positional_encoding_forward_fits d L _ e B S Hpe eq_refl HSL)
    as (p & Hp & Hsp & Hvp).
  destruct (positional_encoding_forward_fits d L _ e' B S Hpe eq_refl HSL)
    as (p' & Hp' & Hsp' & Hvp').
  destruct (dropout_forward_next drop p g) as (x & Hx & Hsx & Hvx).
  destruct (dropout_forward_next drop p' g) as (x' & Hx' & Hsx' & Hvx').
  exists e, e', p, p', x, x'. repeat (split; [assumption|]).
  destruct (init_table d L _ Hpe) as (t & _ & _ & _ & Hpt & Hvt).
  assert (Hfpe : forall i c, i < S -> c < d ->
            finite (at_ (PositionalEncoding.pe P) [0; i; c])).
  { intros i c Hi Hc. rewrite Hpt, Hvt by lia. destruct (Nat.even c); exact I. }
  split; [rewrite Hsx; exact Hsp|]. split; [rewrite Hsx'; exact Hsp'|].
  split; [|split].
  - intros b i c Hb Hi Hc.
    assert (HiS : i < S) by (specialize (Hlen b Hb); lia).
    rewrite Hvx, Hvx', (Hvp b i c Hb HiS Hc), (Hvp' b i c Hb HiS Hc).
    unfold e, e'. cbn [at_ init_of last_of length Nat.sub firstn last].
    rewrite (Htok b i Hb Hi). reflexivity.
  - intros b i c Hb _ Hi Hc. rewrite Hvx, (Hvp b i c Hb Hi Hc).
    apply finite_spec_dropout, finite_fadd; [|apply Hfpe; assumption].
    exact I.
  - intros b i c Hb _ Hi Hc. rewrite Hvx', (Hvp' b i c Hb Hi Hc).
    apply finite_spec_dropout, finite_fadd; [|apply Hfpe; assumption].
    exact I.
Qed.

(** The source mask of [create_mask] does not depend on the target. *)
Lemma create_mask_src_mask (src tgt tgt' : tensor Z) sm tm sm' tm' :
  Transformer.create_mask src tgt = Ok (sm, tm) ->
  Transformer.create_mask src tgt' = Ok (sm', tm') ->
  sm' = sm.
Proof.
  unfold Transformer.create_mask. intros H H'.
  apply rbind_inv in H. destruct H as (m1 & H1 & H).
  apply rbind_inv in H. destruct H as (m2 & H2 & H).
  apply rbind_inv in H. destruct H as (? & _ & H).
  apply rbind_inv in H. destruct H as (? & _ & H).
  apply rbind_inv in H. destruct H as (? & _ & H).
  apply rbind_inv in H. destruct H as (? & _ & H).
  inversion H; subst; clear H.
  rewrite H1 in H'. cbn [rbind] in H'. rewrite H2 in H'. cbn [rbind] in H'.
  apply rbind_inv in H'. destruct H' as (? & _ & H').
  apply rbind_inv in H'. destruct H' as (? & _ & H').
  apply rbind_inv in H'. destruct H' as (? & _ & H').
  apply rbind_inv in H'. destruct H' as (? & _ & H').
  inversion H'. reflexivity.
Qed.

(** Two runs of [forward] on the same source and on targets that agree on
    the first [len b] positions of every sequence [b]. *)
Lemma forward_related (self : Transformer.t) (src tgt tgt' : tensor Z)
      (g : rng) B S T d L V len :
  transformer_sizes d L V self ->
  shape src = [B; S] -> shape tgt = [B; T] -> shape tgt' = [B; T] ->
  B <> 0 -> S <= L -> T <= L ->
  (forall b, b < B -> 0 < len b <= T) ->
  same_real_tokens B len tgt tgt' ->
  has_real_token B S src -> starts_with_token B tgt ->
  tokens_in_vocabulary (Transformer.encoder_embedding self) src ->
  tokens_in_vocabulary (Transformer.decoder_embedding self) tgt ->
  tokens_in_vocabulary (Transformer.decoder_embedding self) tgt' ->
  exists out out' g',
    Transformer.forward self src tgt g = Ok (out, g') /\
    Transformer.forward self src tgt' g = Ok (out', g') /\
    related B T V len out out'.
Proof.
  intros ((Hee & Hpe & Henc) & Hde & Hdec & Hfin) Hs Ht Ht' HB HSL HTL Hlen
         Hpre Hreal Hstart Hvs Hvt Hvt'.
  pose proof (init_d_model_nonzero _ _ _ Hpe) as Hd0.
  assert (Hle : forall b, b < B -> len b <= T)
    by (intros b Hb; specialize (Hlen b Hb); lia).
  destruct (create_mask_spec src tgt B S B T Hs Ht)
    as (sm & tm & Hm & Hssm & Hstm & Hvsm & Hvtm).
  destruct (create_mask_spec src tgt' B S B T Hs Ht')
    as (sm' & tm' & Hm' & _ & Hstm' & _ & Hvtm').
  pose proof (create_mask_src_mask _ _ _ _ _ _ _ Hm Hm'). subst sm'.
  (* the masks *)
  assert (Hatt : attendable B S sm).
  { split; [exact Hssm|]. intros b Hb. destruct (Hreal b Hb) as (j & Hj & Hne).
    exists j. split; [exact Hj|]. rewrite Hvsm.
    destruct (Z.eqb_spec (at_ src [b; j]) 0); [contradiction | reflexivity]. }
  assert (Hstart' : forall b, b < B -> at_ tgt' [b; 0] <> 0%Z).
  { intros b Hb. rewrite <- (Hpre b 0 Hb) by (specialize (Hlen b Hb); lia).
    apply Hstart, Hb. }
  assert (Hcp : causal_pair B T len tm tm').
  { split; [exact Hstm|]. split; [exact Hstm'|]. split; [|split].
    - intros b i Hb Hi. assert (H0 : 0 < T) by lia.
      rewrite (Hvtm b i 0 Hb Hi H0), (Hvtm' b i 0 Hb Hi H0).
      cbn [Nat.leb]. rewrite !andb_true_r.
      specialize (Hstart b Hb). specialize (Hstart' b Hb).
      destruct (Z.eqb_spec (at_ tgt [b; 0]) 0); [contradiction|].
      destruct (Z.eqb_spec (at_ tgt' [b; 0]) 0); [contradiction|].
      split; reflexivity.
    - intros b i j Hb Hi Hj.
      assert (HiT : i < T) by (specialize (Hle b Hb); lia).
      rewrite (Hvtm b i j Hb HiT Hj), (Hvtm' b i j Hb HiT Hj).
      destruct (Nat.leb_spec j i) as [Hji|Hji];
        [|rewrite !andb_false_r; reflexivity].
      rewrite (Hpre b j Hb) by lia. reflexivity.
    - intros b i j Hb Hi Hj.
      assert (HiT : i < T) by (specialize (Hle b Hb); lia).
      rewrite (Hvtm b i j Hb HiT Hj).
      destruct (Nat.leb_spec j i) as [Hji|Hji];
        [intros _; lia | rewrite andb_false_r; discriminate]. }
  (* the encoder *)
  assert (HS : 0 < S).
  { destruct (Hreal 0) as (j & Hj & _); lia. }
  destruct (embed_related_gen (Transformer.encoder_embedding self)
              (Transformer.positional_encoding self) (Transformer.dropout self)
              src src g B S d L (fun _ => S) Hee Hpe Hs Hs HSL
              (fun _ _ => le_n S) (fun _ _ _ _ => eq_refl) Hvs Hvs)
    as (e & e0 & p & p0 & x & x0 & He & He0 & Hp & Hp0 & Hx & Hx0 & Hrx).
  rewrite He in He0. inversion He0; subst e0; clear He0.
  rewrite Hp in Hp0. inversion Hp0; subst p0; clear Hp0.
  rewrite Hx in Hx0. inversion Hx0; subst x0; clear Hx0.
  set (g0 := Dropout.next (Transformer.dropout self) g) in *.
  destruct (run_encoder_finite (Transformer.encoder_layers self) sm B S d
              Henc HB Hd0 Hatt g0 x Hrx) as (enc & g1 & Hrun & Hrenc).
  assert (Hencode : Transformer.encode self src sm g = Ok (enc, g1)).
  { unfold Transformer.encode.
    rewrite (mbind_lift_ok _ e _ g He), (mbind_lift_ok _ p _ g Hp).
    unfold mbind at 1. rewrite Hx. exact Hrun. }
  (* the decoder *)
  destruct (embed_related_gen (Transformer.decoder_embedding self)
              (Transformer.positional_encoding self) (Transformer.dropout self)
              tgt tgt' g1 B T d L len Hde Hpe Ht Ht' HTL Hle Hpre Hvt Hvt')
    as (te & te' & tp & tp' & tx & tx' & Hte & Hte' & Htp & Htp' & Htx & Htx'
        & Hrt).
  set (g2 := Dropout.next (Transformer.dropout self) g1) in *.
  destruct (run_decoder_related (Transformer.decoder_layers self) tm tm' sm
              B T S d len enc Hdec HB Hd0 Hlen Hcp Hatt Hrenc g2 tx tx' Hrt)
    as (y & y' & g3 & Hy & Hy' & Hry).
  pose proof Hry as (Hsy & Hsy' & _).
  destruct (linear_spec (Transformer.final_layer self) y B T d V Hsy Hfin)
    as (out & Hout & Hso & Hvo).
  destruct (linear_spec (Transformer.final_layer self) y' B T d V Hsy' Hfin)
    as (out' & Hout' & Hso' & Hvo').
  exists out, out', g3. split; [|split].
  - unfold Transformer.forward. rewrite (mbind_lift_ok _ _ _ g Hm).
    unfold mbind at 1. rewrite Hencode.
    unfold mbind at 1. unfold Transformer.decode.
    rewrite (mbind_lift_ok _ te _ g1 Hte), (mbind_lift_ok _ tp _ g1 Htp).
    unfold mbind at 1. rewrite Htx. rewrite Hy.
    apply lift_ok, Hout.
  - unfold Transformer.forward. rewrite (mbind_lift_ok _ _ _ g Hm').
    unfold mbind at 1. rewrite Hencode.
    unfold mbind at 1. unfold Transformer.decode.
    rewrite (mbind_lift_ok _ te' _ g1 Hte'), (mbind_lift_ok _ tp' _ g1 Htp').
    unfold mbind at 1. rewrite Htx'. rewrite Hy'.
    apply lift_ok, Hout'.
  - apply (related_pointwise
             (fun _ _ row c => Linear.apply_row (Transformer.final_layer self) row c)
             B T d V len y y' out out' Hry Hso Hso');
      [intros; apply Hvo | intros; apply Hvo' | | | exact Hle].
    + intros b i row row' c Hrow _. apply linear_apply_row_ext.
      intros k Hk. apply Hrow. destruct Hfin as [<- _]. exact Hk.
    + intros b i row c Hrow _. apply linear_apply_row_finite.
      intros k Hk. apply Hrow. destruct Hfin as [<- _]. exact Hk.
Qed.

Lemma transformer_init_embeddings sv tv d h n dff L p v self :
  Transformer.init sv tv d h n dff L p v = Ok self ->
  Transformer.encoder_embedding self
    = Embedding.mk sv d (Transformer.src_table v) /\
  Transformer.decoder_embedding self
    = Embedding.mk tv d (Transformer.tgt_table v).
Proof.
  unfold Transformer.init. intros H.
  apply rbind_inv in H. destruct H as (? & _ & H).
  apply rbind_inv in H. destruct H as (? & _ & H).
  apply rbind_inv in H. destruct H as (? & _ & H).
  apply rbind_inv in H. destruct H as (? & _ & H).
  inversion H. split; reflexivity.
Qed.

Lemma tokens2_in_vocabulary (E : Embedding.t) (a b : Z) :
  Embedding.valid E a = true -> Embedding.valid E b = true ->
  tokens_in_vocabulary E (tokens2 a b).
Proof.
  intros Ha Hb idx Hidx. cbn in Hidx.
  inversion Hidx as [|i ? ? ? _ Hidx']; subst.
  inversion Hidx' as [|j ? ? ? _ Hidx'']; subst.
  inversion Hidx''; subst.
  destruct j as [|j]; cbn; assumption.
Qed.

(** X10.  [Transformer.forward] returns on a batch that is not empty, whose
    sequences fit the positional table and hold tokens of the vocabularies,
    when every source sequence holds a token that is not padding and every
    target sequence starts with one: the logits have the shape
    [[batch, tgt_len, tgt_vocab_size]] and every one of them is a finite
    number (no NaN, no infinity). *)
Theorem transformer_forward_returns_finite
        (self : Transformer.t) (src tgt : tensor Z) (g : rng)
        (batch src_len tgt_len d_model max_seq_length tgt_vocab_size : nat) :
  transformer_sizes d_model max_seq_length tgt_vocab_size self ->
  shape src = [batch; src_len] ->
  shape tgt = [batch; tgt_len] ->
  batch <> 0 -> tgt_len <> 0 ->
  src_len <= max_seq_length -> tgt_len <= max_seq_length ->
  has_real_token batch src_len src ->
  starts_with_token batch tgt ->
  tokens_in_vocabulary (Transformer.encoder_embedding self) src ->
  tokens_in_vocabulary (Transformer.decoder_embedding self) tgt ->
  exists out g',
    Transformer.forward self src tgt g = Ok (out, g') /\
    shape out = [batch; tgt_len; tgt_vocab_size] /\
    forall b i c, b < batch -> i < tgt_len -> c < tgt_vocab_size ->
      finite (at_ out [b; i; c]).
Proof.
  intros Hsz Hs Ht HB HT HSL HTL Hreal Hstart Hvs Hvt.
  destruct (forward_related self src tgt tgt g batch src_len tgt_len d_model
              max_seq_length tgt_vocab_size (fun _ => tgt_len)
              Hsz Hs Ht Ht HB HSL HTL)
    as (out & out' & g' & Hout & _ & Hrel); try assumption.
  - intros b _. cbv beta. lia.
  - intros b j _ _. reflexivity.
  - exists out, g'. split; [exact Hout|].
    destruct Hrel as (Hso & _ & _ & Hf & _). split; [exact Hso|].
    intros b i c Hb Hi Hc. apply Hf; try assumption. cbv beta. lia.
Qed.

Lemma transformer_forward_returns_finite_witness :
  exists self out g',
    Transformer.init 3 3 2 1 1 2 4 (1 / 10) zero_params = Ok self /\
    Transformer.forward self (tokens2 1 0) (tokens2 1 2) keep_all
      = Ok (out, g') /\
    shape out = [1; 2; 3] /\ finite (at_ out [0; 1; 2]).
Proof.
  destruct (transformer_init_ok 3 3 2 1 1 2 4 (1 / 10) zero_params)
    as [self Hinit];
    [right; split; [reflexivity | discriminate] | discriminate | reflexivity
     | lra |].
  destruct (transformer_init_sizes_full _ _ _ _ _ _ _ _ _ _ Hinit) as (Hsz & _).
  destruct (transformer_init_embeddings _ _ _ _ _ _ _ _ _ _ Hinit) as (He & Hd).
  destruct (transformer_forward_returns_finite self (tokens2 1 0) (tokens2 1 2)
              keep_all 1 2 2 2 4 3 Hsz eq_refl eq_refl)
    as (out & g' & Hout & Hso & Hf).
  - discriminate.
  - discriminate.
  - lia.
  - lia.
  - intros b Hb. exists 0. split; [lia|]. cbn. discriminate.
  - intros b Hb. cbn. discriminate.
  - rewrite He. apply tokens2_in_vocabulary; reflexivity.
  - rewrite Hd. apply tokens2_in_vocabulary; reflexivity.
  - exists self, out, g'. repeat split; try assumption. apply Hf; lia.
Defined.

(** X11.  The decoder of [Transformer.forward] is causal.  On a batch that
    is not empty, whose sequences fit the positional table and hold tokens
    of the vocabularies, when every source sequence holds a token that is
    not padding and every target sequence starts with one: two runs on the
    same source, from the same state of the random generator, on targets
    that agree on the first [len b] positions of every sequence [b], return
    logits that are identical at those positions, whatever the targets hold
    from position [len b] on; both leave the generator in the same state.
    (Without a token that is not padding the logits are NaN, and nothing is
    said.) *)
Theorem decoder_causality
        (self : Transformer.t) (src tgt tgt' : tensor Z) (g : rng)
        (len : nat -> nat)
        (batch src_len tgt_len d_model max_seq_length tgt_vocab_size : nat) :
  transformer_sizes d_model max_seq_length tgt_vocab_size self ->
  shape src = [batch; src_len] ->
  shape tgt = [batch; tgt_len] ->
  shape tgt' = [batch; tgt_len] ->
  batch <> 0 ->
  src_len <= max_seq_length -> tgt_len <= max_seq_length ->
  (forall b, b < batch -> 0 < len b <= tgt_len) ->
  (forall b j, b < batch -> j < len b -> at_ tgt [b; j] = at_ tgt' [b; j]) ->
  has_real_token batch src_len src ->
  starts_with_token batch tgt ->
  tokens_in_vocabulary (Transformer.encoder_embedding self) src ->
  tokens_in_vocabulary (Transformer.decoder_embedding self) tgt ->
  tokens_in_vocabulary (Transformer.decoder_embedding self) tgt' ->
  exists out out' g',
    Transformer.forward self src tgt g = Ok (out, g') /\
    Transformer.forward self src tgt' g = Ok (out', g') /\
    forall b i c, b < batch -> i < len b -> c < tgt_vocab_size ->
      at_ out [b; i; c] = at_ out' [b; i; c].
Proof.
  intros Hsz Hs Ht Ht' HB HSL HTL Hlen Hpre Hreal Hstart Hvs Hvt Hvt'.
  destruct (forward_related self src tgt tgt' g batch src_len tgt_len d_model
              max_seq_length tgt_vocab_size len
              Hsz Hs Ht Ht' HB HSL HTL Hlen Hpre Hreal Hstart Hvs Hvt Hvt')
    as (out & out' & g' & Hout & Hout' & Hrel).
  exists out, out', g'. split; [exact Hout|]. split; [exact Hout'|].
  destruct Hrel as (_ & _ & Hsame & _). exact Hsame.
Qed.

Lemma decoder_causality_witness :
  exists self out out' g',
    Transformer.init 3 3 2 1 1 2 4 (1 / 10) ramp_params = Ok self /\
    Transformer.forward self (tokens2 1 0) (tokens2 1 2) keep_all
      = Ok (out, g') /\
    Transformer.forward self (tokens2 1 0) (tokens2 1 0) keep_all
      = Ok (out', g') /\
    at_ out [0; 0; 2] = at_ out' [0; 0; 2].
Proof.
  destruct (transformer_init_ok 3 3 2 1 1 2 4 (1 / 10) ramp_params)
    as [self Hinit];
    [right; split; [reflexivity | discriminate] | discriminate | reflexivity
     | lra |].
  destruct (transformer_init_sizes_full _ _ _ _ _ _ _ _ _ _ Hinit) as (Hsz & _).
  destruct (transformer_init_embeddings _ _ _ _ _ _ _ _ _ _ Hinit) as (He & Hd).
  destruct (decoder_causality self (tokens2 1 0) (tokens2 1 2) (tokens2 1 0)
              keep_all (fun _ => 1) 1 2 2 2 4 3 Hsz eq_refl eq_refl eq_refl)
    as (out & out' & g' & Hout & Hout' & Hsame).
  - discriminate.
  - lia.
  - lia.
  - intros b _. cbv beta. lia.
  - intros b j Hb Hj. destruct j as [|j]; [reflexivity | lia].
  - intros b Hb. exists 0. split; [lia|]. cbn. discriminate.
  - intros b Hb. cbn. discriminate.
  - rewrite He. apply tokens2_in_vocabulary; reflexivity.
  - rewrite Hd. apply tokens2_in_vocabulary; reflexivity.
  - rewrite Hd. apply tokens2_in_vocabulary; reflexivity.
  - exists self, out, out', g'. repeat split; try assumption.
    apply Hsame; lia.
Defined.




(** X13.  [FeedForward.forward] works on every position by itself: it
    returns a tensor of the shape of its input, and two inputs that hold the
    same row at a position give the same row at that position, from the same
    state of the random generator. *)
Theorem feed_forward_position_wise
        (self : FeedForward.t) (x x' : tensor fval) (g : rng)
        (batch seq_len d_model b i : nat) :
  shape x = [batch; seq_len; d_model] ->
  shape x' = [batch; seq_len; d_model] ->
  feed_forward_sizes d_model self ->
  b < batch -> i < seq_len ->
  (forall k, k < d_model -> at_ x [b; i; k] = at_ x' [b; i; k]) ->
  exists y y',
    FeedForward.forward self x g
      = Ok (y, Dropout.next (FeedForward.dropout self) g) /\
    FeedForward.forward self x' g
      = Ok (y', Dropout.next (FeedForward.dropout self) g) /\
    shape y = [batch; seq_len; d_model] /\
    shape y' = [batch; seq_len; d_model] /\
    forall c, at_ y [b; i; c] = at_ y' [b; i; c].
Proof.
  intros Hx Hx' HF Hb Hi Hrow.
  destruct (feed_forward_bind self x g batch seq_len d_model Hx HF)
    as (y & Hy & Hsy & Hvy).
  destruct (feed_forward_bind self x' g batch seq_len d_model Hx' HF)
    as (y' & Hy' & Hsy' & Hvy').
  exists y, y'. repeat (split; [assumption|]).
  intros c. rewrite Hvy, Hvy'.
  apply feed_forward_row_ext with d_model; assumption.
Qed.

Lemma feed_forward_position_wise_witness :
  exists y y',
    FeedForward.forward unit_feed_forward (rows2 1 2) keep_all
      = Ok (y, keep_all) /\
    FeedForward.forward unit_feed_forward (rows2 1 3) keep_all
      = Ok (y', keep_all) /\
    at_ y [0; 0; 0] = at_ y' [0; 0; 0].
Proof.
  destruct (feed_forward_position_wise unit_feed_forward (rows2 1 2) (rows2 1 3)
              keep_all 1 2 1 0 0 eq_refl eq_refl)
    as (y & y' & Hy & Hy' & _ & _ & Hsame).
  - exists 2. split; split; reflexivity.
  - lia.
  - lia.
  - intros k Hk. reflexivity.
  - exists y, y'. split; [exact Hy|]. split; [exact Hy'|]. apply Hsame.
Defined.

(** ** Properties of TranslationDataset *)

Lemma indices_inv (vocab : vocabulary) tokens l :
  TranslationDataset.indices vocab tokens = TranslationDataset.Return l ->
  length l = length tokens /\
  forall j tok, nth_error tokens j = Some tok ->
    get vocab tok = Some (nth j l 0%Z).
Proof.
  revert l. induction tokens as [|t tokens IH]; intros l H; cbn in H.
  - inversion H; subst l. split; [reflexivity|].
    intros j tok Hj. destruct j; discriminate.
  - destruct (get vocab t) as [v|] eqn:Ev; [|discriminate].
    destruct (TranslationDataset.indices vocab tokens) as [l'|e]; [|discriminate].
    inversion H; subst l; clear H.
    destruct (IH l' eq_refl) as [Hlen Hnth]. split; [cbn; f_equal; exact Hlen|].
    intros j tok Hj. destruct j as [|j]; cbn in Hj |- *.
    + inversion Hj; subst tok. exact Ev.
    + apply Hnth, Hj.
Qed.

Lemma indices_return (vocab : vocabulary) tokens :
  (forall tok, In tok tokens -> get vocab tok <> None) ->
  exists l, TranslationDataset.indices vocab tokens = TranslationDataset.Return l.
Proof.
  induction tokens as [|t tokens IH]; intros H; cbn.
  - eexists; reflexivity.
  - destruct (get vocab t) as [v|] eqn:Ev;
      [|exfalso; apply (H t); [left; reflexivity | exact Ev]].
    destruct IH as [l ->]; [intros tok Hin; apply H; right; exact Hin|].
    eexists; reflexivity.
Qed.

Lemma indices_raises (vocab : vocabulary) tokens e :
  TranslationDataset.indices vocab tokens = TranslationDataset.Raises e ->
  exists tok, e = TranslationDataset.KeyError tok /\ In tok tokens /\
              get vocab tok = None.
Proof.
  induction tokens as [|t tokens IH]; intros H; cbn in H; [discriminate|].
  destruct (get vocab t) as [v|] eqn:Ev.
  - destruct (TranslationDataset.indices vocab tokens) as [l'|e']; [discriminate|].
    inversion H; subst e'. destruct (IH eq_refl) as (tok & He & Hin & Hg).
    exists tok. split; [exact He|]. split; [right; exact Hin | exact Hg].
  - inversion H. exists t. split; [reflexivity|]. split; [left; reflexivity|exact Ev].
Qed.

Lemma pad_length m (l : list Z) :
  length (TranslationDataset.pad m (firstn m l)) = m.
Proof.
  unfold TranslationDataset.pad. rewrite length_app, repeat_length, length_firstn.
  lia.
Qed.

Lemma pad_nth m (l : list Z) j :
  j < m -> nth j (TranslationDataset.pad m (firstn m l)) 0%Z = nth j l 0%Z.
Proof.
  intros Hj. unfold TranslationDataset.pad.
  destruct (Nat.lt_ge_cases j (length l)) as [Hlt|Hge].
  - rewrite app_nth1 by (rewrite length_firstn; lia).
    rewrite <- (firstn_skipn m l) at 2.
    rewrite app_nth1 by (rewrite length_firstn; lia). reflexivity.
  - rewrite (nth_overflow l) by exact Hge.
    destruct (Nat.lt_ge_cases j (length (firstn m l))) as [Hlt'|Hge'].
    + rewrite length_firstn in Hlt'. lia.
    + rewrite app_nth2 by exact Hge'.
      destruct (nth_in_or_default (j - length (firstn m l))
                  (repeat 0%Z (m - length (firstn m l))) 0%Z) as [Hin|E];
        [apply repeat_spec in Hin; exact Hin | exact E].
Qed.

(** What an item that [getitem] returns holds. *)
Lemma getitem_inv split (self : TranslationDataset.t) idx s t it :
  py_nth (TranslationDataset.data self) idx = Some (s, t) ->
  TranslationDataset.getitem split self idx = TranslationDataset.Return it ->
  exists ls lt,
    TranslationDataset.indices (TranslationDataset.src_vocab self) (split s)
      = TranslationDataset.Return ls /\
    TranslationDataset.indices (TranslationDataset.tgt_vocab self) (split t)
      = TranslationDataset.Return lt /\
    shape (TranslationDataset.src it) = [TranslationDataset.max_length self] /\
    shape (TranslationDataset.tgt it) = [TranslationDataset.max_length self] /\
    forall j, j < TranslationDataset.max_length self ->
      at_ (TranslationDataset.src it) [j] = nth j ls 0%Z /\
      at_ (TranslationDataset.tgt it) [j] = nth j lt 0%Z.
Proof.
  intros Hd H. unfold TranslationDataset.getitem in H. rewrite Hd in H.
  destruct (TranslationDataset.indices _ (split s)) as [ls|e]; [|discriminate].
  destruct (TranslationDataset.indices _ (split t)) as [lt|e]; [|discriminate].
  inversion H; subst it; clear H. exists ls, lt.
  split; [reflexivity|]. split; [reflexivity|].
  cbn [TranslationDataset.src TranslationDataset.tgt tensor_of_list shape at_].
  rewrite !pad_length. split; [reflexivity|]. split; [reflexivity|].
  intros j Hj. split; apply pad_nth, Hj.
Qed.

(** X14.  For an index of the data and vocabularies whose indices fit the
    64-bit integers of [torch.tensor], [TranslationDataset.__getitem__]
    returns if and only if every word of the two texts is a key of its
    vocabulary, the words beyond [max_length] included: the texts are
    converted before they are cut.  What it raises otherwise is the
    [KeyError] of a word that is not a key. *)
Theorem getitem_returns_iff
        (split : String.string -> list String.string)
        (self : TranslationDataset.t) (idx : Z) (s t : String.string) :
  py_nth (TranslationDataset.data self) idx = Some (s, t) ->
  fits_int64 (TranslationDataset.src_vocab self) ->
  fits_int64 (TranslationDataset.tgt_vocab self) ->
  ((exists it,
      TranslationDataset.getitem split self idx = TranslationDataset.Return it)
   <->
   (forall tok, In tok (split s) ->
      get (TranslationDataset.src_vocab self) tok <> None) /\
   (forall tok, In tok (split t) ->
      get (TranslationDataset.tgt_vocab self) tok <> None)) /\
  (forall e,
     TranslationDataset.getitem split self idx = TranslationDataset.Raises e ->
     exists tok, e = TranslationDataset.KeyError tok /\
       ((In tok (split s) /\
         get (TranslationDataset.src_vocab self) tok = None) \/
        (In tok (split t) /\
         get (TranslationDataset.tgt_vocab self) tok = None))).
Proof.
  intros Hd _ _. split; [split|].
  - intros [it Hit].
    destruct (getitem_inv split self idx s t it Hd Hit)
      as (ls & lt & Hls & Hlt & _).
    split; intros tok Hin.
    + destruct (In_nth_error _ _ Hin) as [j Hj].
      rewrite (proj2 (indices_inv _ _ _ Hls) j tok Hj). discriminate.
    + destruct (In_nth_error _ _ Hin) as [j Hj].
      rewrite (proj2 (indices_inv _ _ _ Hlt) j tok Hj). discriminate.
  - intros [Hs Ht].
    destruct (indices_return _ _ Hs) as [ls Hls].
    destruct (indices_return _ _ Ht) as [lt Hlt].
    unfold TranslationDataset.getitem. rewrite Hd, Hls, Hlt.
    eexists; reflexivity.
  - intros e H. unfold TranslationDataset.getitem in H. rewrite Hd in H.
    destruct (TranslationDataset.indices _ (split s)) as [ls|e1] eqn:Es.
    + destruct (TranslationDataset.indices _ (split t)) as [lt|e2] eqn:Et;
        [discriminate|].
      inversion H; subst e2.
      destruct (indices_raises _ _ _ Et) as (tok & He & Hin & Hg).
      exists tok. split; [exact He|]. right. split; assumption.
    + inversion H; subst e1.
      destruct (indices_raises _ _ _ Es) as (tok & He & Hin & Hg).
      exists tok. split; [exact He|]. left. split; assumption.
Qed.

Lemma example_dataset_fits_int64 :
  fits_int64 (TranslationDataset.src_vocab example_dataset) /\
  fits_int64 (TranslationDataset.tgt_vocab example_dataset).
Proof. split; repeat constructor; cbn; lia. Qed.

Lemma getitem_returns_iff_witness :
  (exists it, TranslationDataset.getitem split_ascii example_dataset 0
              = TranslationDataset.Return it) /\
  ~ (exists it, TranslationDataset.getitem split_ascii example_dataset 2
                = TranslationDataset.Return it).
Proof.
  destruct example_dataset_fits_int64 as [Fs Ft].
  split.
  - apply (proj1 (getitem_returns_iff split_ascii example_dataset 0
                    "hello world"%string "hallo welt"%string eq_refl Fs Ft)).
    split; intros tok Hin; vm_compute in Hin;
      repeat (destruct Hin as [<-|Hin]; [discriminate|]); contradiction.
  - intros Hit.
    apply (proj1 (getitem_returns_iff split_ascii example_dataset 2
                    "how are you?"%string "wie geht es dir?"%string eq_refl
                    Fs Ft)) in Hit.
    destruct Hit as [_ Ht]. apply (Ht "es"%string); [|reflexivity].
    vm_compute. right. right. left. reflexivity.
Defined.

(** X15.  An item that [TranslationDataset.__getitem__] returns holds two
    tensors of [max_length] elements: the indices of the first [max_length]
    words of each text, followed by zeros. *)
Theorem getitem_item
        (split : String.string -> list String.string)
        (self : TranslationDataset.t) (idx : Z) (s t : String.string)
        (it : TranslationDataset.item) :
  py_nth (TranslationDataset.data self) idx = Some (s, t) ->
  TranslationDataset.getitem split self idx = TranslationDataset.Return it ->
  shape (TranslationDataset.src it) = [TranslationDataset.max_length self] /\
  shape (TranslationDataset.tgt it) = [TranslationDataset.max_length self] /\
  (forall j tok, j < TranslationDataset.max_length self ->
     nth_error (split s) j = Some tok ->
     get (TranslationDataset.src_vocab self) tok
       = Some (at_ (TranslationDataset.src it) [j])) /\
  (forall j tok, j < TranslationDataset.max_length self ->
     nth_error (split t) j = Some tok ->
     get (TranslationDataset.tgt_vocab self) tok
       = Some (at_ (TranslationDataset.tgt it) [j])) /\
  (forall j, j < TranslationDataset.max_length self ->
     length (split s) <= j -> at_ (TranslationDataset.src it) [j] = 0%Z) /\
  (forall j, j < TranslationDataset.max_length self ->
     length (split t) <= j -> at_ (TranslationDataset.tgt it) [j] = 0%Z).
Proof.
  intros Hd Hit.
  destruct (getitem_inv split self idx s t it Hd Hit)
    as (ls & lt & Hls & Hlt & Hss & Hst & Hv).
  destruct (indices_inv _ _ _ Hls) as [Hlens Hns].
  destruct (indices_inv _ _ _ Hlt) as [Hlent Hnt].
  split; [exact Hss|]. split; [exact Hst|]. split; [|split; [|split]].
  - intros j tok Hj Hn. rewrite (proj1 (Hv j Hj)). apply Hns, Hn.
  - intros j tok Hj Hn. rewrite (proj2 (Hv j Hj)). apply Hnt, Hn.
  - intros j Hj Hge. rewrite (proj1 (Hv j Hj)). apply nth_overflow. lia.
  - intros j Hj Hge. rewrite (proj2 (Hv j Hj)). apply nth_overflow. lia.
Qed.

Lemma getitem_item_witness :
  exists it,
    TranslationDataset.getitem split_ascii example_dataset 0
      = TranslationDataset.Return it /\
    shape (TranslationDataset.src it) = [100] /\
    get (TranslationDataset.src_vocab example_dataset) "world"%string
      = Some (at_ (TranslationDataset.src it) [1]) /\
    at_ (TranslationDataset.src it) [2] = 0%Z.
Proof.
  destruct (TranslationDataset.getitem split_ascii example_dataset 0)
    as [it|e] eqn:E; [|vm_compute in E; discriminate].
  exists it. split; [reflexivity|].
  destruct (getitem_item split_ascii example_dataset 0
              "hello world"%string "hallo welt"%string it eq_refl E)
    as (Hs & _ & Hsrc & _ & Hpad & _).
  split; [exact Hs|]. split.
  - apply Hsrc; [cbn; lia | vm_compute; reflexivity].
  - apply Hpad; [cbn; lia | vm_compute; lia].
Defined.

(** X16.  When no word of the text has the index 0, the test [src != 0] of
    [create_mask] marks exactly the words of an item, and neither padding
    nor anything else: position [j] is marked if and only if the text has
    more than [j] words. *)
Theorem getitem_padding_mask
        (split : String.string -> list String.string)
        (self : TranslationDataset.t) (idx : Z) (s t : String.string)
        (it : TranslationDataset.item) :
  py_nth (TranslationDataset.data self) idx = Some (s, t) ->
  TranslationDataset.getitem split self idx = TranslationDataset.Return it ->
  (forall tok, In tok (split s) ->
     get (TranslationDataset.src_vocab self) tok <> Some 0%Z) ->
  forall j, j < TranslationDataset.max_length self ->
    at_ (ne0 (TranslationDataset.src it)) [j] = (j <? length (split s)).
Proof.
  intros Hd Hit Hnz j Hj.
  destruct (getitem_inv split self idx s t it Hd Hit)
    as (ls & lt & Hls & _ & _ & _ & Hv).
  destruct (indices_inv _ _ _ Hls) as [Hlens Hns].
  unfold ne0, tmap. cbn [at_]. rewrite (proj1 (Hv j Hj)).
  destruct (Nat.ltb_spec j (length (split s))) as [Hlt|Hge].
  - destruct (nth_error (split s) j) as [tok|] eqn:E;
      [|apply nth_error_None in E; lia].
    pose proof (Hns j tok E) as Hg.
    destruct (Z.eqb_spec (nth j ls 0%Z) 0) as [E0|]; [|reflexivity].
    exfalso. apply (Hnz tok); [apply (nth_error_In _ _ E)|].
    rewrite Hg, E0. reflexivity.
  - rewrite nth_overflow by lia. reflexivity.
Qed.

Lemma getitem_padding_mask_witness :
  exists it,
    TranslationDataset.getitem split_ascii example_dataset 0
      = TranslationDataset.Return it /\
    at_ (ne0 (TranslationDataset.src it)) [1] = true /\
    at_ (ne0 (TranslationDataset.src it)) [2] = false.
Proof.
  destruct (TranslationDataset.getitem split_ascii example_dataset 0)
    as [it|e] eqn:E; [|vm_compute in E; discriminate].
  exists it. split; [reflexivity|].
  assert (H : forall j, j < 100 ->
            at_ (ne0 (TranslationDataset.src it)) [j]
            = (j <? length (split_ascii "hello world"%string))).
  { apply (getitem_padding_mask split_ascii example_dataset 0
             "hello world"%string "hallo welt"%string it eq_refl E).
    intros tok Hin. vm_compute in Hin.
    repeat (destruct Hin as [<-|Hin]; [discriminate|]). contradiction. }
  split; [rewrite (H 1) by lia | rewrite (H 2) by lia]; vm_compute; reflexivity.
Defined.

(** ** The vocabularies of train *)

Lemma counter_add_keys (c : Counter.t) w k :
  In k (map fst (Counter.add c w)) <-> In k (map fst c) \/ k = w.
Proof.
  induction c as [|[k0 n] c IH]; cbn.
  - split; [intros [<-|[]]; right; reflexivity | intros [[]| ->]; left; reflexivity].
  - destruct (String.eqb_spec k0 w) as [->|Hne]; cbn.
    + split; [intros H; left; exact H | intros [H| ->]; [exact H | left; reflexivity]].
    + rewrite IH. tauto.
Qed.

Lemma counter_update_keys words : forall (c : Counter.t) k,
  In k (map fst (Counter.update c words)) <-> In k (map fst c) \/ In k words.
Proof.
  unfold Counter.update.
  induction words as [|w words IH]; intros c k; cbn.
  - tauto.
  - rewrite IH, counter_add_keys. split; intros H; intuition auto.
Qed.

Lemma count_keys split train_iter : forall (cs ct : Counter.t) k,
  (In k (map fst (fst (Train.count split train_iter cs ct))) <->
   In k (map fst cs) \/ source_word split train_iter k) /\
  (In k (map fst (snd (Train.count split train_iter cs ct))) <->
   In k (map fst ct) \/ target_word split train_iter k).
Proof.
  unfold source_word, target_word.
  induction train_iter as [|[s t] rest IH]; intros cs ct k; cbn [Train.count].
  - cbn. split; (split; [intros H; left; exact H | intros [H|(? & ? & [] & _)]; exact H]).
  - destruct (IH (Counter.update cs (split s)) (Counter.update ct (split t)) k)
      as [H1 H2].
    rewrite H1, H2, !counter_update_keys. split; split.
    + intros [[H|H]|(s' & t' & Hin & Hw)].
      * left; exact H.
      * right. exists s, t. split; [left; reflexivity | exact H].
      * right. exists s', t'. split; [right; exact Hin | exact Hw].
    + intros [H|(s' & t' & [E|Hin] & Hw)].
      * left; left; exact H.
      * inversion E; subst. left; right; exact Hw.
      * right. exists s', t'. split; assumption.
    + intros [[H|H]|(s' & t' & Hin & Hw)].
      * left; exact H.
      * right. exists s, t. split; [left; reflexivity | exact H].
      * right. exists s', t'. split; [right; exact Hin | exact Hw].
    + intros [H|(s' & t' & [E|Hin] & Hw)].
      * left; left; exact H.
      * inversion E; subst. left; right; exact Hw.
      * right. exists s', t'. split; assumption.
Qed.

Lemma insert_perm x (l : Counter.t) :
  Permutation.Permutation (Counter.insert x l) (x :: l).
Proof.
  induction l as [|y l IH]; cbn [Counter.insert].
  - apply Permutation.Permutation_refl.
  - destruct (snd x <? snd y).
    + apply Permutation.Permutation_trans with (y :: x :: l).
      * apply Permutation.perm_skip, IH.
      * apply Permutation.perm_swap.
    + apply Permutation.Permutation_refl.
Qed.

Lemma most_common_perm (c : Counter.t) :
  Permutation.Permutation (Counter.most_common c) c.
Proof.
  unfold Counter.most_common. induction c as [|x c IH]; cbn [fold_right].
  - apply Permutation.Permutation_refl.
  - apply Permutation.Permutation_trans with (x :: fold_right Counter.insert [] c).
    + apply insert_perm.
    + apply Permutation.perm_skip, IH.
Qed.

Lemma number_get (l : Counter.t) : forall idx w z,
  get (Train.number idx l) w = Some z ->
  exists i, nth_error (map fst l) i = Some w /\ i < length l /\
            z = (Z.of_nat (idx + i) + 1)%Z.
Proof.
  induction l as [|[k n] l IH]; intros idx w z H; cbn in H; [discriminate|].
  destruct (String.eqb_spec k w) as [->|Hne].
  - inversion H. exists 0. cbn. repeat split; [lia|]. rewrite Nat.add_0_r.
    reflexivity.
  - destruct (IH (S idx) w z H) as (i & Hi & Hlt & Hz). exists (S i). cbn.
    split; [exact Hi|]. split; [lia|]. rewrite Hz. f_equal. lia.
Qed.

Lemma number_get_in (l : Counter.t) : forall idx w,
  In w (map fst l) -> exists z, get (Train.number idx l) w = Some z.
Proof.
  induction l as [|[k n] l IH]; intros idx w H; cbn in H |- *; [contradiction|].
  destruct (String.eqb_spec k w) as [->|Hne]; [eexists; reflexivity|].
  destruct H as [E|H]; [contradiction|]. apply IH, H.
Qed.

Lemma number_length (l : Counter.t) idx : length (Train.number idx l) = length l.
Proof.
  revert idx. induction l as [|[k n] l IH]; intros idx; cbn;
    [reflexivity | f_equal; apply IH].
Qed.

Lemma get_set (v : vocabulary) k x w :
  get (set v k x) w = if String.eqb k w then Some x else get v w.
Proof.
  induction v as [|[k0 x0] v IH]; cbn.
  - reflexivity.
  - destruct (String.eqb_spec k0 k) as [->|Hne]; cbn.
    + destruct (String.eqb_spec k w); reflexivity.
    + destruct (String.eqb_spec k0 w) as [->|Hne'].
      * destruct (String.eqb_spec k w); [congruence | reflexivity].
      * exact IH.
Qed.

Lemma set_length (v : vocabulary) k x :
  length (set v k x) = match get v k with
                       | Some _ => length v
                       | None => S (length v)
                       end.
Proof.
  induction v as [|[k0 x0] v IH]; cbn; [reflexivity|].
  destruct (String.eqb_spec k0 k); cbn; [reflexivity|].
  rewrite IH. destruct (get v k); reflexivity.
Qed.

(** The dictionary made of a counter numbers its words. *)
Lemma vocabulary_of_numbers (c : Counter.t) (word : String.string -> Prop) :
  (forall w, In w (map fst c) <-> word w) ->
  numbers_words (Train.vocabulary_of c) word.
Proof.
  intros Hkeys. unfold Train.vocabulary_of.
  set (l := Counter.most_common c).
  assert (Hperm : forall w, In w (map fst l) <-> word w).
  { intros w. rewrite <- Hkeys. split; apply Permutation.Permutation_in.
    - apply Permutation.Permutation_map, most_common_perm.
    - apply Permutation.Permutation_sym, Permutation.Permutation_map,
        most_common_perm. }
  split; [|split; [|split; [|split]]].
  - rewrite get_set, String.eqb_refl. reflexivity.
  - intros w Hw. rewrite get_set. destruct (String.eqb _ w); [eexists; reflexivity|].
    apply number_get_in, Hperm, Hw.
  - intros w z Hg Hne. rewrite get_set in Hg.
    destruct (String.eqb_spec "<pad>"%string w) as [E|_]; [congruence|].
    destruct (number_get l 0 w z Hg) as (i & Hi & _ & ->).
    split; [|lia]. apply Hperm. apply (nth_error_In _ _ Hi).
  - intros w w' z Hg Hg'. rewrite get_set in Hg, Hg'.
    destruct (String.eqb_spec "<pad>"%string w) as [E|_];
      destruct (String.eqb_spec "<pad>"%string w') as [E'|_].
    + congruence.
    + inversion Hg; subst z.
      destruct (number_get l 0 w' 0%Z Hg') as (i & _ & _ & Hz). lia.
    + inversion Hg'; subst z.
      destruct (number_get l 0 w 0%Z Hg) as (i & _ & _ & Hz). lia.
    + destruct (number_get l 0 w z Hg) as (i & Hi & _ & Hz).
      destruct (number_get l 0 w' z Hg') as (i' & Hi' & _ & Hz').
      assert (i = i') by lia. subst i'. congruence.
  - intros Hpad w z Hg. rewrite set_length.
    assert (Hnone : get (Train.number 0 l) "<pad>"%string = None).
    { destruct (get (Train.number 0 l) "<pad>"%string) as [z0|] eqn:E;
        [|reflexivity].
      destruct (number_get l 0 _ z0 E) as (i & Hi & _).
      exfalso. apply Hpad, Hperm, (nth_error_In _ _ Hi). }
    rewrite Hnone, number_length. rewrite get_set in Hg.
    destruct (String.eqb "<pad>"%string w).
    + inversion Hg. lia.
    + destruct (number_get l 0 w z Hg) as (i & _ & Hlt & ->). lia.
Qed.

Lemma train_vocabularies_numbered
      (split : String.string -> list String.string)
      (train_iter : list (String.string * String.string)) :
  numbers_words (fst (Train.vocabularies split train_iter))
                (source_word split train_iter) /\
  numbers_words (snd (Train.vocabularies split train_iter))
                (target_word split train_iter).
Proof.
  unfold Train.vocabularies.
  pose proof (count_keys split train_iter [] []) as H.
  destruct (Train.count split train_iter [] []) as [cs ct]. cbn [fst snd] in *.
  split; apply vocabulary_of_numbers; intros w; destruct (H w) as [H1 H2].
  - rewrite H1. cbn. tauto.
  - rewrite H2. cbn. tauto.
Qed.

(** X17.  The two vocabularies [train] builds number the words of the
    source texts and of the target texts: ["<pad>"] has the index 0, every
    word of the corpus is a key with a positive index, two words never
    share an index, and every index is below the length of the vocabulary,
    which [train] gives the model as its vocabulary size (unless ["<pad>"]
    is itself a word of the corpus). *)
Theorem train_vocabularies
        (split : String.string -> list String.string)
        (train_iter : list (String.string * String.string)) :
  numbers_words (fst (Train.vocabularies split train_iter))
                (source_word split train_iter) /\
  numbers_words (snd (Train.vocabularies split train_iter))
                (target_word split train_iter).
Proof. exact (train_vocabularies_numbered split train_iter). Qed.

Lemma py_nth_In {A : Type} (l : list A) idx a : py_nth l idx = Some a -> In a l.
Proof.
  unfold py_nth.
  destruct ((0 <=? idx)%Z && (idx <? Z.of_nat (length l))%Z);
    [apply nth_error_In|].
  destruct ((idx <? 0)%Z && (- Z.of_nat (length l) <=? idx)%Z);
    [apply nth_error_In | discriminate].
Qed.

(** The indices of a text whose words a dictionary numbers. *)
Lemma numbered_indices (v : vocabulary) (word : String.string -> Prop)
      (tokens : list String.string) (E : Embedding.t) l :
  numbers_words v word -> ~ word "<pad>"%string ->
  (forall tok, In tok tokens -> word tok) ->
  TranslationDataset.indices v tokens = TranslationDataset.Return l ->
  Embedding.num_embeddings E = length v ->
  forall j,
    Embedding.valid E (nth j l 0%Z) = true /\
    negb (nth j l 0 =? 0)%Z = (j <? length tokens).
Proof.
  intros (Hpad & _ & Hpos & _ & Hrange) Hnp Hw Hl HE j.
  destruct (indices_inv _ _ _ Hl) as [Hlen Hnth].
  unfold Embedding.valid. rewrite HE.
  destruct (Nat.ltb_spec j (length tokens)) as [Hlt|Hge].
  - destruct (nth_error tokens j) as [tok|] eqn:Ej;
      [|apply nth_error_None in Ej; lia].
    pose proof (Hnth j tok Ej) as Hg.
    pose proof (Hw tok (nth_error_In _ _ Ej)) as Hwt.
    assert (Hne : tok <> "<pad>"%string) by (intros ->; contradiction).
    destruct (Hpos _ _ Hg Hne) as [_ H1].
    destruct (Hrange Hnp _ _ Hg) as [_ H2].
    split.
    + apply andb_true_intro. split; [apply Z.leb_le; lia | apply Z.ltb_lt; lia].
    + destruct (Z.eqb_spec (nth j l 0%Z) 0); [lia | reflexivity].
  - rewrite nth_overflow by lia.
    destruct (Hrange Hnp _ _ Hpad) as [_ H2].
    split; [|reflexivity].
    apply andb_true_intro. split; [reflexivity | apply Z.ltb_lt; lia].
Qed.

(** An item of the dataset of [train], for embeddings of the sizes of the
    two vocabularies. *)
Lemma train_item_sized
        (split : String.string -> list String.string)
        (train_iter : list (String.string * String.string))
        (Es Et : Embedding.t) (idx : Z) (s t : String.string) :
  ~ source_word split train_iter "<pad>"%string ->
  ~ target_word split train_iter "<pad>"%string ->
  py_nth train_iter idx = Some (s, t) ->
  Embedding.num_embeddings Es
    = length (fst (Train.vocabularies split train_iter)) ->
  Embedding.num_embeddings Et
    = length (snd (Train.vocabularies split train_iter)) ->
  exists it,
    TranslationDataset.getitem split (Train.dataset split train_iter) idx
      = TranslationDataset.Return it /\
    shape (TranslationDataset.src it) = [100] /\
    shape (TranslationDataset.tgt it) = [100] /\
    forall j, j < 100 ->
      Embedding.valid Es (at_ (TranslationDataset.src it) [j]) = true /\
      Embedding.valid Et (at_ (TranslationDataset.tgt it) [j]) = true /\
      at_ (ne0 (TranslationDataset.src it)) [j] = (j <? length (split s)) /\
      at_ (ne0 (TranslationDataset.tgt it)) [j] = (j <? length (split t)).
Proof.
  intros Hps Hpt Hd HEs HEt.
  destruct (train_vocabularies_numbered split train_iter) as [Hs Ht].
  unfold Train.dataset.
  destruct (Train.vocabularies split train_iter) as [sv tv]. cbn [fst snd] in *.
  pose proof (py_nth_In _ _ _ Hd) as Hin.
  assert (Hws : forall tok, In tok (split s) -> source_word split train_iter tok)
    by (intros tok Htok; exists s, t; split; assumption).
  assert (Hwt : forall tok, In tok (split t) -> target_word split train_iter tok)
    by (intros tok Htok; exists s, t; split; assumption).
  destruct (indices_return sv (split s)) as [ls Hls].
  { intros tok Htok. destruct Hs as (_ & Hkey & _).
    destruct (Hkey tok (Hws tok Htok)) as [z ->]. discriminate. }
  destruct (indices_return tv (split t)) as [lt Hlt].
  { intros tok Htok. destruct Ht as (_ & Hkey & _).
    destruct (Hkey tok (Hwt tok Htok)) as [z ->]. discriminate. }
  set (ds := TranslationDataset.mk train_iter sv tv 100).
  destruct (TranslationDataset.getitem split ds idx) as [it|e] eqn:Eit.
  - exists it. split; [reflexivity|].
    destruct (getitem_inv split ds idx s t it Hd Eit)
      as (ls' & lt' & Hls' & Hlt' & Hss & Hst & Hv).
    split; [exact Hss|]. split; [exact Hst|].
    unfold ds in Hls', Hlt'.
    cbn [TranslationDataset.src_vocab TranslationDataset.tgt_vocab] in Hls', Hlt'.
    rewrite Hls in Hls'. rewrite Hlt in Hlt'.
    inversion Hls'; subst ls'. inversion Hlt'; subst lt'.
    intros j Hj.
    destruct (Hv j Hj) as [Hsj Htj].
    unfold ne0, tmap. cbn [at_]. rewrite Hsj, Htj.
    destruct (numbered_indices sv _ (split s) Es ls Hs Hps Hws Hls HEs j)
      as [H1 H2].
    destruct (numbered_indices tv _ (split t) Et lt Ht Hpt Hwt Hlt HEt j)
      as [H3 H4].
    repeat split; assumption.
  - exfalso. unfold TranslationDataset.getitem, ds in Eit.
    cbn [TranslationDataset.data TranslationDataset.src_vocab
         TranslationDataset.tgt_vocab] in Eit.
    rewrite Hd, Hls, Hlt in Eit. discriminate.
Qed.

(** The model of [train] is built, with the sizes it is given. *)
Lemma train_model_sizes
      (split : String.string -> list String.string)
      (train_iter : list (String.string * String.string))
      (v : Transformer.init_params) :
  exists model,
    Train.model split train_iter v = Ok model /\
    sized_as_trained split train_iter model.
Proof.
  unfold Train.model, sized_as_trained.
  destruct (Train.vocabularies split train_iter) as [sv tv]. cbn [fst snd].
  destruct (transformer_init_ok (length sv) (length tv) 512 8 6 2048 5000
              (1 / 10) v) as [model Hmodel].
  { right. split; [vm_compute; reflexivity | discriminate]. }
  { discriminate. }
  { vm_compute; reflexivity. }
  { lra. }
  exists model. split; [exact Hmodel|].
  destruct (transformer_init_sizes_full _ _ _ _ _ _ _ _ _ _ Hmodel) as (Hsz & _).
  destruct (transformer_init_embeddings _ _ _ _ _ _ _ _ _ _ Hmodel) as (He & Hd).
  split; [exact Hsz|]. rewrite He, Hd. split; reflexivity.
Qed.

(** X18.  The dataset and the model of [train] fit, for every corpus in
    which ["<pad>"] is not a word: the model is built, [__getitem__] returns
    for every index of the corpus, every element of an item is an index the
    embedding of the model accepts, and the elements that are not 0 are
    exactly the words of the text. *)
Theorem train_items_fit_model
        (split : String.string -> list String.string)
        (train_iter : list (String.string * String.string))
        (v : Transformer.init_params) (idx : Z) (s t : String.string) :
  ~ source_word split train_iter "<pad>"%string ->
  ~ target_word split train_iter "<pad>"%string ->
  py_nth train_iter idx = Some (s, t) ->
  exists model it,
    Train.model split train_iter v = Ok model /\
    TranslationDataset.getitem split (Train.dataset split train_iter) idx
      = TranslationDataset.Return it /\
    forall j, j < 100 ->
      Embedding.valid (Transformer.encoder_embedding model)
                      (at_ (TranslationDataset.src it) [j]) = true /\
      Embedding.valid (Transformer.decoder_embedding model)
                      (at_ (TranslationDataset.tgt it) [j]) = true /\
      at_ (ne0 (TranslationDataset.src it)) [j] = (j <? length (split s)) /\
      at_ (ne0 (TranslationDataset.tgt it)) [j] = (j <? length (split t)).
Proof.
  intros Hps Hpt Hd.
  destruct (train_model_sizes split train_iter v) as (model & Hm & _ & HEs & HEt).
  destruct (train_item_sized split train_iter
              (Transformer.encoder_embedding model)
              (Transformer.decoder_embedding model) idx s t Hps Hpt Hd HEs HEt)
    as (it & Hit & _ & _ & Hv).
  exists model, it. split; [exact Hm|]. split; [exact Hit | exact Hv].
Qed.


Lemma train_items_fit_model_witness :
  exists model it,
    Train.model split_ascii (TranslationDataset.data example_dataset) zero_params
      = Ok model /\
    TranslationDataset.getitem split_ascii
      (Train.dataset split_ascii (TranslationDataset.data example_dataset)) 2
      = TranslationDataset.Return it /\
    at_ (ne0 (TranslationDataset.tgt it)) [3] = true /\
    at_ (ne0 (TranslationDataset.tgt it)) [4] = false.
Proof.
  destruct (train_items_fit_model split_ascii
              (TranslationDataset.data example_dataset) zero_params 2
              "how are you?"%string "wie geht es dir?"%string)
    as (model & it & Hm & Hit & Hv).
  - intros (s & t & Hin & Hw). cbn in Hin.
    repeat (destruct Hin as [E|Hin];
            [inversion E; subst s t; vm_compute in Hw;
             repeat (destruct Hw as [E'|Hw]; [discriminate|]); contradiction|]).
    contradiction.
  - intros (s & t & Hin & Hw). cbn in Hin.
    repeat (destruct Hin as [E|Hin];
            [inversion E; subst s t; vm_compute in Hw;
             repeat (destruct Hw as [E'|Hw]; [discriminate|]); contradiction|]).
    contradiction.
  - reflexivity.
  - exists model, it. split; [exact Hm|]. split; [exact Hit|].
    destruct (Hv 3) as (_ & _ & _ & H3); [lia|].
    destruct (Hv 4) as (_ & _ & _ & H4); [lia|].
    rewrite H3, H4. split; vm_compute; reflexivity.
Defined.

(** ** The batch of train_model *)

Lemma unravel_2 B T b i :
  i < T -> unravel [B; T] (b * T + i) = [b; i].
Proof.
  intros Hi. cbn [unravel]. unfold prod. cbn [fold_right].
  rewrite !Nat.mul_1_r, Nat.div_1_r.
  destruct (div_mod_pair T b i Hi) as [-> ->]. reflexivity.
Qed.

(** [x.view(-1, x.size(-1))]: the rows of all the sequences, one after the
    other. *)
Lemma view_rows {A : Type} (x : tensor A) B T V :
  shape x = [B; T; V] -> V <> 0 ->
  exists z, view [None; Some V] x = Ok z /\
    shape z = [B * T; V] /\
    forall b i c, i < T -> c < V ->
      at_ z [b * T + i; c] = at_ x [b; i; c].
Proof.
  intros Hx HV. unfold view. rewrite Hx.
  cbn [holes filter length]. unfold known. cbn [map].
  rewrite prod_3. unfold prod. cbn [fold_right].
  rewrite !Nat.mul_1_r, !Nat.mul_1_l.
  assert (Hn : B * (T * V) = (B * T) * V) by ring.
  rewrite Hn, Nat.Div0.mod_mul, Nat.div_mul by exact HV.
  destruct (Nat.eqb_spec V 0) as [?|_]; [contradiction|].
  cbn [orb negb Nat.eqb]. eexists. split; [reflexivity|].
  split; [reflexivity|].
  intros b i c Hi Hc. cbn [at_ ravel]. unfold prod. cbn [fold_right].
  replace ((b * T + i) * (V * 1) + (c * 1 + 0)) with (b * (T * V) + (i * V + c))
    by ring.
  rewrite (unravel_3 B T V b i c Hi Hc). reflexivity.
Qed.

(** [x.contiguous().view(-1)] *)
Lemma view_flat {A : Type} (x : tensor A) B T :
  shape x = [B; T] ->
  exists z, view [None] x = Ok z /\
    shape z = [B * T] /\
    forall b i, i < T -> at_ z [b * T + i] = at_ x [b; i].
Proof.
  intros Hx. unfold view. rewrite Hx.
  cbn [holes filter length]. unfold known. cbn [map].
  unfold prod. cbn [fold_right Nat.mul Nat.eqb orb].
  rewrite !Nat.mul_1_r, Nat.add_0_r, Nat.mod_1_r, Nat.div_1_r.
  cbn [Nat.eqb negb]. eexists. split; [reflexivity|].
  split; [reflexivity|].
  intros b i Hi. cbn [at_ ravel]. unfold prod. cbn [fold_right].
  replace ((b * T + i) * 1 + 0) with (b * T + i) by ring.
  rewrite (unravel_2 B T b i Hi). reflexivity.
Qed.

Lemma tokens_in_vocabulary_2 (E : Embedding.t) (x : tensor Z) B T :
  shape x = [B; T] ->
  (forall b i, b < B -> i < T -> Embedding.valid E (at_ x [b; i]) = true) ->
  tokens_in_vocabulary E x.
Proof.
  intros Hx H idx Hidx. rewrite Hx in Hidx.
  inversion Hidx as [|b ? ? ? Hb Hidx']; subst.
  inversion Hidx' as [|i ? ? ? Hi Hidx'']; subst.
  inversion Hidx''; subst. apply H; assumption.
Qed.

(** Two runs of the body of the loop on targets that agree on a prefix. *)
Lemma criterion_inputs_related
        (model : Transformer.t) (src tgt tgt' : tensor Z) (g : rng)
        (len : nat -> nat)
        (batch src_len tgt_len d_model max_seq_length tgt_vocab_size : nat) :
  transformer_sizes d_model max_seq_length tgt_vocab_size model ->
  shape src = [batch; src_len] ->
  shape tgt = [batch; S tgt_len] ->
  shape tgt' = [batch; S tgt_len] ->
  batch <> 0 -> tgt_vocab_size <> 0 ->
  src_len <= max_seq_length -> tgt_len <= max_seq_length ->
  (forall b, b < batch -> 0 < len b <= tgt_len) ->
  (forall b j, b < batch -> j < len b -> at_ tgt [b; j] = at_ tgt' [b; j]) ->
  has_real_token batch src_len src ->
  starts_with_token batch tgt ->
  tokens_in_vocabulary (Transformer.encoder_embedding model) src ->
  (forall b i, b < batch -> i < tgt_len ->
     Embedding.valid (Transformer.decoder_embedding model) (at_ tgt [b; i]) = true /\
     Embedding.valid (Transformer.decoder_embedding model) (at_ tgt' [b; i]) = true) ->
  exists tgt_input out logits labels tgt_input' out' logits' labels' g',
    drop_last_dim1 tgt = Ok tgt_input /\
    Transformer.forward model src tgt_input g = Ok (out, g') /\
    criterion_inputs model src tgt g = Ok ((logits, labels), g') /\
    drop_last_dim1 tgt' = Ok tgt_input' /\
    Transformer.forward model src tgt_input' g = Ok (out', g') /\
    criterion_inputs model src tgt' g = Ok ((logits', labels'), g') /\
    shape tgt_input = [batch; tgt_len] /\
    (forall b i, at_ tgt_input [b; i] = at_ tgt [b; i]) /\
    shape logits = [batch * tgt_len; tgt_vocab_size] /\
    shape labels = [batch * tgt_len] /\
    (forall b i c, b < batch -> i < tgt_len -> c < tgt_vocab_size ->
       at_ logits [b * tgt_len + i; c] = at_ out [b; i; c] /\
       at_ logits' [b * tgt_len + i; c] = at_ out' [b; i; c]) /\
    (forall b i, b < batch -> i < tgt_len ->
       at_ labels [b * tgt_len + i] = at_ tgt [b; S i] /\
       at_ labels' [b * tgt_len + i] = at_ tgt' [b; S i]) /\
    (forall b i c, b < batch -> i < tgt_len -> c < tgt_vocab_size ->
       finite (at_ logits [b * tgt_len + i; c])) /\
    (forall b i c, b < batch -> i < len b -> c < tgt_vocab_size ->
       at_ logits [b * tgt_len + i; c] = at_ logits' [b * tgt_len + i; c]).
Proof.
  intros Hsz Hs Ht Ht' HB HV HSL HTL Hlen Hpre Hreal Hstart Hvs Hvt.
  set (tin := mkT [batch; tgt_len] (at_ tgt)).
  set (tin' := mkT [batch; tgt_len] (at_ tgt')).
  assert (Hin : drop_last_dim1 tgt = Ok tin).
  { unfold drop_last_dim1. rewrite Ht. unfold tin.
    rewrite Nat.sub_succ, Nat.sub_0_r. reflexivity. }
  assert (Hin' : drop_last_dim1 tgt' = Ok tin').
  { unfold drop_last_dim1. rewrite Ht'. unfold tin'.
    rewrite Nat.sub_succ, Nat.sub_0_r. reflexivity. }
  destruct (forward_related model src tin tin' g batch src_len tgt_len d_model
              max_seq_length tgt_vocab_size len Hsz Hs eq_refl eq_refl
              HB HSL HTL Hlen Hpre Hreal Hstart Hvs)
    as (out & out' & g' & Hout & Hout' & Hrel).
  { apply (tokens_in_vocabulary_2 _ tin batch tgt_len eq_refl).
    intros b i Hb Hi. apply (Hvt b i Hb Hi). }
  { apply (tokens_in_vocabulary_2 _ tin' batch tgt_len eq_refl).
    intros b i Hb Hi. apply (Hvt b i Hb Hi). }
  destruct Hrel as (Hso & Hso' & Hsame & Hfin & _).
  destruct (view_rows out batch tgt_len tgt_vocab_size Hso HV)
    as (logits & Hlg & Hslg & Hvlg).
  destruct (view_rows out' batch tgt_len tgt_vocab_size Hso' HV)
    as (logits' & Hlg' & Hslg' & Hvlg').
  assert (Hrun : forall (t tin0 : tensor Z) (out0 logits0 : tensor fval),
            shape t = [batch; S tgt_len] ->
            drop_last_dim1 t = Ok tin0 ->
            Transformer.forward model src tin0 g = Ok (out0, g') ->
            shape out0 = [batch; tgt_len; tgt_vocab_size] ->
            view [None; Some tgt_vocab_size] out0 = Ok logits0 ->
            exists labels0,
              criterion_inputs model src t g = Ok ((logits0, labels0), g') /\
              shape labels0 = [batch * tgt_len] /\
              forall b i, b < batch -> i < tgt_len ->
                at_ labels0 [b * tgt_len + i] = at_ t [b; S i]).
  { intros t tin0 out0 logits0 Hst Hd Hf Hs0 Hv0.
    set (tout := mkT [batch; tgt_len]
                     (fun idx => match idx with
                                 | b :: i :: rest => at_ t (b :: S i :: rest)
                                 | _ => at_ t idx
                                 end)).
    assert (Hd1 : drop_first_dim1 t = Ok tout).
    { unfold drop_first_dim1. rewrite Hst. unfold tout.
      rewrite Nat.sub_succ, Nat.sub_0_r. reflexivity. }
    destruct (view_flat tout batch tgt_len eq_refl) as (labels0 & Hl & Hsl & Hvl).
    exists labels0. split; [|split; [exact Hsl|]].
    - unfold criterion_inputs.
      rewrite (mbind_lift_ok _ _ _ g Hd), (mbind_lift_ok _ _ _ g Hd1).
      unfold mbind at 1. rewrite Hf.
      assert (Hk : norm_dim (rank out0) (-1) = Ok 2).
      { unfold rank. rewrite Hs0. reflexivity. }
      rewrite (mbind_lift_ok _ _ _ g' Hk).
      assert (Hn : size out0 2 = Ok tgt_vocab_size).
      { unfold size. rewrite Hs0. reflexivity. }
      rewrite (mbind_lift_ok _ _ _ g' Hn), (mbind_lift_ok _ _ _ g' Hv0),
              (mbind_lift_ok _ _ _ g' Hl). reflexivity.
    - intros b i Hb Hi. rewrite (Hvl b i Hi). reflexivity. }
  destruct (Hrun tgt tin out logits Ht Hin Hout Hso Hlg)
    as (labels & Hc & Hsl & Hvl).
  destruct (Hrun tgt' tin' out' logits' Ht' Hin' Hout' Hso' Hlg')
    as (labels' & Hc' & _ & Hvl').
  exists tin, out, logits, labels, tin', out', logits', labels', g'.
  split; [exact Hin|]. split; [exact Hout|]. split; [exact Hc|].
  split; [exact Hin'|]. split; [exact Hout'|]. split; [exact Hc'|].
  split; [reflexivity|]. split; [intros b i; reflexivity|].
  split; [exact Hslg|]. split; [exact Hsl|]. split; [|split; [|split]].
  - intros b i c Hb Hi Hc0. split; [apply Hvlg | apply Hvlg']; assumption.
  - intros b i Hb Hi. split; [apply Hvl | apply Hvl']; assumption.
  - intros b i c Hb Hi Hc0. rewrite (Hvlg b i c Hi Hc0).
    apply Hfin; try assumption. apply Hlen, Hb.
  - intros b i c Hb Hi Hc0.
    assert (HiT : i < tgt_len) by (specialize (Hlen b Hb); lia).
    rewrite (Hvlg b i c HiT Hc0), (Hvlg' b i c HiT Hc0).
    apply Hsame; assumption.
Qed.

(** X19.  What [train_model] gives to [criterion] for a batch that is not
    empty, whose sequences fit the positional table and hold tokens of the
    vocabularies, with a token that is not padding in every source sequence
    and at the start of every target sequence.  The logits are the rows of
    the output of [model(src, tgt[:, :-1])], one row per position of every
    sequence, and the label of the row of position [i] is the token
    [tgt[b, i + 1]] that follows.  Every logit is a finite number.  The row
    of position [i] is the same for every target that holds the same tokens
    up to position [i]: it depends neither on its label nor on any later
    token. *)
Theorem criterion_inputs_aligned
        (model : Transformer.t) (src tgt tgt' : tensor Z) (g : rng)
        (len : nat -> nat)
        (batch src_len tgt_len d_model max_seq_length tgt_vocab_size : nat) :
  transformer_sizes d_model max_seq_length tgt_vocab_size model ->
  shape src = [batch; src_len] ->
  shape tgt = [batch; S tgt_len] ->
  shape tgt' = [batch; S tgt_len] ->
  batch <> 0 -> tgt_vocab_size <> 0 ->
  src_len <= max_seq_length -> tgt_len <= max_seq_length ->
  (forall b, b < batch -> 0 < len b <= tgt_len) ->
  (forall b j, b < batch -> j < len b -> at_ tgt [b; j] = at_ tgt' [b; j]) ->
  has_real_token batch src_len src ->
  starts_with_token batch tgt ->
  tokens_in_vocabulary (Transformer.encoder_embedding model) src ->
  (forall b i, b < batch -> i < tgt_len ->
     Embedding.valid (Transformer.decoder_embedding model) (at_ tgt [b; i]) = true /\
     Embedding.valid (Transformer.decoder_embedding model) (at_ tgt' [b; i]) = true) ->
  exists tgt_input out logits labels tgt_input' out' logits' labels' g',
    drop_last_dim1 tgt = Ok tgt_input /\
    Transformer.forward model src tgt_input g = Ok (out, g') /\
    criterion_inputs model src tgt g = Ok ((logits, labels), g') /\
    drop_last_dim1 tgt' = Ok tgt_input' /\
    Transformer.forward model src tgt_input' g = Ok (out', g') /\
    criterion_inputs model src tgt' g = Ok ((logits', labels'), g') /\
    shape tgt_input = [batch; tgt_len] /\
    (forall b i, at_ tgt_input [b; i] = at_ tgt [b; i]) /\
    shape logits = [batch * tgt_len; tgt_vocab_size] /\
    shape labels = [batch * tgt_len] /\
    (forall b i c, b < batch -> i < tgt_len -> c < tgt_vocab_size ->
       at_ logits [b * tgt_len + i; c] = at_ out [b; i; c] /\
       at_ logits' [b * tgt_len + i; c] = at_ out' [b; i; c]) /\
    (forall b i, b < batch -> i < tgt_len ->
       at_ labels [b * tgt_len + i] = at_ tgt [b; S i] /\
       at_ labels' [b * tgt_len + i] = at_ tgt' [b; S i]) /\
    (forall b i c, b < batch -> i < tgt_len -> c < tgt_vocab_size ->
       finite (at_ logits [b * tgt_len + i; c])) /\
    (forall b i c, b < batch -> i < len b -> c < tgt_vocab_size ->
       at_ logits [b * tgt_len + i; c] = at_ logits' [b * tgt_len + i; c]).
Proof.
  exact (criterion_inputs_related model src tgt tgt' g len batch src_len tgt_len
           d_model max_seq_length tgt_vocab_size).
Qed.


Lemma criterion_inputs_aligned_witness :
  exists model tgt_input out logits labels logits' labels' g',
    Transformer.init 3 3 2 1 1 2 4 (1 / 10) ramp_params = Ok model /\
    drop_last_dim1 (tokens2 1 2) = Ok tgt_input /\
    Transformer.forward model (tokens2 1 0) tgt_input keep_all = Ok (out, g') /\
    criterion_inputs model (tokens2 1 0) (tokens2 1 2) keep_all
      = Ok ((logits, labels), g') /\
    criterion_inputs model (tokens2 1 0) (tokens2 1 0) keep_all
      = Ok ((logits', labels'), g') /\
    at_ logits [0; 2] = at_ out [0; 0; 2] /\
    at_ labels [0] = 2%Z /\ at_ labels' [0] = 0%Z /\
    at_ logits [0; 2] = at_ logits' [0; 2].
Proof.
  destruct (transformer_init_ok 3 3 2 1 1 2 4 (1 / 10) ramp_params)
    as [model Hinit];
    [right; split; [reflexivity | discriminate] | discriminate | reflexivity
     | lra |].
  destruct (transformer_init_sizes_full _ _ _ _ _ _ _ _ _ _ Hinit) as (Hsz & _).
  destruct (transformer_init_embeddings _ _ _ _ _ _ _ _ _ _ Hinit) as (He & Hd).
  destruct (criterion_inputs_aligned model (tokens2 1 0) (tokens2 1 2)
              (tokens2 1 0) keep_all (fun _ => 1) 1 2 1 2 4 3
              Hsz eq_refl eq_refl eq_refl)
    as (tin & out & logits & labels & tin' & out' & logits' & labels' & g'
        & Hin & Hout & Hc & _ & _ & Hc' & _ & _ & _ & _ & Hrows & Hl & _
        & Hsame).
  - discriminate.
  - discriminate.
  - lia.
  - lia.
  - intros b _. cbv beta. lia.
  - intros b j Hb Hj. destruct j as [|j]; [reflexivity | lia].
  - intros b Hb. exists 0. split; [lia|]. cbn. discriminate.
  - intros b Hb. cbn. discriminate.
  - rewrite He. apply tokens2_in_vocabulary; reflexivity.
  - intros b i Hb Hi. rewrite Hd.
    destruct i as [|i]; [split; reflexivity | lia].
  - exists model, tin, out, logits, labels, logits', labels', g'.
    split; [exact Hinit|]. split; [exact Hin|]. split; [exact Hout|].
    split; [exact Hc|]. split; [exact Hc'|].
    destruct (Hl 0 0) as [H1 H2]; [lia | lia |].
    destruct (Hrows 0 0 2) as [H3 _]; [lia | lia | lia |].
    split; [exact H3|]. split; [exact H1|]. split; [exact H2|].
    apply (Hsame 0 0 2); lia.
Defined.

(** ** The batches of train *)

Lemma stack_rows (rows : list (tensor Z)) n :
  rows <> [] -> (forall r, In r rows -> shape r = [n]) ->
  exists x, stack rows = Ok x /\ shape x = [length rows; n] /\
    forall b j d, b < length rows -> at_ x [b; j] = at_ (nth b rows d) [j].
Proof.
  intros Hne Hsh. destruct rows as [|r rest]; [contradiction|].
  unfold stack.
  assert (Hall : forallb (fun r' => if list_eq_dec Nat.eq_dec (shape r') (shape r)
                                    then true else false) rest = true).
  { apply forallb_forall. intros r' Hin.
    rewrite (Hsh r' (or_intror Hin)), (Hsh r (or_introl eq_refl)).
    destruct (list_eq_dec Nat.eq_dec [n] [n]); [reflexivity | contradiction]. }
  rewrite Hall. eexists. split; [reflexivity|]. split.
  - cbn [shape]. rewrite (Hsh r (or_introl eq_refl)). reflexivity.
  - intros b j d Hb. cbn [at_]. rewrite (nth_indep _ r d Hb). reflexivity.
Qed.

(** An item of the dataset of [train], as [forward] needs it. *)
Lemma train_item_ready
      (split : String.string -> list String.string)
      (train_iter : list (String.string * String.string))
      (model : Transformer.t) (idx : Z) :
  ~ source_word split train_iter "<pad>"%string ->
  ~ target_word split train_iter "<pad>"%string ->
  (forall s t, In (s, t) train_iter -> split s <> [] /\ split t <> []) ->
  py_nth train_iter idx <> None ->
  sized_as_trained split train_iter model ->
  exists it,
    TranslationDataset.getitem split (Train.dataset split train_iter) idx
      = TranslationDataset.Return it /\
    ready model it.
Proof.
  unfold ready.
  intros Hps Hpt Hwords Hidx (_ & HEs & HEt).
  destruct (py_nth train_iter idx) as [[s t]|] eqn:Hd; [|contradiction].
  destruct (train_item_sized split train_iter
              (Transformer.encoder_embedding model)
              (Transformer.decoder_embedding model) idx s t Hps Hpt Hd HEs HEt)
    as (it & Hit & H1 & H2 & Hv).
  exists it. split; [exact Hit|]. split; [exact H1|]. split; [exact H2|].
  destruct (Hwords s t (py_nth_In _ _ _ Hd)) as [Hs Ht].
  split; [|split].
  - intros j Hj. destruct (Hv j Hj) as (V1 & V2 & _). split; assumption.
  - destruct (Hv 0) as (_ & _ & N1 & _); [lia|].
    unfold ne0, tmap in N1. cbn [at_] in N1.
    destruct (split s) as [|w ws]; [contradiction|]. cbn in N1.
    intros E. rewrite E in N1. discriminate.
  - destruct (Hv 0) as (_ & _ & _ & N2); [lia|].
    unfold ne0, tmap in N2. cbn [at_] in N2.
    destruct (split t) as [|w ws]; [contradiction|]. cbn in N2.
    intros E. rewrite E in N2. discriminate.
Qed.

Lemma train_items_ready
      (split : String.string -> list String.string)
      (train_iter : list (String.string * String.string))
      (model : Transformer.t) (idxs : list Z) :
  ~ source_word split train_iter "<pad>"%string ->
  ~ target_word split train_iter "<pad>"%string ->
  (forall s t, In (s, t) train_iter -> split s <> [] /\ split t <> []) ->
  (forall idx, In idx idxs -> py_nth train_iter idx <> None) ->
  sized_as_trained split train_iter model ->
  exists items,
    Forall2 (fun idx it =>
               TranslationDataset.getitem split (Train.dataset split train_iter)
                                          idx
               = TranslationDataset.Return it) idxs items /\
    forall it, In it items -> ready model it.
Proof.
  intros Hps Hpt Hwords Hidx Hm.
  induction idxs as [|idx idxs IH].
  - exists []. split; [constructor | intros it []].
  - destruct (train_item_ready split train_iter model idx Hps Hpt Hwords
                (Hidx idx (or_introl eq_refl)) Hm) as (it & Hit & Hr).
    destruct IH as (items & Hall & Hready);
      [intros i Hi; apply Hidx; right; exact Hi|].
    exists (it :: items). split; [constructor; assumption|].
    intros it' [<-|Hin]; [exact Hr | apply Hready, Hin].
Qed.

(** The batch of a list of items that are ready. *)
Lemma collate_ready (model : Transformer.t)
      (items : list TranslationDataset.item) :
  items <> [] -> (forall it, In it items -> ready model it) ->
  exists batch,
    collate items = Ok batch /\
    shape (TranslationDataset.src batch) = [length items; 100] /\
    shape (TranslationDataset.tgt batch) = [length items; 100] /\
    forall b, b < length items ->
      at_ (TranslationDataset.src batch) [b; 0] <> 0%Z /\
      at_ (TranslationDataset.tgt batch) [b; 0] <> 0%Z /\
      forall j, j < 100 ->
        Embedding.valid (Transformer.encoder_embedding model)
                        (at_ (TranslationDataset.src batch) [b; j]) = true /\
        Embedding.valid (Transformer.decoder_embedding model)
                        (at_ (TranslationDataset.tgt batch) [b; j]) = true.
Proof.
  intros Hne Hready.
  destruct items as [|it0 rest] eqn:Eitems; [contradiction|].
  rewrite <- Eitems in *.
  destruct (stack_rows (map TranslationDataset.src items) 100)
    as (xs & Hxs & Hss & Hvs).
  { rewrite Eitems. discriminate. }
  { intros r Hin. apply in_map_iff in Hin. destruct Hin as (it & <- & Hin).
    apply (Hready it Hin). }
  destruct (stack_rows (map TranslationDataset.tgt items) 100)
    as (xt & Hxt & Hst & Hvt).
  { rewrite Eitems. discriminate. }
  { intros r Hin. apply in_map_iff in Hin. destruct Hin as (it & <- & Hin).
    apply (Hready it Hin). }
  rewrite length_map in Hss, Hst, Hvs, Hvt.
  exists (TranslationDataset.mk_item xs xt).
  split; [unfold collate; rewrite Hxs, Hxt; reflexivity|].
  cbn [TranslationDataset.src TranslationDataset.tgt].
  split; [exact Hss|]. split; [exact Hst|].
  intros b Hb.
  assert (Hin : In (nth b items it0) items) by (apply nth_In; exact Hb).
  destruct (Hready _ Hin) as (_ & _ & Hv & Hs0 & Ht0).
  assert (Es : forall j, at_ xs [b; j]
                         = at_ (TranslationDataset.src (nth b items it0)) [j]).
  { intros j. rewrite (Hvs b j (TranslationDataset.src it0) Hb), map_nth.
    reflexivity. }
  assert (Et : forall j, at_ xt [b; j]
                         = at_ (TranslationDataset.tgt (nth b items it0)) [j]).
  { intros j. rewrite (Hvt b j (TranslationDataset.tgt it0) Hb), map_nth.
    reflexivity. }
  rewrite Es, Et. split; [exact Hs0|]. split; [exact Ht0|].
  intros j Hj. rewrite Es, Et. apply Hv, Hj.
Qed.

(** X20.  A training step of [train] never sees a logit that is not a
    number, the arithmetic being that of the reals.  For every corpus in
    which ["<pad>"] is not a word and every text holds a word, for the model
    [train] builds and for every model of the same sizes, whatever finite
    numbers its weights are (an optimizer step changes the weights only),
    and for every batch of items of the dataset that is not empty, in any
    order: the items are returned,
    and what [train_model] gives to [criterion] is a tensor of finite
    logits, one row for each of the 99 positions of every sequence of the
    batch and one column for every index of the target vocabulary. *)
Theorem train_batches_finite
        (split : String.string -> list String.string)
        (train_iter : list (String.string * String.string))
        (idxs : list Z) (g : rng) :
  ~ source_word split train_iter "<pad>"%string ->
  ~ target_word split train_iter "<pad>"%string ->
  (forall s t, In (s, t) train_iter -> split s <> [] /\ split t <> []) ->
  idxs <> [] ->
  (forall idx, In idx idxs -> py_nth train_iter idx <> None) ->
  (forall v, exists model,
     Train.model split train_iter v = Ok model /\
     sized_as_trained split train_iter model) /\
  (forall model, sized_as_trained split train_iter model ->
   exists items batch logits labels g',
    Forall2 (fun idx it =>
               TranslationDataset.getitem split (Train.dataset split train_iter)
                                          idx
               = TranslationDataset.Return it) idxs items /\
    collate items = Ok batch /\
    criterion_inputs model (TranslationDataset.src batch)
                     (TranslationDataset.tgt batch) g
      = Ok ((logits, labels), g') /\
    shape logits = [length idxs * 99;
                    length (snd (Train.vocabularies split train_iter))] /\
    shape labels = [length idxs * 99] /\
    forall r c, r < length idxs * 99 ->
      c < length (snd (Train.vocabularies split train_iter)) ->
      finite (at_ logits [r; c])).
Proof.
  intros Hps Hpt Hwords Hne Hidx.
  split; [intros v; exact (train_model_sizes split train_iter v)|].
  intros model Hm. pose proof Hm as (Hsz & _ & Hnum).
  destruct (train_items_ready split train_iter model idxs Hps Hpt Hwords
              Hidx Hm) as (items & Hall & Hready).
  pose proof (Forall2_length Hall) as Hlen.
  assert (Hine : items <> []).
  { intros ->. destruct idxs; [contradiction | discriminate]. }
  destruct (collate_ready model items Hine Hready)
    as (batch & Hb & Hss & Hst & Hrow).
  rewrite <- Hlen in *.
  set (V := length (snd (Train.vocabularies split train_iter))) in *.
  assert (HB : length idxs <> 0) by (destruct idxs; [contradiction | discriminate]).
  assert (HV : V <> 0).
  { destruct (Hrow 0) as (_ & _ & Hv0); [lia|].
    destruct (Hv0 0) as [_ Hd]; [lia|].
    unfold Embedding.valid in Hd. rewrite Hnum in Hd.
    apply andb_prop in Hd. destruct Hd as [H0 H1].
    apply Z.leb_le in H0. apply Z.ltb_lt in H1. lia. }
  destruct (criterion_inputs_related model (TranslationDataset.src batch)
              (TranslationDataset.tgt batch) (TranslationDataset.tgt batch) g
              (fun _ => 99) (length idxs) 100 99 512 5000 V
              Hsz Hss Hst Hst HB HV)
    as (tin & out & logits & labels & _ & _ & _ & _ & g' & _ & _ & Hc & _ & _
        & _ & _ & _ & Hsl & Hslab & _ & _ & Hfin & _).
  - apply Nat.leb_le. vm_compute. reflexivity.
  - apply Nat.leb_le. vm_compute. reflexivity.
  - intros b _. cbv beta. split; [apply Nat.lt_0_succ | apply le_n].
  - intros b j _ _. reflexivity.
  - intros b Hb0. exists 0. split; [apply Nat.lt_0_succ | apply (Hrow b Hb0)].
  - intros b Hb0. apply (Hrow b Hb0).
  - apply (tokens_in_vocabulary_2 _ _ (length idxs) 100 Hss).
    intros b i Hb0 Hi. apply (Hrow b Hb0), Hi.
  - intros b i Hb0 Hi.
    assert (Hi' : i < 100) by (apply Nat.lt_lt_succ_r; exact Hi).
    split; apply (Hrow b Hb0), Hi'.
  - exists items, batch, logits, labels, g'.
    split; [exact Hall|]. split; [exact Hb|].
    split; [exact Hc|]. split; [exact Hsl|]. split; [exact Hslab|].
    intros r c Hr Hc0.
    assert (H99 : 99 <> 0) by discriminate.
    assert (Hi : r mod 99 < 99) by (apply Nat.mod_upper_bound; exact H99).
    assert (Hbq : r / 99 < length idxs).
    { apply Nat.Div0.div_lt_upper_bound. rewrite Nat.mul_comm. exact Hr. }
    pose proof (Hfin (r / 99) (r mod 99) c Hbq Hi Hc0) as F.
    replace (r / 99 * 99 + r mod 99) with r in F; [exact F|].
    rewrite (Nat.div_mod_eq r 99) at 1. rewrite Nat.mul_comm. reflexivity.
Qed.

Lemma train_batches_finite_witness :
  exists model items batch logits labels g',
    Train.model split_ascii (TranslationDataset.data example_dataset) ramp_params
      = Ok model /\
    collate items = Ok batch /\
    criterion_inputs model (TranslationDataset.src batch)
                     (TranslationDataset.tgt batch) keep_all
      = Ok ((logits, labels), g') /\
    finite (at_ logits [100; 3]).
Proof.
  destruct (train_batches_finite split_ascii
              (TranslationDataset.data example_dataset)
              [2%Z; 0%Z] keep_all) as [Hbuilt Hstep].
  - intros (s & t & Hin & Hw). cbn in Hin.
    repeat (destruct Hin as [E|Hin];
            [inversion E; subst s t; vm_compute in Hw;
             repeat (destruct Hw as [E'|Hw]; [discriminate|]); contradiction|]).
    contradiction.
  - intros (s & t & Hin & Hw). cbn in Hin.
    repeat (destruct Hin as [E|Hin];
            [inversion E; subst s t; vm_compute in Hw;
             repeat (destruct Hw as [E'|Hw]; [discriminate|]); contradiction|]).
    contradiction.
  - intros s t Hin. cbn in Hin.
    repeat (destruct Hin as [E|Hin];
            [inversion E; subst s t; split; vm_compute; discriminate|]).
    contradiction.
  - discriminate.
  - intros idx Hin.
    repeat (destruct Hin as [<-|Hin]; [vm_compute; discriminate|]).
    contradiction.
  - destruct (Hbuilt ramp_params) as (model & Hm & Hsized).
    destruct (Hstep model Hsized)
      as (items & batch & logits & labels & g' & _ & Hb & Hc & _ & _ & Hfin).
    exists model, items, batch, logits, labels, g'.
    split; [exact Hm|]. split; [exact Hb|]. split; [exact Hc|].
    apply Hfin; vm_compute; lia.
Defined.
